(** * Path planning, smoothing and trajectory resampling of the drone simulator

    A shallow embedding of [PathPlanner.ts] ([AStarPlanner], [RRTPlanner],
    [TrajectorySmoothing]) and of [DroneSimulatorV2.generateTrajectoryFromPath].

    The TypeScript code computes on JavaScript numbers.  The embedding is
    written once over an interface [Number] of the operations the code uses
    and is run on two instances:

    - [JSFloat.float_number]: IEEE 754 binary64 (the primitive floats of the
      kernel), which is what a JavaScript engine computes, NaN, infinities
      and signed zeros included; [Math.sqrt] is the correctly rounded square
      root;
    - [Ideal.Q_number]: exact rational arithmetic with [Math.sqrt] left as a
      parameter, used for the properties that are about the arithmetic of
      the real numbers and not about rounding.

    Conventions.  A JavaScript function that may fail to return (a [for]
    loop whose bound is infinite or beyond the integers a counter can reach,
    the unbounded [while] of [RRTPlanner.reconstructPath], a [TypeError])
    returns an [option]; [None] is "no value returned".  [Math.random] is an
    oracle: the sequence of its results is an argument.  Counts given as
    integers in the source ([maxIterations]) are natural numbers.

    The file has two parts: the definitions (the arithmetic, the program,
    the predicates of the statements, the scenarios), then the facts. *)

From Stdlib Require Import ZArith List Bool Lia Arith.
From Stdlib Require Import QArith Qround Qabs Lqa.
From Stdlib Require PrimFloat SpecFloat FloatOps FloatAxioms.
Import ListNotations.

Close Scope Q_scope.
Set Implicit Arguments.

(** ** The arithmetic interface *)

Declare Scope num_scope.
Delimit Scope num_scope with num.

Class Number (num : Type) : Type := {
  (** an integer literal, or the value of an integer loop counter *)
  num_of_Z : Z -> num;
  num_add : num -> num -> num;
  num_sub : num -> num -> num;
  num_mul : num -> num -> num;
  num_div : num -> num -> num;
  (** unary minus *)
  num_opp : num -> num;
  (** [Math.sqrt], [Math.floor], [Math.ceil], [Math.round], [Math.max] *)
  num_sqrt : num -> num;
  num_floor : num -> num;
  num_ceil : num -> num;
  num_round : num -> num;
  num_max : num -> num -> num;
  (** [a < b] and [a <= b] *)
  num_ltb : num -> num -> bool;
  num_leb : num -> num -> bool;
  (** [a < Infinity] *)
  num_lt_infinity : num -> bool;
  (** the number of iterations of [for (let i = 0; i <= b; i++)], and of
      [for (let i = 0; i < b; i++)]; [None] when the loop test never fails *)
  num_bound_le : num -> option nat;
  num_bound_lt : num -> option nat;
  (** equality of the decimal renderings, [`${a}` === `${b}`] *)
  num_str_eqb : num -> num -> bool
}.

Notation "a + b" := (num_add a b) : num_scope.
Notation "a - b" := (num_sub a b) : num_scope.
Notation "a * b" := (num_mul a b) : num_scope.
Notation "a / b" := (num_div a b) : num_scope.
Notation "- a" := (num_opp a) : num_scope.
Notation "a <? b" := (num_ltb a b) : num_scope.
Notation "a <=? b" := (num_leb a b) : num_scope.
(** [a >= b] is [b <= a] on numbers (both are false when a NaN is involved). *)
Notation "a >=? b" := (num_leb b a) (at level 70) : num_scope.
(** An integer literal of the source. *)
Arguments num_of_Z {num _} _%_Z.
Abbreviation lit := num_of_Z.

(** ** IEEE 754 binary64: the numbers of a JavaScript engine *)

Module JSFloat.
Import PrimFloat SpecFloat FloatOps.

(** The integer [z] as a double, rounded to nearest even. *)
Definition of_Z (z : Z) : float :=
  SF2Prim (binary_normalize prec emax z 0 false).

(** [2^53]: up to there every integer is a double, and a counter that is
    incremented by one stays there for ever. *)
Definition two53 : Z := 9007199254740992.

(** [floor] and [ceil] of a finite double [(-1)^s * m * 2^e], in [Z]. *)
Definition signed (s : bool) (m : positive) : Z :=
  if s then Z.neg m else Z.pos m.

Definition floorZ (s : bool) (m : positive) (e : Z) : Z :=
  if (0 <=? e)%Z then (signed s m * 2 ^ e)%Z
  else (signed s m / 2 ^ (- e))%Z.

Definition ceilZ (s : bool) (m : positive) (e : Z) : Z :=
  if (0 <=? e)%Z then (signed s m * 2 ^ e)%Z
  else (- ((- signed s m) / 2 ^ (- e)))%Z.

(** [floor (v + 1/2)]: the nearest integer, ties towards plus infinity. *)
Definition roundZ (s : bool) (m : positive) (e : Z) : Z :=
  if (0 <=? e)%Z then (signed s m * 2 ^ e)%Z
  else ((2 * signed s m + 2 ^ (- e)) / 2 ^ (1 - e))%Z.

Definition signed_zero (s : bool) : float :=
  if s then neg_zero else zero.

(** An integral result [q] as a double; a zero result keeps the sign of
    the argument, as [Math.ceil(-0.5)] and [Math.round(-0.2)] are [-0]. *)
Definition integral (s : bool) (q : Z) : float :=
  if (q =? 0)%Z then signed_zero s else of_Z q.

(** A double with a non-negative exponent is an integer already. *)
Definition floor (a : float) : float :=
  match Prim2SF a with
  | S754_finite s m e =>
      if (0 <=? e)%Z then a else integral false (floorZ s m e)
  | _ => a
  end.

Definition ceil (a : float) : float :=
  match Prim2SF a with
  | S754_finite s m e =>
      if (0 <=? e)%Z then a else integral s (ceilZ s m e)
  | _ => a
  end.

Definition round (a : float) : float :=
  match Prim2SF a with
  | S754_finite s m e =>
      if (0 <=? e)%Z then a else integral s (roundZ s m e)
  | _ => a
  end.

(** [Math.max]: NaN when an argument is NaN, and [+0] above [-0]. *)
Definition max (a b : float) : float :=
  if is_nan a || is_nan b then nan
  else if ltb a b then b
  else if ltb b a then a
  else if is_zero a && get_sign a then b else a.

(** [for (let i = 0; i <= b; i++)]: the counter takes the values
    [0, 1, ..., floor b]; the test never fails when [b] is [2^53] or more. *)
Definition bound_le (b : float) : option nat :=
  match Prim2SF b with
  | S754_nan => Some 0
  | S754_zero _ => Some 1
  | S754_infinity s => if s then Some 0 else None
  | S754_finite s m e =>
      let q := floorZ s m e in
      if (two53 <=? q)%Z then None else Some (Z.to_nat (q + 1))
  end.

(** [for (let i = 0; i < b; i++)]: [ceil b] iterations; the test never
    fails when [b] is above [2^53]. *)
Definition bound_lt (b : float) : option nat :=
  match Prim2SF b with
  | S754_nan => Some 0
  | S754_zero _ => Some 0
  | S754_infinity s => if s then Some 0 else None
  | S754_finite s m e =>
      let q := ceilZ s m e in
      if (two53 <? q)%Z then None else Some (Z.to_nat q)
  end.

(** Number-to-string conversion is injective except that [-0] and [+0]
    both print as ["0"]; NaN prints as ["NaN"]. *)
Definition str_eqb (a b : float) : bool :=
  (is_nan a && is_nan b) || eqb a b.

#[export] Instance float_number : Number float := {
  num_of_Z := of_Z;
  num_add := add;
  num_sub := sub;
  num_mul := mul;
  num_div := div;
  num_opp := opp;
  num_sqrt := sqrt;
  num_floor := floor;
  num_ceil := ceil;
  num_round := round;
  num_max := max;
  num_ltb := ltb;
  num_leb := leb;
  num_lt_infinity := fun a => ltb a infinity;
  num_bound_le := bound_le;
  num_bound_lt := bound_lt;
  num_str_eqb := str_eqb
}.
End JSFloat.

(** ** Data model ([PathPlanner.ts]) *)

Record Vector3 (num : Type) : Type := mkVector3 { x : num; y : num; z : num }.

Record Obstacle (num : Type) : Type := mkObstacle {
  position : Vector3 num;
  radius : num
}.

(** [maxIterations] is a count of loop iterations: a natural number. *)
Record PathPlanningConfig (num : Type) : Type := mkConfig {
  startPos : Vector3 num;
  endPos : Vector3 num;
  obstacles : list (Obstacle num);
  gridSize : num;
  droneRadius : num;
  maxIterations : nat
}.

(** A [PathNode] is never mutated after its creation, so the chain of
    [parent] references is a value. *)
#[warnings="-register-all"]
Inductive PathNode (num : Type) : Type := mkPathNode {
  node_position : Vector3 num;
  node_g : num;
  node_h : num;
  node_parent : option (PathNode num)
}.

(** The three rounded coordinates that [getNodeKey] prints into its string. *)
Record NodeKey (num : Type) : Type := mkNodeKey { kx : num; ky : num; kz : num }.

(** The fields of an [AStarPlanner] instance besides its [config]. *)
Record AStarPlanner (num : Type) : Type := mkAStarPlanner {
  openSet : list (PathNode num);
  closedSet : list (PathNode num);
  nodeMap : list (NodeKey num * PathNode num)
}.

(** What a call of [AStarPlanner.plan] leaves: the returned array, the
    instance fields, and the value of the loop variable [iteration] at the
    [return] (0 when the loop was not entered). *)
Record AStarResult (num : Type) : Type := mkAStarResult {
  astar_path : list (Vector3 num);
  astar_state : AStarPlanner num;
  astar_iteration : nat
}.

Notation "'do' a <- c ; k" :=
  (match c with Some a => k | None => None end)
  (at level 10, a name, c at level 100, k at level 200).

(** [l.filter(f)] for a test that may not return. *)
Fixpoint filter_opt {A : Type} (f : A -> option bool) (l : list A)
  : option (list A) :=
  match l with
  | [] => Some []
  | a :: l' =>
      do b <- f a ;
      do r <- filter_opt f l' ;
      Some (if b then a :: r else r)
  end.

Section Planning.
Context {num : Type} {NUM : Number num}.
Local Open Scope num_scope.

Local Abbreviation Vec := (Vector3 num).
Local Abbreviation Config := (PathPlanningConfig num).
Local Abbreviation Node := (PathNode num).

(** *** Collision model (the same three methods in both planner classes) *)

Definition distance (a b : Vec) : num :=
  let dx := a.(x) - b.(x) in
  let dy := a.(y) - b.(y) in
  let dz := a.(z) - b.(z) in
  num_sqrt (dx * dx + dy * dy + dz * dz).

(** The test of the [if] in [isPointClear]: the point is too close. *)
Definition tooClose (cfg : Config) (point : Vec) (obstacle : Obstacle num) : bool :=
  distance point obstacle.(position)
    <? obstacle.(radius) + cfg.(droneRadius) + lit 2.

Definition isPointClear (cfg : Config) (point : Vec) : bool :=
  forallb (fun obstacle => negb (tooClose cfg point obstacle)) cfg.(obstacles).

(** [{ x: from.x + (to.x - from.x) * t, ... }], the expression of
    [isPathClear], of [RRTPlanner.step] and of the trajectory resampler. *)
Definition interpolate (from to : Vec) (t : num) : Vec :=
  {| x := from.(x) + (to.(x) - from.(x)) * t;
     y := from.(y) + (to.(y) - from.(y)) * t;
     z := from.(z) + (to.(z) - from.(z)) * t |}.

(** [isPathClear]: the samples [i = 0 .. steps] at [t = i / steps].  When
    the loop cannot end by its test ([steps] is infinite, or 2^53 and more)
    the result is [None]. *)
Definition isPathClear (cfg : Config) (from to : Vec) : option bool :=
  let steps := num_ceil (distance from to / lit 2) in
  do n <- num_bound_le steps ;
  Some (forallb
          (fun i => isPointClear cfg (interpolate from to (lit (Z.of_nat i) / steps)))
          (seq 0 n)).

(** *** AStarPlanner *)

Definition getNodeKey (pos : Vec) : NodeKey num :=
  let precision := lit 1 in
  {| kx := num_round (pos.(x) / precision) * precision;
     ky := num_round (pos.(y) / precision) * precision;
     kz := num_round (pos.(z) / precision) * precision |}.

(** Equality of two key strings ["a,b,c"]. *)
Definition key_eqb (a b : NodeKey num) : bool :=
  num_str_eqb a.(kx) b.(kx) && num_str_eqb a.(ky) b.(ky)
  && num_str_eqb a.(kz) b.(kz).

(** [Map.get] and [Map.set]; the most recent binding of a key is first. *)
Definition nodeMap_get (key : NodeKey num) (m : list (NodeKey num * Node))
  : option Node :=
  option_map snd (find (fun kv => key_eqb (fst kv) key) m).

Definition nodeMap_set (key : NodeKey num) (node : Node)
    (m : list (NodeKey num * Node)) : list (NodeKey num * Node) :=
  (key, node) :: m.

(** The 26 directions in the order of the three nested loops. *)
Definition directions : list (Z * Z * Z) :=
  let range := [-1; 0; 1]%Z in
  flat_map (fun dx =>
    flat_map (fun dy =>
      flat_map (fun dz =>
        if ((dx =? 0) && (dy =? 0) && (dz =? 0))%Z then []
        else [(dx, dy, dz)]) range) range) range.

Definition neighborOf (pos : Vec) (step : num) (d : Z * Z * Z) : Vec :=
  let '(dx, dy, dz) := d in
  {| x := pos.(x) + lit dx * step;
     y := pos.(y) + lit dy * step;
     z := pos.(z) + lit dz * step |}.

(** The condition under which [getNeighbors] keeps a neighbor. *)
Definition neighborOk (cfg : Config) (pos neighbor : Vec) : option bool :=
  if (neighbor.(y) >=? lit 0) && (neighbor.(y) <=? lit 100)
     && isPointClear cfg neighbor
  then isPathClear cfg pos neighbor
  else Some false.

Definition getNeighbors (cfg : Config) (node : Node) : option (list Vec) :=
  let step := cfg.(gridSize) in
  filter_opt (neighborOk cfg node.(node_position))
    (map (neighborOf node.(node_position) step) directions).

(** [AStarPlanner.reconstructPath]: [path.unshift] along the parents. *)
Fixpoint reconstructPath_from (current : Node) (path : list Vec) : list Vec :=
  let path' := current.(node_position) :: path in
  match current.(node_parent) with
  | Some parent => reconstructPath_from parent path'
  | None => path'
  end.

Definition reconstructPath (node : Node) : list Vec :=
  reconstructPath_from node [].

Definition midPoint (cfg : Config) : Vec :=
  {| x := (cfg.(startPos).(x) + cfg.(endPos).(x)) / lit 2;
     y := num_max cfg.(startPos).(y) cfg.(endPos).(y) + lit 20;
     z := (cfg.(startPos).(z) + cfg.(endPos).(z)) / lit 2 |}.

Definition getAlternativePath (cfg : Config) : option (list Vec) :=
  do clear <- isPathClear cfg cfg.(startPos) (midPoint cfg) ;
  Some (cfg.(startPos)
          :: (if clear then [midPoint cfg] else []) ++ [cfg.(endPos)]).

(** The scan for the node of least [f]: [minF] starts at [Infinity] with
    [current = null] ([None] here), and only a strictly smaller [f]
    replaces the candidate. *)
Fixpoint scanMin (l : list Node) (i : nat) (best : option (num * Node * nat))
  : option (num * Node * nat) :=
  match l with
  | [] => best
  | node :: l' =>
      let f := node.(node_g) + node.(node_h) in
      let smaller :=
        match best with
        | None => num_lt_infinity f
        | Some (minF, _, _) => f <? minF
        end in
      scanMin l' (S i) (if smaller then Some (f, node, i) else best)
  end.

(** [array.splice(i, 1)] *)
Definition splice1 {A : Type} (i : nat) (l : list A) : list A :=
  firstn i l ++ skipn (S i) l.

(** The body of the loop over the neighbors of [current]. *)
Definition visitNeighbor (cfg : Config) (current : Node)
    (st : AStarPlanner num) (neighborPos : Vec) : AStarPlanner num :=
  let key := getNodeKey neighborPos in
  if existsb (fun n => key_eqb (getNodeKey n.(node_position)) key) st.(closedSet)
  then st
  else
    let tentativeG := current.(node_g) + distance current.(node_position) neighborPos in
    let neighbor :=
      {| node_position := neighborPos;
         node_g := tentativeG;
         node_h := distance neighborPos cfg.(endPos);
         node_parent := Some current |} in
    let pushed :=
      {| openSet := st.(openSet) ++ [neighbor];
         closedSet := st.(closedSet);
         nodeMap := nodeMap_set key neighbor st.(nodeMap) |} in
    match nodeMap_get key st.(nodeMap) with
    | Some existingNode =>
        if tentativeG >=? existingNode.(node_g) then st else pushed
    | None => pushed
    end.

(** The [for] loop of [plan]: [fuel] iterations remain and [iteration]
    is the value of the loop variable. *)
Fixpoint searchLoop (cfg : Config) (fuel iteration : nat) (st : AStarPlanner num)
  : option (AStarResult num) :=
  let finish path := Some (mkAStarResult path st iteration) in
  match fuel with
  | O => do alt <- getAlternativePath cfg ; finish alt
  | S fuel' =>
      match st.(openSet) with
      | [] =>
          do clear <- isPathClear cfg cfg.(startPos) cfg.(endPos) ;
          if clear then finish [cfg.(startPos); cfg.(endPos)]
          else do alt <- getAlternativePath cfg ; finish alt
      | _ :: _ =>
          match scanMin st.(openSet) 0 None with
          | None => do alt <- getAlternativePath cfg ; finish alt
          | Some (_, current, minIndex) =>
              do reached <-
                 (if distance current.(node_position) cfg.(endPos)
                       <? cfg.(gridSize) * lit 2
                  then isPathClear cfg current.(node_position) cfg.(endPos)
                  else Some false) ;
              if reached then finish (reconstructPath current ++ [cfg.(endPos)])
              else
                let st1 :=
                  {| openSet := splice1 minIndex st.(openSet);
                     closedSet := st.(closedSet) ++ [current];
                     nodeMap := st.(nodeMap) |} in
                do neighbors <- getNeighbors cfg current ;
                searchLoop cfg fuel' (S iteration)
                  (fold_left (visitNeighbor cfg current) neighbors st1)
          end
      end
  end.

(** [AStarPlanner.plan], called on an instance whose fields are [st]. *)
Definition plan (cfg : Config) (st : AStarPlanner num) : option (AStarResult num) :=
  if negb (isPointClear cfg cfg.(startPos)) || negb (isPointClear cfg cfg.(endPos))
  then Some (mkAStarResult [cfg.(startPos); cfg.(endPos)] st 0)
  else
    let startNode :=
      {| node_position := cfg.(startPos);
         node_g := lit 0;
         node_h := distance cfg.(startPos) cfg.(endPos);
         node_parent := None |} in
    searchLoop cfg cfg.(maxIterations) 0
      {| openSet := st.(openSet) ++ [startNode];
         closedSet := st.(closedSet);
         nodeMap := nodeMap_set (getNodeKey startNode.(node_position)) startNode
                      st.(nodeMap) |}.

(** [new AStarPlanner(config)]: the field initialisers. *)
Definition newAStarPlanner : AStarPlanner num :=
  {| openSet := []; closedSet := []; nodeMap := [] |}.

(** *** RRTPlanner

    [reconstructPath] compares nodes with [===], which on objects is
    identity of reference.  An [Obj] is a [Vector3] object with the
    identity it got when it was allocated; [config.startPos] and
    [config.endPos] are two objects, numbered 0 and 1. *)

Record Obj : Type := mkObj { obj_id : nat; obj_value : Vec }.

Definition same_object (a b : Obj) : bool := (a.(obj_id) =? b.(obj_id))%nat.

Definition startObj (cfg : Config) : Obj := mkObj 0 cfg.(startPos).
Definition endObj (cfg : Config) : Obj := mkObj 1 cfg.(endPos).

(** The state of a run of [RRTPlanner.plan]: the field [nodes], the next
    free object identity and the number of calls of [Math.random] made. *)
Record RRTState : Type := mkRRTState {
  nodes : list Obj;
  next_id : nat;
  random_calls : nat
}.

(** The literals [0.1] and [0.5]: the doubles nearest to 1/10 and 1/2,
    which are the correctly rounded quotients. *)
Definition tenth : num := lit 1 / lit 10.
Definition half : num := lit 1 / lit 2.

(** [randomPoint]: three calls of [Math.random], for [x], [y] and [z]. *)
Definition randomPoint (random : nat -> num) (calls : nat) : Vec :=
  {| x := random calls * lit 200 - lit 100;
     y := random (S calls) * lit 50 + lit 5;
     z := random (S (S calls)) * lit 200 - lit 100 |}.

(** [nearestNode]: [None] stands for the [TypeError] on an empty [nodes]. *)
Definition nearestNode (nodes : list Obj) (point : Vec) : option Obj :=
  match nodes with
  | [] => None
  | first :: _ =>
      Some (snd (fold_left
                   (fun (acc : num * Obj) node =>
                      let dist := distance point node.(obj_value) in
                      if dist <? fst acc then (dist, node) else acc)
                   nodes (distance point first.(obj_value), first)))
  end.

(** [step]: returns the object [to] itself, or a new object [fresh]. *)
Definition step (from to : Obj) (stepSize : num) (fresh : nat) : Obj :=
  let dist := distance from.(obj_value) to.(obj_value) in
  if dist <? stepSize then to
  else
    let ratio := stepSize / dist in
    mkObj fresh (interpolate from.(obj_value) to.(obj_value) ratio).

(** The inner [for] of [RRTPlanner.reconstructPath]: the nearest node,
    other than [current], with a clear segment to [current].  [minDist]
    starts at [Infinity] ([None] here). *)
Fixpoint scanPredecessor (cfg : Config) (l : list Obj) (current : Obj)
    (best : option (num * Obj)) : option (option (num * Obj)) :=
  match l with
  | [] => Some best
  | node :: l' =>
      if same_object node current then scanPredecessor cfg l' current best
      else
        let dist := distance node.(obj_value) current.(obj_value) in
        let smaller :=
          match best with
          | None => num_lt_infinity dist
          | Some (minDist, _) => dist <? minDist
          end in
        do better <-
           (if smaller then isPathClear cfg node.(obj_value) current.(obj_value)
            else Some false) ;
        scanPredecessor cfg l' current (if better then Some (dist, node) else best)
  end.

(** The [while (current)] loop of [RRTPlanner.reconstructPath].  Its test
    is always true; [fuel] bounds the iterations, [None] when it runs out. *)
Fixpoint rrtReconstructLoop (cfg : Config) (nodes : list Obj) (fuel : nat)
    (current : Obj) (path : list Vec) : option (list Vec) :=
  match fuel with
  | O => None
  | S fuel' =>
      let path' := current.(obj_value) :: path in
      do best <- scanPredecessor cfg nodes current None ;
      match best with
      | None => Some (path' ++ [cfg.(endPos)])
      | Some (_, nearest) => rrtReconstructLoop cfg nodes fuel' nearest path'
      end
  end.

Definition rrtReconstructPath (cfg : Config) (nodes : list Obj) (fuel : nat)
    (endPoint : Obj) : option (list Vec) :=
  rrtReconstructLoop cfg nodes fuel endPoint [].

(** After the [for] loop of [plan]: the node closest to the goal. *)
Definition closestToGoal (cfg : Config) (nodes : list Obj) : option Obj :=
  match nodes with
  | [] => None
  | first :: _ =>
      Some (snd (fold_left
                   (fun (acc : num * Obj) node =>
                      let dist := distance node.(obj_value) cfg.(endPos) in
                      if dist <? fst acc then (dist, node) else acc)
                   nodes (distance first.(obj_value) cfg.(endPos), first)))
  end.

(** One iteration of the [for] loop of [RRTPlanner.plan]: either the next
    state, or the node from which the path is reconstructed. *)
Definition rrtIteration (cfg : Config) (random : nat -> num) (st : RRTState)
  : option (RRTState + (RRTState * Obj)) :=
  let calls := st.(random_calls) in
  let goalBias := random calls <? tenth in
  let randomObj :=
    if goalBias then endObj cfg
    else mkObj st.(next_id) (randomPoint random (S calls)) in
  let calls' := if goalBias then S calls else (calls + 4)%nat in
  let next1 := if goalBias then st.(next_id) else S st.(next_id) in
  do nearest <- nearestNode st.(nodes) randomObj.(obj_value) ;
  let newPoint := step nearest randomObj (cfg.(gridSize) * lit 2) next1 in
  let next2 := S next1 in
  do accepted <-
     (if isPointClear cfg newPoint.(obj_value)
      then isPathClear cfg nearest.(obj_value) newPoint.(obj_value)
      else Some false) ;
  if accepted then
    let st' := mkRRTState (st.(nodes) ++ [newPoint]) next2 calls' in
    do reached <-
       (if distance newPoint.(obj_value) cfg.(endPos) <? cfg.(gridSize) * lit 3
        then isPathClear cfg newPoint.(obj_value) cfg.(endPos)
        else Some false) ;
    Some (if reached then inr (st', newPoint) else inl st')
  else Some (inl (mkRRTState st.(nodes) next2 calls')).

Fixpoint rrtLoop (cfg : Config) (random : nat -> num) (iterations : nat)
    (st : RRTState) : option (RRTState * Obj) :=
  match iterations with
  | O => do closest <- closestToGoal cfg st.(nodes) ; Some (st, closest)
  | S iterations' =>
      do r <- rrtIteration cfg random st ;
      match r with
      | inl st' => rrtLoop cfg random iterations' st'
      | inr found => Some found
      end
  end.

(** [RRTPlanner.plan]: [this.nodes = [startPos]], the loop, and the
    reconstruction from the node the loop ended on.  [fuel] bounds the
    iterations of the reconstruction. *)
Definition rrtPlan (cfg : Config) (random : nat -> num) (fuel : nat)
  : option (list Vec) :=
  do r <- rrtLoop cfg random cfg.(maxIterations) (mkRRTState [startObj cfg] 2 0) ;
  rrtReconstructPath cfg (fst r).(nodes) fuel (snd r).

(** *** TrajectorySmoothing.smoothPath *)

(** One coordinate of the Catmull-Rom point at parameter [s]. *)
Definition catmullRom (p0 p1 p2 p3 s : num) : num :=
  let s2 := s * s in
  let s3 := s2 * s in
  half * (lit 2 * p1
          + (- p0 + p2) * s
          + (lit 2 * p0 - lit 5 * p1 + lit 4 * p2 - p3) * s2
          + (- p0 + lit 3 * p1 - lit 3 * p2 + p3) * s3).

Definition splinePoint (p0 p1 p2 p3 : Vec) (s : num) : Vec :=
  {| x := catmullRom p0.(x) p1.(x) p2.(x) p3.(x) s;
     y := catmullRom p0.(y) p1.(y) p2.(y) p3.(y) s;
     z := catmullRom p0.(z) p1.(z) p2.(z) p3.(z) s |}.

(** The points pushed for the segment that starts at index [i]. *)
Definition smoothSegment (path : list Vec) (dflt : Vec) (pointsPerSegment : num)
    (n i : nat) : list Vec :=
  let p0 := nth (Nat.max 0 (i - 1)) path dflt in
  let p1 := nth i path dflt in
  let p2 := nth (i + 1) path dflt in
  let p3 := nth (Nat.min (length path - 1) (i + 2)) path dflt in
  map (fun t => splinePoint p0 p1 p2 p3 (lit (Z.of_nat t) / pointsPerSegment))
      (seq 0 n).

Definition smoothPath (path : list Vec) (pointsPerSegment : num)
  : option (list Vec) :=
  match path with
  | [] | [_] => Some path
  | first :: _ =>
      do n <- num_bound_lt pointsPerSegment ;
      Some (flat_map (smoothSegment path first pointsPerSegment n)
                     (seq 0 (length path - 1))
            ++ [nth (length path - 1) path first])
  end.

(** *** DroneSimulatorV2.generateTrajectoryFromPath *)

Record TrajectoryPoint : Type := mkTrajectoryPoint {
  tp_position : num * num * num;
  timestamp : num;
  velocity : num
}.

(** The first loop: the sum of the segment lengths, from [path[1]] on. *)
Fixpoint sumSegments (prev : Vec) (rest : list Vec) (total : num) : num :=
  match rest with
  | [] => total
  | p :: rest' => sumSegments p rest' (total + distance p prev)
  end.

Definition totalDistance (path : list Vec) : num :=
  match path with
  | [] => lit 0
  | first :: rest => sumSegments first rest (lit 0)
  end.

(** The inner loop over [j]: the point at arc length [distanceAlongPath],
    [position] when no segment reaches that far. *)
Fixpoint locate (prev : Vec) (rest : list Vec) (currentDistance : num)
    (distanceAlongPath : num) (position : Vec) : Vec :=
  match rest with
  | [] => position
  | p :: rest' =>
      let segmentDistance := distance p prev in
      if currentDistance + segmentDistance >=? distanceAlongPath then
        let segmentProgress := (distanceAlongPath - currentDistance) / segmentDistance in
        interpolate prev p segmentProgress
      else locate p rest' (currentDistance + segmentDistance) distanceAlongPath position
  end.

Definition pointsCountOf (totalTime : num) : num :=
  num_max (lit 100) (num_floor (totalTime * lit 10)).

(** The arc length the sample of index [i] aims at. *)
Definition distanceAlongPathOf (total pointsCount : num) (i : nat) : num :=
  let progress := lit (Z.of_nat i) / pointsCount in
  total * progress.

(** The body of the outer loop, for a path [first :: rest]. *)
Definition trajectoryPoint (first : Vec) (rest : list Vec) (speed : num) (i : nat)
  : TrajectoryPoint :=
  let total := totalDistance (first :: rest) in
  let totalTime := total / speed in
  let pointsCount := pointsCountOf totalTime in
  let position := locate first rest (lit 0) (distanceAlongPathOf total pointsCount i) first in
  {| tp_position := (position.(x), position.(y), position.(z));
     timestamp := (lit (Z.of_nat i) / pointsCount) * totalTime;
     velocity := speed |}.

(** [None]: the loop is unbounded, or [path[0]] is [undefined] and reading
    [position.x] throws. *)
Definition generateTrajectoryFromPath (path : list Vec) (speed : num)
  : option (list TrajectoryPoint) :=
  let totalTime := totalDistance path / speed in
  do n <- num_bound_lt (pointsCountOf totalTime) ;
  match path, n with
  | _, O => Some []
  | [], S _ => None
  | first :: rest, S _ => Some (map (trajectoryPoint first rest speed) (seq 0 n))
  end.

(** *** Predicates used to state the facts below *)

(** Every position on the parent chain of a node passes [isPointClear]. *)
Fixpoint chainClear (cfg : Config) (node : Node) : Prop :=
  isPointClear cfg node.(node_position) = true
  /\ match node.(node_parent) with
     | Some parent => chainClear cfg parent
     | None => True
     end.

Definition clearPoints (cfg : Config) (path : list Vec) : Prop :=
  Forall (fun p => isPointClear cfg p = true) path.

Definition openClear (cfg : Config) (st : AStarPlanner num) : Prop :=
  Forall (chainClear cfg) st.(openSet).

(** A point of a path of the grid planner has passed [isPointClear], or it
    is the raised midpoint and the segment from the start to it has passed
    [isPathClear]. *)
Definition clearOrMidPoint (cfg : Config) (p : Vec) : Prop :=
  isPointClear cfg p = true
  \/ (p = midPoint cfg
      /\ isPathClear cfg cfg.(startPos) (midPoint cfg) = Some true).

(** The position at the root of the parent chain of a node. *)
Fixpoint rootPosition (node : Node) : Vec :=
  match node.(node_parent) with
  | Some parent => rootPosition parent
  | None => node.(node_position)
  end.

(** Every node of the open set descends from a node at the start. *)
Definition openRooted (cfg : Config) (st : AStarPlanner num) : Prop :=
  Forall (fun node => rootPosition node = cfg.(startPos)) st.(openSet).

(** A path from the start to the goal. *)
Definition fromStartToGoal (cfg : Config) (path : list Vec) : Prop :=
  exists between, path = cfg.(startPos) :: between ++ [cfg.(endPos)].

(** A node of the tree planner is the start or has passed [isPointClear]. *)
Definition checkedNode (cfg : Config) (o : Obj) : Prop :=
  o.(obj_value) = cfg.(startPos) \/ isPointClear cfg o.(obj_value) = true.

Definition startGoalOrClear (cfg : Config) (p : Vec) : Prop :=
  p = cfg.(startPos) \/ p = cfg.(endPos) \/ isPointClear cfg p = true.

(** Every node of [l] has another node of [l] that [scanPredecessor]
    selects: the reconstruction loop has no exit from [l]. *)
Definition everyNodeHasPredecessor (cfg : Config) (l : list Obj) : bool :=
  forallb
    (fun current =>
       match scanPredecessor cfg l current None with
       | Some (Some _) => true
       | _ => false
       end) l.

(** Following the words of the specification: the key "rounding each
    coordinate to the nearest [gridStep]". *)
Definition getNodeKey_nearest_gridStep (cfg : Config) (pos : Vec) : NodeKey num :=
  let precision := cfg.(gridSize) in
  {| kx := num_round (pos.(x) / precision) * precision;
     ky := num_round (pos.(y) / precision) * precision;
     kz := num_round (pos.(z) / precision) * precision |}.

End Planning.

(** ** Exact rational arithmetic

    The numbers are the rationals and [Math.sqrt] is any function [sqrtQ];
    there is no NaN and no infinity, every loop bound is finite, and a
    quotient by zero is 0, so a statement over this instance is only made
    where every divisor it depends on is positive. *)

Module Ideal.
Local Open Scope Q_scope.

Definition Q_number (sqrtQ : Q -> Q) : Number Q := {|
  num_of_Z := inject_Z;
  num_add := Qplus;
  num_sub := Qminus;
  num_mul := Qmult;
  num_div := Qdiv;
  num_opp := Qopp;
  num_sqrt := sqrtQ;
  num_floor := fun a => inject_Z (Qfloor a);
  num_ceil := fun a => inject_Z (Qceiling a);
  num_round := fun a => inject_Z (Qfloor (a + (1 # 2)));
  num_max := fun a b => if Qle_bool a b then b else a;
  num_ltb := fun a b => negb (Qle_bool b a);
  num_leb := Qle_bool;
  num_lt_infinity := fun _ => true;
  num_bound_le := fun b => Some (Z.to_nat (Qfloor b + 1));
  num_bound_lt := fun b => Some (Z.to_nat (Qceiling b));
  num_str_eqb := Qeq_bool
|}.

(** A computable square root, exact on squares of integers: the integer
    square root of the numerator times the denominator, over the
    denominator. *)
Definition Qsqrt_floor (a : Q) : Q :=
  Z.sqrt (Qnum a * Z.pos (Qden a)) # Qden a.

(** max(100, floor(totalTime * 10)), as an integer. *)
Definition sampleCountZ (totalTime : Q) : Z :=
  Z.max 100 (Qfloor (totalTime * 10)).

(** Equality of two positions [[x, y, z]] as rational numbers. *)
Definition sameTriple (a b : Q * Q * Q) : Prop :=
  fst (fst a) == fst (fst b) /\ snd (fst a) == snd (fst b) /\ snd a == snd b.

End Ideal.

(** ** The scenarios, on IEEE doubles *)

Module Scenarios.
Import PrimFloat JSFloat.
Local Open Scope float_scope.

Definition vec (a b c : float) : Vector3 float := mkVector3 a b c.

(** The configuration of the test "RRT - should find a path from start to
    end" of [PathPlanner.test.ts]. *)
Definition rrt_test_config : PathPlanningConfig float :=
  mkConfig (vec 0 0 0) (vec 10 0 10) [] 2 1 200.

(** An oracle whose every draw is 1/16: below 0.1, so each sample is the goal. *)
Definition biased_random : nat -> float := fun _ => 0.0625.

(** An oracle that cycles through 0, 1/16, ..., 15/16. *)
Definition cycling_random : nat -> float :=
  fun k => of_Z (Z.of_nat (k mod 16)) / 16.

Definition rrt_test_start : RRTState :=
  mkRRTState [startObj rrt_test_config] 2 0.

(** The states after the first and the second iteration of that run. *)
Definition rrt_test_state1 : RRTState :=
  Eval vm_compute in
    match rrtIteration rrt_test_config biased_random rrt_test_start with
    | Some (inl st) => st
    | _ => rrt_test_start
    end.

Definition rrt_test_state2 : RRTState :=
  Eval vm_compute in
    match rrtIteration rrt_test_config biased_random rrt_test_state1 with
    | Some (inl st) => st
    | _ => rrt_test_start
    end.

(** The third iteration reaches the goal: the state and the new node. *)
Definition rrt_test_found : RRTState * Obj :=
  Eval vm_compute in
    match rrtIteration rrt_test_config biased_random rrt_test_state2 with
    | Some (inr found) => found
    | _ => (rrt_test_start, startObj rrt_test_config)
    end.

(** The obstacle of the test "A* - should avoid obstacles", with a start
    one unit from its centre. *)
Definition blocking_obstacle : Obstacle float := mkObstacle (vec 10 0 0) 3.

Definition blocked_start_config : PathPlanningConfig float :=
  mkConfig (vec 9 0 0) (vec 20 0 0) [blocking_obstacle] 2 1 500.

(** An obstacle far from the straight line from start to goal. *)
Definition far_obstacle : Obstacle float := mkObstacle (vec 3 20 0) 1.

Definition far_obstacle_config : PathPlanningConfig float :=
  mkConfig (vec 0 0 0) (vec 6 0 0) [far_obstacle] 2 1 100.

Definition far_obstacle_plan : AStarResult float :=
  Eval vm_compute in
    match plan far_obstacle_config newAStarPlanner with
    | Some r => r
    | None => mkAStarResult [] newAStarPlanner 0
    end.

(** No obstacle, a goal 50 grid steps away, 10 iterations allowed. *)
Definition short_budget_config : PathPlanningConfig float :=
  mkConfig (vec 0 0 0) (vec 100 0 0) [] 2 1 10.

(** No obstacle, one iteration allowed. *)
Definition one_iteration_config : PathPlanningConfig float :=
  mkConfig (vec 0 0 0) (vec 5 0 0) [] 2 1 1.

(** The start node of that configuration, and a planner that has recorded
    a node of cost 1 at (2, 0, 0). *)
Definition start_node : PathNode float :=
  mkPathNode (vec 0 0 0) 0 5 None.

Definition recorded_node : PathNode float :=
  mkPathNode (vec 2 0 0) 1 3 None.

Definition recorded_state : AStarPlanner float :=
  {| openSet := [recorded_node];
     closedSet := [];
     nodeMap := [(getNodeKey (vec 2 0 0), recorded_node)] |}.

(** Grid steps of a quarter and of five units. *)
Definition quarter_grid_config : PathPlanningConfig float :=
  mkConfig (vec 0 0 0) (vec 3 0 0) [] 0.25 1 100.

Definition five_grid_config : PathPlanningConfig float :=
  mkConfig (vec 0 0 0) (vec 30 0 0) [] 5 1 100.

(** The configuration [DroneSimulatorV2.planPath] builds, for a start
    that is also the goal. *)
Definition same_point_config : PathPlanningConfig float :=
  mkConfig (vec 1 2 3) (vec 1 2 3) [] 5 2 1000.

(** [planPath] followed by [generateTrajectoryFromPath]. *)
Definition planAndResample (cfg : PathPlanningConfig float) (speed : float)
  : option (list (TrajectoryPoint (num := float))) :=
  do r <- plan cfg newAStarPlanner ;
  do smoothed <- smoothPath r.(astar_path) 20 ;
  generateTrajectoryFromPath smoothed speed.

(** Exact arithmetic with the computable square root, and a path of
    length 5. *)
Definition exact_number : Number Q := Ideal.Q_number Ideal.Qsqrt_floor.

Definition straight_path : list (Vector3 Q) :=
  [mkVector3 0 0 0; mkVector3 3 4 0]%Q.

(** [2^1023], a finite double whose double is infinite. *)
Definition huge : float := of_Z (2 ^ 1023).

End Scenarios.

(** ** Predicates on the search of the grid planner *)

Section SearchPredicates.
Context {num : Type} {NUM : Number num}.
Local Open Scope num_scope.

Local Abbreviation Vec := (Vector3 num).
Local Abbreviation Config := (PathPlanningConfig num).
Local Abbreviation Node := (PathNode num).

(** The node that [plan] builds for a position returned by
    [getNeighbors(current)]. *)
Definition childNode (cfg : Config) (current : Node) (neighborPos : Vec) : Node :=
  {| node_position := neighborPos;
     node_g := current.(node_g) + distance current.(node_position) neighborPos;
     node_h := distance neighborPos cfg.(endPos);
     node_parent := Some current |}.

(** A property of nodes holds of every node of the open and closed sets. *)
Definition allNodes (good : Node -> Prop) (st : AStarPlanner num) : Prop :=
  Forall good st.(openSet) /\ Forall good st.(closedSet).

(** The result [r] was returned from the success branch, for the node
    [current] of the open set. *)
Definition reachedFrom (cfg : Config) (r : AStarResult num) (current : Node) : Prop :=
  In current r.(astar_state).(openSet)
  /\ (distance current.(node_position) cfg.(endPos) <? cfg.(gridSize) * lit 2) = true
  /\ isPathClear cfg current.(node_position) cfg.(endPos) = Some true
  /\ r.(astar_path) = reconstructPath current ++ [cfg.(endPos)].

(** The three ways [plan] ends once the search has started: the detour of
    [getAlternativePath], the direct segment found clear when the open set
    was empty, or the success branch. *)
Definition searchOutcome (cfg : Config) (r : AStarResult num) : Prop :=
  getAlternativePath cfg = Some r.(astar_path)
  \/ (r.(astar_path) = [cfg.(startPos); cfg.(endPos)]
      /\ isPathClear cfg cfg.(startPos) cfg.(endPos) = Some true)
  \/ exists current, reachedFrom cfg r current.

(** Every two consecutive points of a path have passed [isPathClear], in
    the direction of travel. *)
Fixpoint segmentsChecked (cfg : Config) (path : list Vec) : Prop :=
  match path with
  | a :: (b :: _) as rest =>
      isPathClear cfg a b = Some true /\ segmentsChecked cfg rest
  | _ => True
  end.

(** Every link of the parent chain has passed [isPathClear], from the
    parent to the child. *)
Fixpoint linked (cfg : Config) (node : Node) : Prop :=
  match node.(node_parent) with
  | Some parent =>
      isPathClear cfg parent.(node_position) node.(node_position) = Some true
      /\ linked cfg parent
  | None => True
  end.

(** The altitude test of [getNeighbors]: [y >= 0 && y <= 100]. *)
Definition inBand (p : Vec) : bool :=
  (p.(y) >=? lit 0) && (p.(y) <=? lit 100).

(** Every node of the chain but its root is in the altitude band, and the
    root is at the start. *)
Fixpoint chainInBand (cfg : Config) (node : Node) : Prop :=
  match node.(node_parent) with
  | Some parent => inBand node.(node_position) = true /\ chainInBand cfg parent
  | None => node.(node_position) = cfg.(startPos)
  end.

(** The length of a path as the search accumulates it: the lengths of the
    segments added one after the other, from the first segment on. *)
Fixpoint pathCost_from (prev : Vec) (rest : list Vec) (total : num) : num :=
  match rest with
  | [] => total
  | p :: rest' => pathCost_from p rest' (total + distance prev p)
  end.

Definition pathCost (path : list Vec) : num :=
  match path with
  | [] => lit 0
  | first :: rest => pathCost_from first rest (lit 0)
  end.

(** The bookkeeping of [g] and [h] along a parent chain. *)
Fixpoint costConsistent (cfg : Config) (node : Node) : Prop :=
  node.(node_h) = distance node.(node_position) cfg.(endPos)
  /\ match node.(node_parent) with
     | Some parent =>
         node.(node_g)
         = parent.(node_g) + distance parent.(node_position) node.(node_position)
         /\ costConsistent cfg parent
     | None => node.(node_g) = lit 0
     end.

End SearchPredicates.

(** ** DroneSimulatorV2: the scene and the planning entry point *)

(** The parameter [algorithm] of [planPath]. *)
Inductive Algorithm : Type := astar | rrt.

Section Simulator.
Context {num : Type} {NUM : Number num}.
Local Open Scope num_scope.

Local Abbreviation Vec := (Vector3 num).

(** An entry of the array [buildings] of [addBuildings]. *)
Record Building : Type := mkBuilding {
  building_x : num;
  building_z : num;
  width : num;
  depth : num;
  height : num
}.

Definition buildings : list Building :=
  [ mkBuilding (lit (-50)) (lit (-50)) (lit 20) (lit 20) (lit 30);
    mkBuilding (lit 50) (lit (-50)) (lit 25) (lit 15) (lit 40);
    mkBuilding (lit (-50)) (lit 50) (lit 15) (lit 25) (lit 35);
    mkBuilding (lit 50) (lit 50) (lit 20) (lit 20) (lit 25) ].

(** The obstacle [addBuildings] pushes for a building. *)
Definition buildingObstacle (building : Building) : Obstacle num :=
  {| position := {| x := building.(building_x);
                    y := building.(height) / lit 2;
                    z := building.(building_z) |};
     radius := num_max building.(width) building.(depth) / lit 2 + lit 5 |}.

(** The entries [{ x, z }] of the array [treePositions] of [addTrees]. *)
Definition treePositions : list (num * num) :=
  [ (lit 50, lit 0); (lit (-50), lit 50); (lit 20, lit (-60));
    (lit (-30), lit (-40)); (lit 70, lit (-30)) ].

Definition treeObstacle (tree : num * num) : Obstacle num :=
  {| position := {| x := fst tree; y := lit 25; z := snd tree |};
     radius := lit 15 |}.

(** The field [obstacles] once the constructor has run [addBuildings] and
    then [addTrees]; no method changes it afterwards. *)
Definition sceneObstacles : list (Obstacle num) :=
  map buildingObstacle buildings ++ map treeObstacle treePositions.

(** The configuration [planPath] builds. *)
Definition planPathConfig (obstacles : list (Obstacle num))
    (startPos endPos : num * num * num) : PathPlanningConfig num :=
  {| startPos := {| x := fst (fst startPos); y := snd (fst startPos);
                    z := snd startPos |};
     endPos := {| x := fst (fst endPos); y := snd (fst endPos);
                  z := snd endPos |};
     obstacles := obstacles;
     gridSize := lit 5;
     droneRadius := lit 2;
     maxIterations := 1000 |}.

(** [planPath] on a simulator whose field [obstacles] is [obstacles]: a new
    planner of the chosen class, then [smoothPath(path, 20)].  [random] and
    [fuel] are those of [rrtPlan]. *)
Definition planPath (obstacles : list (Obstacle num))
    (startPos endPos : num * num * num) (algorithm : Algorithm)
    (random : nat -> num) (fuel : nat) : option (list Vec) :=
  let config := planPathConfig obstacles startPos endPos in
  do path <-
     match algorithm with
     | rrt => rrtPlan config random fuel
     | astar => option_map (@astar_path num) (plan config newAStarPlanner)
     end ;
  smoothPath path (lit 20).

End Simulator.

(** ** DroneSimulatorV2: the state, the trajectory and the camera *)

(** The operations of [Math] that the simulator, the first version of the
    planners and the trajectory generator use besides those of [Number].
    [Math.sin] and [Math.cos] are given by the engine. *)
Class MathLib (num : Type) : Type := {
  math_min : num -> num -> num;
  math_abs : num -> num;
  math_sin : num -> num;
  math_cos : num -> num;
  math_PI : num
}.

Inductive ViewMode : Type := free | top | side | follow | isometric.

Inductive Status : Type := idle | flying | paused.

(** A property of a [Partial<DroneState>] argument: absent, present with
    the value [undefined], or present with a value. *)
Inductive Field (A : Type) : Type :=
| absent
| undefinedValue
| present (a : A).

Arguments absent {A}.
Arguments undefinedValue {A}.
Arguments present {A} a.

Module DroneSimulatorV2.

Section State.
Context {num : Type} {NUM : Number num} {MATH : MathLib num}.
Local Open Scope num_scope.

(** An array [[a, b, c]] of three numbers. *)
Definition Triple : Type := (num * num * num)%type.

(** The object [droneState]; [None] is the value [undefined], which a
    property can take from a [Partial<DroneState>]. *)
Record DroneState : Type := mkDroneState {
  position : option Triple;
  rotation : option Triple;
  velocity : option Triple;
  battery : option num;
  status : option Status
}.

Record PartialDroneState : Type := mkPartialDroneState {
  p_position : Field Triple;
  p_rotation : Field Triple;
  p_velocity : Field Triple;
  p_battery : Field num;
  p_status : Field Status
}.

(** One property of [{ ...a, ...b }]. *)
Definition spreadField {A : Type} (a : option A) (b : Field A) : option A :=
  match b with
  | absent => a
  | undefinedValue => None
  | present v => Some v
  end.

(** [{ ...this.droneState, ...state }] *)
Definition spread (a : DroneState) (b : PartialDroneState) : DroneState :=
  {| position := spreadField a.(position) b.(p_position);
     rotation := spreadField a.(rotation) b.(p_rotation);
     velocity := spreadField a.(velocity) b.(p_velocity);
     battery := spreadField a.(battery) b.(p_battery);
     status := spreadField a.(status) b.(p_status) |}.

(** [{ ...a, ...b }] on two partial states. *)
Definition spreadPartialField {A : Type} (a b : Field A) : Field A :=
  match b with
  | absent => a
  | _ => b
  end.

Definition spreadPartial (a b : PartialDroneState) : PartialDroneState :=
  {| p_position := spreadPartialField a.(p_position) b.(p_position);
     p_rotation := spreadPartialField a.(p_rotation) b.(p_rotation);
     p_velocity := spreadPartialField a.(p_velocity) b.(p_velocity);
     p_battery := spreadPartialField a.(p_battery) b.(p_battery);
     p_status := spreadPartialField a.(p_status) b.(p_status) |}.

(** Arrays of trajectory points are objects of the store; a reference to
    one is its index.  The caller of [setTrajectory] and the simulator
    hold references to the same array. *)
Definition Store : Type := list (list (TrajectoryPoint (num := num))).

Definition readArray (store : Store) (ref : nat)
  : list (TrajectoryPoint (num := num)) :=
  nth ref store [].

(** [array.push(point)] on the array at [ref]. *)
Fixpoint pushAt (store : Store) (ref : nat) (point : TrajectoryPoint (num := num))
  : Store :=
  match store, ref with
  | [], _ => []
  | array :: store', O => (array ++ [point]) :: store'
  | array :: store', S ref' => array :: pushAt store' ref' point
  end.

(** The fields of a [DroneSimulatorV2] that its methods and handlers read
    and write.  [dronePosition] and [droneRotation] are [drone.position]
    and [drone.rotation], [cameraPosition] is [camera.position];
    [trajectoryLine] is the array [positions] from which the line that is
    in the scene was built, [None] for [null]. *)
Record Simulator : Type := mkSimulator {
  droneState : DroneState;
  dronePosition : Triple;
  droneRotation : Triple;
  cameraPosition : Triple;
  viewMode : ViewMode;
  trajectoryPoints : nat;
  trajectoryLine : option (list num);
  mouseDown : bool;
  mouseX : num;
  mouseY : num;
  targetRotationX : num;
  targetRotationY : num;
  rotationX : num;
  rotationY : num;
  distance : num;
  targetDistance : num;
  panX : num;
  panY : num;
  targetPanX : num;
  targetPanY : num
}.

(** The field [cameraTarget], which nothing assigns after its
    initialisation. *)
Definition cameraTarget : Triple := (lit 0, lit 0, lit 0).

(** *** The drone state *)

(** [setDroneState]: the new simulator, and whether the call completed
    ([false]: reading [position[0]] or [rotation[0]] of [undefined] threw,
    after the assignments made before it). *)
Definition setDroneState (state : PartialDroneState) (sim : Simulator)
  : Simulator * bool :=
  let merged := spread sim.(droneState) state in
  let sim1 :=
    mkSimulator merged sim.(dronePosition) sim.(droneRotation)
      sim.(cameraPosition) sim.(viewMode) sim.(trajectoryPoints)
      sim.(trajectoryLine) sim.(mouseDown) sim.(mouseX) sim.(mouseY)
      sim.(targetRotationX) sim.(targetRotationY) sim.(rotationX)
      sim.(rotationY) sim.(distance) sim.(targetDistance) sim.(panX)
      sim.(panY) sim.(targetPanX) sim.(targetPanY) in
  match merged.(position) with
  | None => (sim1, false)
  | Some p =>
      let sim2 :=
        mkSimulator merged p sim.(droneRotation)
          sim.(cameraPosition) sim.(viewMode) sim.(trajectoryPoints)
          sim.(trajectoryLine) sim.(mouseDown) sim.(mouseX) sim.(mouseY)
          sim.(targetRotationX) sim.(targetRotationY) sim.(rotationX)
          sim.(rotationY) sim.(distance) sim.(targetDistance) sim.(panX)
          sim.(panY) sim.(targetPanX) sim.(targetPanY) in
      match merged.(rotation) with
      | None => (sim2, false)
      | Some r =>
          (mkSimulator merged p r
             sim.(cameraPosition) sim.(viewMode) sim.(trajectoryPoints)
             sim.(trajectoryLine) sim.(mouseDown) sim.(mouseX) sim.(mouseY)
             sim.(targetRotationX) sim.(targetRotationY) sim.(rotationX)
             sim.(rotationY) sim.(distance) sim.(targetDistance) sim.(panX)
             sim.(panY) sim.(targetPanX) sim.(targetPanY), true)
      end
  end.

Definition getDroneState (sim : Simulator) : DroneState := sim.(droneState).

(** *** The trajectory *)

Definition withTrajectory (sim : Simulator) (ref : nat) (line : option (list num))
  : Simulator :=
  mkSimulator sim.(droneState) sim.(dronePosition) sim.(droneRotation)
    sim.(cameraPosition) sim.(viewMode) ref line
    sim.(mouseDown) sim.(mouseX) sim.(mouseY)
    sim.(targetRotationX) sim.(targetRotationY) sim.(rotationX)
    sim.(rotationY) sim.(distance) sim.(targetDistance) sim.(panX)
    sim.(panY) sim.(targetPanX) sim.(targetPanY).

(** The array [positions] of [updateTrajectoryVisualization]. *)
Definition linePositions (points : list (TrajectoryPoint (num := num))) : list num :=
  flat_map (fun point =>
              let '(px, py, pz) := point.(tp_position) in [px; py; pz])
           points.

Definition updateTrajectoryVisualization (store : Store) (sim : Simulator)
  : Simulator :=
  withTrajectory sim sim.(trajectoryPoints)
    (Some (linePositions (readArray store sim.(trajectoryPoints)))).

Definition setTrajectory (points : nat) (store : Store) (sim : Simulator)
  : Store * Simulator :=
  (store,
   updateTrajectoryVisualization store
     (withTrajectory sim points sim.(trajectoryLine))).

Definition addTrajectoryPoint (point : TrajectoryPoint (num := num))
    (store : Store) (sim : Simulator) : Store * Simulator :=
  let store' := pushAt store sim.(trajectoryPoints) point in
  (store', updateTrajectoryVisualization store' sim).

Definition getTrajectoryPoints (sim : Simulator) : nat := sim.(trajectoryPoints).

(** [this.trajectoryPoints = []] allocates a new array. *)
Definition clearTrajectory (store : Store) (sim : Simulator) : Store * Simulator :=
  (store ++ [[]], withTrajectory sim (length store) None).

(** *** The camera *)

Definition withCamera (sim : Simulator) (camera : Triple) : Simulator :=
  mkSimulator sim.(droneState) sim.(dronePosition) sim.(droneRotation)
    camera sim.(viewMode) sim.(trajectoryPoints) sim.(trajectoryLine)
    sim.(mouseDown) sim.(mouseX) sim.(mouseY)
    sim.(targetRotationX) sim.(targetRotationY) sim.(rotationX)
    sim.(rotationY) sim.(distance) sim.(targetDistance) sim.(panX)
    sim.(panY) sim.(targetPanX) sim.(targetPanY).

(** The literal [0.7]. *)
Definition sevenTenths : num := lit 7 / lit 10.

Definition updateCameraPosition (sim : Simulator) : Simulator :=
  let '(dx, dy, dz) := sim.(dronePosition) in
  let distance := lit 50 in
  match sim.(viewMode) with
  | top => withCamera sim (dx, dy + distance, dz)
  | side => withCamera sim (dx + distance, dy, dz)
  | follow => withCamera sim (dx - lit 30, dy + lit 20, dz - lit 30)
  | isometric =>
      withCamera sim (dx + distance * sevenTenths,
                      dy + distance * sevenTenths,
                      dz + distance * sevenTenths)
  | free => sim
  end.

Definition setViewMode (mode : ViewMode) (sim : Simulator) : Simulator :=
  let sim1 :=
    mkSimulator sim.(droneState) sim.(dronePosition) sim.(droneRotation)
      sim.(cameraPosition) mode sim.(trajectoryPoints) sim.(trajectoryLine)
      sim.(mouseDown) sim.(mouseX) sim.(mouseY)
      sim.(targetRotationX) sim.(targetRotationY) sim.(rotationX)
      sim.(rotationY) sim.(distance) sim.(targetDistance) sim.(panX)
      sim.(panY) sim.(targetPanX) sim.(targetPanY) in
  match mode with
  | free => sim1
  | _ => updateCameraPosition sim1
  end.

(** [v += (target - v) * 0.1] *)
Definition approach (v target : num) : num := v + (target - v) * tenth.

Definition updateFreeCamera (sim : Simulator) : Simulator :=
  let rotationX' := approach sim.(rotationX) sim.(targetRotationX) in
  let rotationY' := approach sim.(rotationY) sim.(targetRotationY) in
  let distance' := approach sim.(distance) sim.(targetDistance) in
  let panX' := approach sim.(panX) sim.(targetPanX) in
  let panY' := approach sim.(panY) sim.(targetPanY) in
  let '(tx, ty, tz) := cameraTarget in
  let cx := math_sin rotationY' * math_cos rotationX' * distance' + tx + panX' in
  let cy := math_sin rotationX' * distance' + ty + panY' in
  let cz := math_cos rotationY' * math_cos rotationX' * distance' + tz in
  mkSimulator sim.(droneState) sim.(dronePosition) sim.(droneRotation)
    (cx, cy, cz) sim.(viewMode) sim.(trajectoryPoints) sim.(trajectoryLine)
    sim.(mouseDown) sim.(mouseX) sim.(mouseY)
    sim.(targetRotationX) sim.(targetRotationY) rotationX'
    rotationY' distance' sim.(targetDistance) panX'
    panY' sim.(targetPanX) sim.(targetPanY).

(** One frame of [animate], the rendering apart. *)
Definition animate (sim : Simulator) : Simulator :=
  match sim.(viewMode) with
  | free => updateFreeCamera sim
  | follow => updateCameraPosition sim
  | _ => sim
  end.

(** *** The mouse handlers of [setupMouseControls] *)

Definition withMouse (sim : Simulator) (down : bool) (mx my : num) : Simulator :=
  mkSimulator sim.(droneState) sim.(dronePosition) sim.(droneRotation)
    sim.(cameraPosition) sim.(viewMode) sim.(trajectoryPoints)
    sim.(trajectoryLine) down mx my
    sim.(targetRotationX) sim.(targetRotationY) sim.(rotationX)
    sim.(rotationY) sim.(distance) sim.(targetDistance) sim.(panX)
    sim.(panY) sim.(targetPanX) sim.(targetPanY).

Definition withTargets (sim : Simulator) (rx ry dist px py : num) : Simulator :=
  mkSimulator sim.(droneState) sim.(dronePosition) sim.(droneRotation)
    sim.(cameraPosition) sim.(viewMode) sim.(trajectoryPoints)
    sim.(trajectoryLine) sim.(mouseDown) sim.(mouseX) sim.(mouseY)
    rx ry sim.(rotationX)
    sim.(rotationY) sim.(distance) dist sim.(panX)
    sim.(panY) px py.

Definition onMouseDown (clientX clientY : num) (sim : Simulator) : Simulator :=
  withMouse sim true clientX clientY.

(** The literal [0.005]. *)
Definition fiveThousandths : num := lit 5 / lit 1000.

Definition onMouseMove (clientX clientY : num) (buttons : nat) (sim : Simulator)
  : Simulator :=
  match sim.(mouseDown), sim.(viewMode) with
  | true, free =>
      let deltaX := clientX - sim.(mouseX) in
      let deltaY := clientY - sim.(mouseY) in
      let sim1 :=
        match buttons with
        | 1 =>
            let ry := sim.(targetRotationY) + deltaX * fiveThousandths in
            let rx := sim.(targetRotationX) + deltaY * fiveThousandths in
            let rx' :=
              num_max (- math_PI / lit 2) (math_min (math_PI / lit 2) rx) in
            withTargets sim rx' ry sim.(targetDistance)
              sim.(targetPanX) sim.(targetPanY)
        | 4 =>
            withTargets sim sim.(targetRotationX) sim.(targetRotationY)
              sim.(targetDistance)
              (sim.(targetPanX) - deltaX * tenth)
              (sim.(targetPanY) + deltaY * tenth)
        | _ => sim
        end in
      withMouse sim1 sim1.(mouseDown) clientX clientY
  | _, _ => sim
  end.

Definition onMouseUp (sim : Simulator) : Simulator :=
  withMouse sim false sim.(mouseX) sim.(mouseY).

Definition onMouseLeave (sim : Simulator) : Simulator :=
  withMouse sim false sim.(mouseX) sim.(mouseY).

(** The literal [0.01]. *)
Definition hundredth : num := lit 1 / lit 100.

Definition onWheel (deltaY : num) (sim : Simulator) : Simulator :=
  let zoomSpeed := lit 2 in
  let scaled :=
    if lit 0 <? deltaY
    then sim.(targetDistance) * (lit 1 + zoomSpeed * hundredth)
    else sim.(targetDistance) / (lit 1 + zoomSpeed * hundredth) in
  withTargets sim sim.(targetRotationX) sim.(targetRotationY)
    (num_max (lit 10) (math_min (lit 200) scaled))
    sim.(targetPanX) sim.(targetPanY).

(** *** The constructor *)

(** The fields as the initialisers and the constructor set them, before
    the first call of [animate]; the array of [trajectoryPoints] is the
    one at [ref] in the store. *)
Definition initialFields (ref : nat) : Simulator :=
  {| droneState :=
       {| position := Some (lit 0, lit 0, lit 0);
          rotation := Some (lit 0, lit 0, lit 0);
          velocity := Some (lit 0, lit 0, lit 0);
          battery := Some (lit 100);
          status := Some idle |};
     dronePosition := (lit 0, lit 0, lit 0);
     droneRotation := (lit 0, lit 0, lit 0);
     cameraPosition := (lit 50, lit 50, lit 50);
     viewMode := free;
     trajectoryPoints := ref;
     trajectoryLine := None;
     mouseDown := false;
     mouseX := lit 0;
     mouseY := lit 0;
     targetRotationX := lit 0;
     targetRotationY := lit 0;
     rotationX := lit 0;
     rotationY := lit 0;
     distance := lit 80;
     targetDistance := lit 80;
     panX := lit 0;
     panY := lit 0;
     targetPanX := lit 0;
     targetPanY := lit 0 |}.

(** [new DroneSimulatorV2(canvas)]: a new empty array for the trajectory,
    the fields, and the first frame that the constructor runs. *)
Definition newSimulator (store : Store) : Store * Simulator :=
  (store ++ [[]], animate (initialFields (length store))).

(** *** Events *)

(** What can happen to a simulator after its construction: a frame, a
    mouse event or a call of a method of the camera and the drone state. *)
Inductive Event : Type :=
| Frame
| MouseDown (clientX clientY : num)
| MouseMove (clientX clientY : num) (buttons : nat)
| MouseUp
| MouseLeave
| Wheel (deltaY : num)
| SetViewMode (mode : ViewMode)
| SetDroneState (state : PartialDroneState).

Definition handle (sim : Simulator) (event : Event) : Simulator :=
  match event with
  | Frame => animate sim
  | MouseDown cx cy => onMouseDown cx cy sim
  | MouseMove cx cy buttons => onMouseMove cx cy buttons sim
  | MouseUp => onMouseUp sim
  | MouseLeave => onMouseLeave sim
  | Wheel deltaY => onWheel deltaY sim
  | SetViewMode mode => setViewMode mode sim
  | SetDroneState state => fst (setDroneState state sim)
  end.

Definition run (events : list Event) (sim : Simulator) : Simulator :=
  fold_left handle events sim.

End State.

End DroneSimulatorV2.

(** [Math.min] and [Math.PI] on doubles; [Math.sin] and [Math.cos] are
    those of the engine. *)
Module JSMath.
Import PrimFloat.

(** NaN when an argument is NaN, and [-0] below [+0]. *)
Definition min (a b : float) : float :=
  if is_nan a || is_nan b then nan
  else if ltb a b then a
  else if ltb b a then b
  else if is_zero a && get_sign a then a else b.

Definition PI : float := 0x1.921fb54442d18p+1%float.

Definition float_math (sin cos : float -> float) : MathLib float :=
  {| math_min := min; math_abs := abs;
     math_sin := sin; math_cos := cos; math_PI := PI |}.

End JSMath.

Module IdealMath.
Local Open Scope Q_scope.

(** Exact arithmetic, with any functions for the sine and the cosine and
    any number for [Math.PI]. *)
Definition Q_math (sinQ cosQ : Q -> Q) (piQ : Q) : MathLib Q :=
  {| math_min := fun a b => if Qle_bool a b then a else b;
     math_abs := Qabs;
     math_sin := sinQ;
     math_cos := cosQ;
     math_PI := piQ |}.

End IdealMath.

(** A list of events without a call of [setViewMode]. *)
Definition noViewChange {num : Type} (events : list (DroneSimulatorV2.Event (num := num)))
  : bool :=
  forallb (fun event =>
             match event with
             | DroneSimulatorV2.SetViewMode _ => false
             | _ => true
             end) events.

(** The ranges in which the free camera is kept, in exact arithmetic. *)
Definition cameraInRange (piQ : Q) (sim : DroneSimulatorV2.Simulator (num := Q))
  : Prop :=
  (10 <= sim.(DroneSimulatorV2.targetDistance) <= 200
   /\ 10 <= sim.(DroneSimulatorV2.distance) <= 200
   /\ - piQ / 2 <= sim.(DroneSimulatorV2.targetRotationX) <= piQ / 2
   /\ - piQ / 2 <= sim.(DroneSimulatorV2.rotationX) <= piQ / 2)%Q.

(** ** The tree of the tree planner in exact arithmetic *)

Module IdealTree.
Local Open Scope Q_scope.

(** Two positions with equal coordinates, as rational numbers. *)
Definition sameVector (p q : Vector3 Q) : Prop :=
  p.(x) == q.(x) /\ p.(y) == q.(y) /\ p.(z) == q.(z).

Section WithSqrt.
Variable sqrtQ : Q -> Q.

(** Every node of the tree has another node, a different object, with a
    clear segment to it. *)
Definition connected (cfg : PathPlanningConfig Q) (l : list (Obj (num := Q)))
  : Prop :=
  forall current, In current l ->
    exists node, In node l
      /\ same_object node current = false
      /\ isPathClear (NUM := Ideal.Q_number sqrtQ) cfg node.(obj_value)
           current.(obj_value) = Some true.

(** The objects of the tree: the start has the identity 0, the goal, when
    it is in the tree, the identity 1, and the identities still to be
    given are above those of the tree. *)
Definition identitiesOk (cfg : PathPlanningConfig Q) (st : RRTState (num := Q))
  : Prop :=
  (2 <= st.(next_id))%nat
  /\ forall node, In node st.(nodes) ->
       (node.(obj_id) < st.(next_id))%nat
       /\ (node.(obj_id) = 0%nat -> node = startObj cfg)
       /\ (node.(obj_id) = 1%nat -> node = endObj cfg).

(** The tree is the start alone, or it is connected. *)
Definition treeInvariant (cfg : PathPlanningConfig Q) (st : RRTState (num := Q))
  : Prop :=
  identitiesOk cfg st
  /\ In (startObj cfg) st.(nodes)
  /\ (st.(nodes) = [startObj cfg] \/ connected cfg st.(nodes)).

End WithSqrt.

(** A computable square root that gives equal results on equal rationals:
    [Qsqrt_floor] on the reduced fraction. *)
Definition Qsqrt_floor_red (a : Q) : Q := Ideal.Qsqrt_floor (Qred a).

End IdealTree.

(** ** The first version of [PathPlanner.ts]

    The planners before their revision: a segment test on 11 samples with
    no margin, a grid search without a key map, a tree search in a box of
    the size of the grid step, and a reconstruction of the tree path that
    walks from the start towards the goal. *)

Module FirstVersion.

Section Planning.
Context {num : Type} {NUM : Number num} {MATH : MathLib num}.
Local Open Scope num_scope.

Local Abbreviation Vec := (Vector3 num).
Local Abbreviation Config := (PathPlanningConfig num).
Local Abbreviation Node := (PathNode num).

(** The test of the [if] in [isPathClear]. *)
Definition collides (cfg : Config) (point : Vec) (obstacle : Obstacle num) : bool :=
  distance point obstacle.(position) <? obstacle.(radius) + cfg.(droneRadius).

(** [isPathClear]: the samples [i = 0 .. 10] at [t = i / 10]. *)
Definition isPathClear (cfg : Config) (from to : Vec) : bool :=
  let steps := lit 10 in
  forallb
    (fun i =>
       let t := lit (Z.of_nat i) / steps in
       let point := interpolate from to t in
       forallb (fun obstacle => negb (collides cfg point obstacle)) cfg.(obstacles))
    (seq 0 11).

(** *** AStarPlanner *)

Definition neighborOk (cfg : Config) (pos neighbor : Vec) : bool :=
  isPathClear cfg pos neighbor
  && (neighbor.(y) >=? lit 0)
  && (neighbor.(y) <=? cfg.(gridSize) * lit 10).

Definition getNeighbors (cfg : Config) (node : Node) : list Vec :=
  let step := cfg.(gridSize) in
  filter (neighborOk cfg node.(node_position))
    (map (neighborOf node.(node_position) step) directions).

(** The fields of an [AStarPlanner] instance besides its [config]. *)
Record AStarPlanner : Type := mkAStarPlanner {
  openSet : list Node;
  closedSet : list Node
}.

(** The node pushed for a neighbour of [current]. *)
Definition neighborNode (cfg : Config) (current : Node) (neighborPos : Vec) : Node :=
  {| node_position := neighborPos;
     node_g := current.(node_g) + distance current.(node_position) neighborPos;
     node_h := distance neighborPos cfg.(endPos);
     node_parent := Some current |}.

(** The [for] loop of [plan]: [fuel] iterations remain.  The result is the
    returned array and the fields of the instance. *)
Fixpoint searchLoop (cfg : Config) (fuel : nat) (st : AStarPlanner)
  : list Vec * AStarPlanner :=
  match fuel with
  | O => ([cfg.(startPos); cfg.(endPos)], st)
  | S fuel' =>
      match st.(openSet) with
      | [] => ([cfg.(startPos); cfg.(endPos)], st)
      | _ :: _ =>
          match scanMin st.(openSet) 0 None with
          | None => ([cfg.(startPos); cfg.(endPos)], st)
          | Some (_, current, minIndex) =>
              if distance current.(node_position) cfg.(endPos) <? cfg.(gridSize)
              then (reconstructPath current, st)
              else
                searchLoop cfg fuel'
                  {| openSet :=
                       splice1 minIndex st.(openSet)
                       ++ map (neighborNode cfg current) (getNeighbors cfg current);
                     closedSet := st.(closedSet) ++ [current] |}
          end
      end
  end.

Definition plan (cfg : Config) (st : AStarPlanner) : list Vec * AStarPlanner :=
  let startNode :=
    {| node_position := cfg.(startPos);
       node_g := lit 0;
       node_h := distance cfg.(startPos) cfg.(endPos);
       node_parent := None |} in
  searchLoop cfg cfg.(maxIterations)
    {| openSet := st.(openSet) ++ [startNode]; closedSet := st.(closedSet) |}.

Definition newAStarPlanner : AStarPlanner :=
  {| openSet := []; closedSet := [] |}.

(** *** RRTPlanner *)

(** [a === b] on numbers. *)
Definition strictEq (a b : num) : bool := (a <=? b) && (b <=? a).

(** The literal [1.5]. *)
Definition threeHalves : num := lit 3 / lit 2.

Definition randomPoint (cfg : Config) (random : nat -> num) (calls : nat) : Vec :=
  {| x := random calls * cfg.(gridSize) * lit 2 - cfg.(gridSize);
     y := random (S calls) * cfg.(gridSize) * threeHalves;
     z := random (S (S calls)) * cfg.(gridSize) * lit 2 - cfg.(gridSize) |}.

(** [nearest]: [None] stands for the [TypeError] on an empty [nodes]. *)
Definition nearest (nodes : list Obj) (point : Vec) : option Obj :=
  match nodes with
  | [] => None
  | first :: _ =>
      Some (snd (fold_left
                   (fun (acc : num * Obj) node =>
                      let dist := distance node.(obj_value) point in
                      if dist <? fst acc then (dist, node) else acc)
                   nodes (distance first.(obj_value) point, first)))
  end.

(** [extend]: the object [from] itself when the distance is 0, or a new
    object [fresh]. *)
Definition extend (cfg : Config) (from : Obj) (to : Vec) (fresh : nat) : Obj :=
  let dist := distance from.(obj_value) to in
  let step := math_min cfg.(gridSize) dist in
  if strictEq dist (lit 0) then from
  else
    let dx := (to.(x) - from.(obj_value).(x)) / dist in
    let dy := (to.(y) - from.(obj_value).(y)) / dist in
    let dz := (to.(z) - from.(obj_value).(z)) / dist in
    mkObj fresh
      {| x := from.(obj_value).(x) + dx * step;
         y := from.(obj_value).(y) + dy * step;
         z := from.(obj_value).(z) + dz * step |}.

(** The inner [for] of [reconstructPath]: the node nearest to the goal
    among those with a clear segment from [current]; [minDist] starts at
    [Infinity] ([None] here) with [nearest = current]. *)
Fixpoint scanTowardsGoal (cfg : Config) (l : list Obj) (current : Obj)
    (best : option (num * Obj)) : option (num * Obj) :=
  match l with
  | [] => best
  | node :: l' =>
      let dist := distance node.(obj_value) cfg.(endPos) in
      let smaller :=
        match best with
        | None => num_lt_infinity dist
        | Some (minDist, _) => dist <? minDist
        end in
      scanTowardsGoal cfg l' current
        (if smaller && isPathClear cfg current.(obj_value) node.(obj_value)
         then Some (dist, node) else best)
  end.

(** The [while] loop of [reconstructPath]; [path] is the array so far, in
    reverse.  [None] when the [fuel] runs out. *)
Fixpoint reconstructLoop (cfg : Config) (nodes : list Obj) (fuel : nat)
    (current : Obj) (path : list Vec) : option (list Vec) :=
  match fuel with
  | O => None
  | S fuel' =>
      if cfg.(gridSize) * lit 2 <? distance current.(obj_value) cfg.(endPos)
      then
        match scanTowardsGoal cfg nodes current None with
        | None => Some (rev path ++ [cfg.(endPos)])
        | Some (_, chosen) =>
            if same_object chosen current
            then Some (rev path ++ [cfg.(endPos)])
            else reconstructLoop cfg nodes fuel' chosen (chosen.(obj_value) :: path)
        end
      else Some (rev path ++ [cfg.(endPos)])
  end.

Definition rrtReconstructPath (cfg : Config) (nodes : list Obj) (fuel : nat)
  : option (list Vec) :=
  reconstructLoop cfg nodes fuel (startObj cfg) [cfg.(startPos)].

(** The state of a run of [RRTPlanner.plan]. *)
Fixpoint rrtLoop (cfg : Config) (random : nat -> num) (iterations : nat)
    (st : RRTState) : option (RRTState * bool) :=
  match iterations with
  | O => Some (st, false)
  | S iterations' =>
      let point := randomPoint cfg random st.(random_calls) in
      let calls' := (st.(random_calls) + 3)%nat in
      do from <- nearest st.(nodes) point ;
      let newPoint := extend cfg from point st.(next_id) in
      let next' := S st.(next_id) in
      if isPathClear cfg from.(obj_value) newPoint.(obj_value) then
        let st' := mkRRTState (st.(nodes) ++ [newPoint]) next' calls' in
        if distance newPoint.(obj_value) cfg.(endPos) <? cfg.(gridSize) * lit 2
        then Some (st', true)
        else rrtLoop cfg random iterations' st'
      else rrtLoop cfg random iterations' (mkRRTState st.(nodes) next' calls')
  end.

(** [RRTPlanner.plan]: the loop, then [reconstructPath] when a node came
    near the goal, [[start; goal]] otherwise. *)
Definition rrtPlan (cfg : Config) (random : nat -> num) (fuel : nat)
  : option (list Vec) :=
  do r <- rrtLoop cfg random cfg.(maxIterations) (mkRRTState [startObj cfg] 2 0) ;
  if snd r then rrtReconstructPath cfg (fst r).(nodes) fuel
  else Some [cfg.(startPos); cfg.(endPos)].

(** *** Predicates of the facts on the first version *)

(** Every link of the parent chain has passed the segment test, and every
    node but the root the altitude test of [getNeighbors]. *)
Fixpoint chainChecked (cfg : Config) (node : Node) : Prop :=
  match node.(node_parent) with
  | Some parent =>
      isPathClear cfg parent.(node_position) node.(node_position) = true
      /\ (node.(node_position).(y) >=? lit 0) = true
      /\ (node.(node_position).(y) <=? cfg.(gridSize) * lit 10) = true
      /\ chainChecked cfg parent
  | None => node.(node_position) = cfg.(startPos)
  end.

(** Every two consecutive points of a path have passed the segment test. *)
Fixpoint segmentsClear (cfg : Config) (path : list Vec) : Prop :=
  match path with
  | a :: (b :: _) as rest => isPathClear cfg a b = true /\ segmentsClear cfg rest
  | _ => True
  end.

End Planning.

End FirstVersion.

(** ** AlgorithmParser: the generated trajectory *)

Module AlgorithmParser.

Section Generation.
Context {num : Type} {NUM : Number num} {MATH : MathLib num}.
Local Open Scope num_scope.

(** The numeric properties of an [AlgorithmConfig]; [generateTrajectory]
    reads [initialPosition] and [maxSpeed]. *)
Record AlgorithmConfig : Type := mkAlgorithmConfig {
  initialPosition : num * num * num;
  initialVelocity : num * num * num;
  maxAltitude : num;
  maxSpeed : num;
  windSpeed : num * num * num;
  gravity : num
}.

(** The body of the loop of [generateTrajectory] for the index [i]. *)
Definition generatedPoint (config : AlgorithmConfig) (i : nat)
  : TrajectoryPoint (num := num) :=
  let duration := lit 50 in
  let points := lit 500 in
  let t := lit (Z.of_nat i) / points * duration in
  let progress := lit (Z.of_nat i) / points in
  let radius := lit 30 * (lit 1 - math_abs (progress - half) * lit 2) in
  let height :=
    snd (fst config.(initialPosition)) + math_sin (progress * math_PI) * lit 40 in
  let angle := progress * math_PI * lit 4 in
  let px := fst (fst config.(initialPosition)) + math_cos angle * radius in
  let py := num_max (lit 0) height in
  let pz := snd config.(initialPosition) + math_sin angle * radius in
  let velocity :=
    config.(maxSpeed) * (half + half * math_sin (progress * math_PI)) in
  let velocity := math_min velocity config.(maxSpeed) in
  {| tp_position := (px, py, pz); timestamp := t; velocity := velocity |}.

(** [generateTrajectory]: the 500 points of the indices 0 to 499. *)
Definition generateTrajectory (config : AlgorithmConfig)
  : list (TrajectoryPoint (num := num)) :=
  map (generatedPoint config) (seq 0 500).

End Generation.

End AlgorithmParser.

(** ** Further scenarios *)

Module Examples.
Import PrimFloat JSFloat Scenarios.
Local Open Scope float_scope.

(** A node of the open set that the search of [far_obstacle_config]
    leaves: a neighbour of the start. *)
Definition far_obstacle_open_node : PathNode float :=
  Eval vm_compute in
    nth 3 far_obstacle_plan.(astar_state).(openSet) start_node.

(** [planPath([0, 0, 0], [10, 0, 0])] in the scene of the constructor. *)
Definition scene_short_path : list (Vector3 float) :=
  Eval vm_compute in
    match planPath sceneObstacles (0, 0, 0) (10, 0, 0) astar biased_random 0 with
    | Some out => out
    | None => []
    end.

(** A path of length 5. *)
Definition five_long_path : list (Vector3 float) := [vec 0 0 0; vec 3 4 0].

(** In exact arithmetic: an open set whose second and third nodes have the
    least [f], a tree of three nodes, and a configuration. *)
Definition exact_origin : Vector3 Q := mkVector3 0%Q 0%Q 0%Q.

Definition exact_open_set : list (PathNode Q) :=
  [ mkPathNode exact_origin 1%Q 3%Q None;
    mkPathNode exact_origin 0%Q (5 # 2)%Q None;
    mkPathNode exact_origin 2%Q (1 # 2)%Q None ].

Definition exact_tree : list (Obj (num := Q)) :=
  [ mkObj 0 exact_origin;
    mkObj 2 (mkVector3 3%Q 4%Q 0%Q);
    mkObj 3 (mkVector3 0%Q 1%Q 0%Q) ].

Definition exact_config : PathPlanningConfig Q :=
  mkConfig exact_origin (mkVector3 6%Q 8%Q 0%Q) [] 2%Q 1%Q 10.

(** A simulator on doubles.  The only frame of the scenarios below that
    is taken in the free view is the frame of the constructor, at the
    angle 0; the sine and the cosine are the first terms of their series
    here, which are their values at 0. *)
Definition series_math : MathLib float :=
  JSMath.float_math (fun a => a) (fun _ => 1).

Definition waypoint (a b c t : float) : TrajectoryPoint (num := float) :=
  mkTrajectoryPoint (a, b, c) t 5.

(** A store in which the caller has an array of two points, at the
    reference 0, and a simulator constructed after it. *)
Definition caller_store : DroneSimulatorV2.Store (num := float) :=
  [[waypoint 0 0 0 0; waypoint 1 1 1 0.5]].

Definition constructed_store : DroneSimulatorV2.Store (num := float) :=
  fst (DroneSimulatorV2.newSimulator (MATH := series_math) caller_store).

Definition constructed : DroneSimulatorV2.Simulator (num := float) :=
  Eval vm_compute in
    snd (DroneSimulatorV2.newSimulator (MATH := series_math) caller_store).

(** The drone is moved, a frame is drawn and the wheel is turned. *)
Definition fly_away : list (DroneSimulatorV2.Event (num := float)) :=
  [ DroneSimulatorV2.SetDroneState
      (DroneSimulatorV2.mkPartialDroneState (present (10, 20, 30))
         absent absent absent absent);
    DroneSimulatorV2.Frame;
    DroneSimulatorV2.Wheel 1 ].

(** The first version of the planners: the path of its grid planner on
    [far_obstacle_config], and a run of its tree planner with a goal that
    the tree comes near. *)
Definition first_version_path : list (Vector3 float) :=
  Eval vm_compute in
    fst (FirstVersion.plan far_obstacle_config FirstVersion.newAStarPlanner).

Definition first_version_state : FirstVersion.AStarPlanner (num := float) :=
  snd (FirstVersion.plan far_obstacle_config FirstVersion.newAStarPlanner).

Definition near_goal_config : PathPlanningConfig float :=
  mkConfig (vec 0 0 0) (vec 4 0 4) [] 2 1 50.

Definition striding_random : nat -> float :=
  fun k => of_Z (Z.of_nat ((7 * k + 3) mod 16)) / 16.

Definition first_version_tree_path : list (Vector3 float) :=
  Eval vm_compute in
    match FirstVersion.rrtPlan (MATH := series_math) near_goal_config
            striding_random 60 with
    | Some out => out
    | None => []
    end.

(** In exact arithmetic: a start one unit from the centre of an obstacle of
    radius 3, three iterations, and draws that are all 1/2. *)
Definition exact_blocked_config : PathPlanningConfig Q :=
  mkConfig (mkVector3 9%Q 0%Q 0%Q) (mkVector3 20%Q 0%Q 0%Q)
    [mkObstacle (mkVector3 10%Q 0%Q 0%Q) 3%Q] 2%Q 1%Q 3.

Definition half_random : nat -> Q := fun _ => (1 # 2)%Q.

(** In exact arithmetic: a value for [Math.PI] and the events of a drag
    with the left button, a turn of the wheel and two frames. *)
Definition exact_pi : Q := (355 # 113)%Q.

Definition drag_and_zoom : list (DroneSimulatorV2.Event (num := Q)) :=
  [ DroneSimulatorV2.MouseDown 0%Q 0%Q;
    DroneSimulatorV2.MouseMove 10%Q 1000%Q 1;
    DroneSimulatorV2.Wheel (-1)%Q;
    DroneSimulatorV2.Frame;
    DroneSimulatorV2.Frame ].

(** In exact arithmetic: a sine and a cosine that are rational functions
    of the angle (the point of the unit circle of parameter [a]), and the
    numeric fields of the preset [spiral] of [getPresetConfigs]. *)
Definition rational_sin (a : Q) : Q := (2 * a / (1 + a * a))%Q.

Definition rational_cos (a : Q) : Q := ((1 - a * a) / (1 + a * a))%Q.

Definition rational_math : MathLib Q :=
  IdealMath.Q_math rational_sin rational_cos exact_pi.

Definition spiral_preset : AlgorithmParser.AlgorithmConfig (num := Q) :=
  AlgorithmParser.mkAlgorithmConfig (0, 0, 0)%Q (0, 0, 0)%Q 100%Q 10%Q
    (0, 0, 0)%Q (981 # 100)%Q.

(** In exact arithmetic: the configuration [near_goal_config] and the
    draws [striding_random]. *)
Definition exact_near_goal_config : PathPlanningConfig Q :=
  mkConfig (mkVector3 0%Q 0%Q 0%Q) (mkVector3 4%Q 0%Q 4%Q) [] 2%Q 1%Q 50.

Definition exact_striding_random : nat -> Q :=
  fun k => (Z.of_nat ((7 * k + 3) mod 16) # 16)%Q.

End Examples.

(** ** Facts that hold for every arithmetic *)

Unset Implicit Arguments.

Section PlannerFacts.
Context {num : Type} {NUM : Number num}.
Local Open Scope num_scope.

Local Abbreviation Vec := (Vector3 num).
Local Abbreviation Config := (PathPlanningConfig num).
Local Abbreviation Node := (PathNode num).

Lemma isPointClear_spec (cfg : Config) (point : Vec) :
  isPointClear cfg point = true <->
  forall obstacle, In obstacle cfg.(obstacles) -> tooClose cfg point obstacle = false.
Proof.
  unfold isPointClear. rewrite forallb_forall.
  split; intros H o Ho; specialize (H o Ho).
  - now apply negb_true_iff.
  - now apply negb_true_iff.
Qed.

Lemma isPointClear_blocked (cfg : Config) (point : Vec) (obstacle : Obstacle num) :
  In obstacle cfg.(obstacles) -> tooClose cfg point obstacle = true ->
  isPointClear cfg point = false.
Proof.
  intros Hin Hclose.
  destruct (isPointClear cfg point) eqn:E; [|reflexivity].
  rewrite isPointClear_spec in E. rewrite (E _ Hin) in Hclose. discriminate.
Qed.

(** C3: when the start or the goal is closer to some obstacle than its
    radius plus the agent radius plus the margin of 2, the grid planner
    returns exactly [[start; goal]], with the loop variable at 0 and the
    open set, closed set and node map as they were: no search is made. *)
Theorem plan_unclear_endpoint_no_search (cfg : Config) (st : AStarPlanner num)
    (obstacle : Obstacle num) :
  In obstacle cfg.(obstacles) ->
  tooClose cfg cfg.(startPos) obstacle = true
    \/ tooClose cfg cfg.(endPos) obstacle = true ->
  plan cfg st
  = Some {| astar_path := [cfg.(startPos); cfg.(endPos)];
            astar_state := st;
            astar_iteration := 0 |}.
Proof.
  intros Hin [Hs | He]; unfold plan.
  - now rewrite (isPointClear_blocked _ _ _ Hin Hs).
  - rewrite (isPointClear_blocked _ _ _ Hin He).
    now rewrite orb_true_r.
Qed.

(** *** The points of a planned path

    Every position the grid planner puts into a node has passed
    [isPointClear]; the invariant below follows the parent chains. *)

Lemma PathNode_chain_ind (P : Node -> Prop) :
  (forall pos g h, P (mkPathNode pos g h None)) ->
  (forall pos g h parent, P parent -> P (mkPathNode pos g h (Some parent))) ->
  forall node, P node.
Proof.
  intros Hroot Hstep. fix IH 1.
  intros [pos g h [parent |]].
  - apply Hstep, IH.
  - apply Hroot.
Qed.

Lemma reconstructPath_from_clear (cfg : Config) (node : Node) :
  forall path, chainClear cfg node -> clearPoints cfg path ->
  clearPoints cfg (reconstructPath_from node path).
Proof.
  induction node as [pos g h | pos g h parent IH] using PathNode_chain_ind;
    intros path [Hpos Hparent] Hpath; simpl in *.
  - now constructor.
  - apply IH; [assumption | now constructor].
Qed.

Lemma scanMin_In (l : list Node) :
  forall i best f node k,
    scanMin l i best = Some (f, node, k) ->
    best = Some (f, node, k) \/ In node l.
Proof.
  induction l as [| n l IH]; intros i best f node k H; simpl in H.
  - now left.
  - apply IH in H. destruct H as [H | H]; [| right; now right].
    destruct (match best with
              | Some (minF, _, _) => n.(node_g) + n.(node_h) <? minF
              | None => num_lt_infinity (n.(node_g) + n.(node_h))
              end).
    + inversion H; subst. right; now left.
    + now left.
Qed.

Lemma filter_opt_In {A : Type} (f : A -> option bool) (l : list A) :
  forall r, filter_opt f l = Some r ->
  forall a, In a r -> In a l /\ f a = Some true.
Proof.
  induction l as [| b l IH]; intros r H a Ha; simpl in H.
  - inversion H; subst. destruct Ha.
  - destruct (f b) as [keep |] eqn:Eb; [| discriminate].
    destruct (filter_opt f l) as [r' |]; [| discriminate].
    inversion H; subst; clear H.
    destruct keep.
    + destruct Ha as [-> | Ha]; [split; [now left | assumption] |].
      destruct (IH r' eq_refl a Ha) as [Hin Hf]. split; [now right | assumption].
    + destruct (IH r' eq_refl a Ha) as [Hin Hf]. split; [now right | assumption].
Qed.

Lemma neighborOk_clear (cfg : Config) (pos neighbor : Vec) :
  neighborOk cfg pos neighbor = Some true -> isPointClear cfg neighbor = true.
Proof.
  unfold neighborOk.
  destruct (isPointClear cfg neighbor); [reflexivity |].
  rewrite andb_false_r. discriminate.
Qed.

Lemma getNeighbors_clear (cfg : Config) (node : Node) (neighbors : list Vec) :
  getNeighbors cfg node = Some neighbors -> clearPoints cfg neighbors.
Proof.
  intros H. apply Forall_forall. intros p Hp.
  destruct (filter_opt_In _ _ _ H p Hp) as [_ Hok].
  now apply neighborOk_clear in Hok.
Qed.

Lemma visitNeighbor_openClear (cfg : Config) (current : Node)
    (st : AStarPlanner num) (neighborPos : Vec) :
  chainClear cfg current -> isPointClear cfg neighborPos = true ->
  openClear cfg st -> openClear cfg (visitNeighbor cfg current st neighborPos).
Proof.
  intros Hcur Hpos Hst. unfold visitNeighbor.
  assert (Hpush : forall g h,
             Forall (chainClear cfg)
               (st.(openSet) ++ [mkPathNode neighborPos g h (Some current)])).
  { intros g h. apply Forall_app. split; [exact Hst |].
    constructor; [| constructor]. simpl. now split. }
  destruct (existsb _ st.(closedSet)); [exact Hst |].
  destruct (nodeMap_get _ st.(nodeMap)) as [existingNode |].
  - destruct (_ >=? _); [exact Hst | apply Hpush].
  - apply Hpush.
Qed.

Lemma fold_visitNeighbor_openClear (cfg : Config) (current : Node)
    (neighbors : list Vec) :
  chainClear cfg current -> clearPoints cfg neighbors ->
  forall st, openClear cfg st ->
  openClear cfg (fold_left (visitNeighbor cfg current) neighbors st).
Proof.
  intros Hcur Hns. induction Hns as [| p ps Hp _ IH]; intros st Hst; simpl.
  - exact Hst.
  - apply IH. now apply visitNeighbor_openClear.
Qed.

Lemma splice1_incl {A : Type} (i : nat) (l : list A) (a : A) :
  In a (splice1 i l) -> In a l.
Proof.
  unfold splice1. intros H. apply in_app_or in H. destruct H as [H | H].
  - rewrite <- (firstn_skipn i l). apply in_or_app. now left.
  - rewrite <- (firstn_skipn (S i) l). apply in_or_app. now right.
Qed.

(** The points of a fallback path: start, goal and, when the segment from
    the start to it is clear, the midpoint. *)
Lemma getAlternativePath_points (cfg : Config) (alt : list Vec) :
  getAlternativePath cfg = Some alt ->
  forall p, In p alt ->
    p = cfg.(startPos) \/ p = cfg.(endPos)
    \/ (p = midPoint cfg
        /\ isPathClear cfg cfg.(startPos) (midPoint cfg) = Some true).
Proof.
  unfold getAlternativePath. intros H p Hp.
  destruct (isPathClear cfg cfg.(startPos) (midPoint cfg)) as [clear |];
    [| discriminate].
  inversion H; subst; clear H.
  destruct clear; simpl in Hp; intuition.
Qed.

Lemma searchLoop_points (cfg : Config) :
  isPointClear cfg cfg.(startPos) = true ->
  isPointClear cfg cfg.(endPos) = true ->
  forall fuel iteration st r,
    openClear cfg st ->
    searchLoop cfg fuel iteration st = Some r ->
    Forall (clearOrMidPoint cfg) r.(astar_path).
Proof.
  intros Hstart Hend.
  assert (Halt : forall alt, getAlternativePath cfg = Some alt ->
                             Forall (clearOrMidPoint cfg) alt).
  { intros alt Ha. apply Forall_forall. intros p Hp.
    destruct (getAlternativePath_points cfg alt Ha p Hp) as [-> | [-> | Hm]];
      [now left | now left | now right]. }
  induction fuel as [| fuel IH]; intros iteration st r Hst H; simpl in H.
  - destruct (getAlternativePath cfg) as [alt |] eqn:Ea; [| discriminate].
    inversion H; subst; simpl. now apply Halt.
  - destruct st.(openSet) as [| n0 open'] eqn:Eopen.
    + destruct (isPathClear cfg cfg.(startPos) cfg.(endPos)) as [[|] |];
        try discriminate.
      * inversion H; subst; simpl.
        constructor; [now left | constructor; [now left | constructor]].
      * destruct (getAlternativePath cfg) as [alt |] eqn:Ea; [| discriminate].
        inversion H; subst; simpl. now apply Halt.
    + destruct (scanMin (n0 :: open') 0 None) as [[[minF current] minIndex] |] eqn:Emin.
      2:{ destruct (getAlternativePath cfg) as [alt |] eqn:Ea; [| discriminate].
          inversion H; subst; simpl. now apply Halt. }
      assert (Hcur : chainClear cfg current).
      { apply scanMin_In in Emin. destruct Emin as [Emin | Emin]; [discriminate |].
        unfold openClear in Hst. rewrite Eopen in Hst.
        rewrite Forall_forall in Hst. now apply Hst. }
      match type of H with
      | match ?c with _ => _ end = _ => destruct c as [[|] |]; try discriminate
      end.
      * inversion H; subst; simpl.
        apply Forall_app. split.
        -- assert (Hc : clearPoints cfg (reconstructPath current)).
           { apply reconstructPath_from_clear; [assumption | constructor]. }
           apply Forall_impl with (2 := Hc). intros p Hp. now left.
        -- constructor; [now left | constructor].
      * destruct (getNeighbors cfg current) as [neighbors |] eqn:En; [| discriminate].
        apply IH in H; [assumption |].
        apply fold_visitNeighbor_openClear;
          [assumption | now apply getNeighbors_clear with (node := current) |].
        unfold openClear; simpl. apply Forall_forall. intros n Hn.
        apply splice1_incl in Hn.
        unfold openClear in Hst. rewrite Eopen in Hst.
        rewrite Forall_forall in Hst. now apply Hst.
Qed.

Lemma plan_points (cfg : Config) (r : AStarResult num) :
  isPointClear cfg cfg.(startPos) = true ->
  isPointClear cfg cfg.(endPos) = true ->
  plan cfg newAStarPlanner = Some r ->
  Forall (clearOrMidPoint cfg) r.(astar_path).
Proof.
  intros Hstart Hend. unfold plan. rewrite Hstart, Hend. simpl.
  apply searchLoop_points; try assumption.
  unfold openClear; simpl. constructor; [| constructor].
  simpl. now split.
Qed.

(** Every node of the tree planner other than the start has passed
    [isPointClear] when it was pushed. *)

Lemma fold_select_In {A B : Type} (better : B * A -> A -> bool) (key : A -> B)
    (l : list A) :
  forall init,
    let r := fold_left
               (fun acc a => if better acc a then (key a, a) else acc) l init in
    snd r = snd init \/ In (snd r) l.
Proof.
  induction l as [| a l IH]; intros init; simpl.
  - now left.
  - destruct (IH (if better init a then (key a, a) else init)) as [H | H].
    + destruct (better init a); simpl in H.
      * right; left. now symmetry.
      * now left.
    + right; now right.
Qed.

Lemma nearestNode_In (l : list Obj) (point : Vec) (o : Obj) :
  nearestNode l point = Some o -> In o l.
Proof.
  destruct l as [| first l']; simpl; [discriminate |].
  intros H. inversion H as [Ho]; clear H.
  pose proof (fold_select_In
                (fun (acc : num * Obj) node =>
                   distance point node.(obj_value) <? fst acc)
                (fun node => distance point node.(obj_value))
                (first :: l')
                (distance point first.(obj_value), first)) as Hsel.
  simpl in Hsel. destruct Hsel as [Hsel | Hsel].
  - left. now symmetry.
  - exact Hsel.
Qed.

Lemma closestToGoal_In (cfg : Config) (l : list Obj) (o : Obj) :
  closestToGoal cfg l = Some o -> In o l.
Proof.
  destruct l as [| first l']; simpl; [discriminate |].
  intros H. inversion H as [Ho]; clear H.
  pose proof (fold_select_In
                (fun (acc : num * Obj) node =>
                   distance node.(obj_value) cfg.(endPos) <? fst acc)
                (fun node => distance node.(obj_value) cfg.(endPos))
                (first :: l')
                (distance first.(obj_value) cfg.(endPos), first)) as Hsel.
  simpl in Hsel. destruct Hsel as [Hsel | Hsel].
  - left. now symmetry.
  - exact Hsel.
Qed.

Lemma rrtIteration_nodes (cfg : Config) (random : nat -> num) (st : RRTState)
    (r : RRTState + RRTState * Obj) :
  rrtIteration cfg random st = Some r ->
  Forall (checkedNode cfg) st.(nodes) ->
  match r with
  | inl st' => Forall (checkedNode cfg) st'.(nodes)
  | inr (st', o) => Forall (checkedNode cfg) st'.(nodes) /\ In o st'.(nodes)
  end.
Proof.
  unfold rrtIteration. intros H Hst.
  destruct (nearestNode st.(nodes) _) as [nearest |]; [| discriminate].
  match type of H with
  | context [step ?a ?b ?c ?d] => set (newPoint := step a b c d) in *
  end.
  destruct (isPointClear cfg newPoint.(obj_value)) eqn:Hclear.
  - destruct (isPathClear cfg nearest.(obj_value) newPoint.(obj_value))
      as [[|] |]; try discriminate.
    + assert (Hn : Forall (checkedNode cfg) (st.(nodes) ++ [newPoint])).
      { apply Forall_app. split; [assumption |].
        constructor; [now right | constructor]. }
      match type of H with
      | match ?c with _ => _ end = _ => destruct c as [[|] |]; try discriminate
      end; inversion H; subst; simpl.
      * split; [assumption |]. apply in_or_app. right. now left.
      * assumption.
    + inversion H; subst; simpl. assumption.
  - inversion H; subst; simpl. assumption.
Qed.

Lemma rrtLoop_nodes (cfg : Config) (random : nat -> num) :
  forall iterations st st' o,
    rrtLoop cfg random iterations st = Some (st', o) ->
    Forall (checkedNode cfg) st.(nodes) ->
    Forall (checkedNode cfg) st'.(nodes) /\ In o st'.(nodes).
Proof.
  induction iterations as [| k IH]; intros st st' o H Hst; simpl in H.
  - destruct (closestToGoal cfg st.(nodes)) as [closest |] eqn:Ec; [| discriminate].
    inversion H; subst. split; [assumption |].
    now apply closestToGoal_In with (cfg := cfg).
  - destruct (rrtIteration cfg random st) as [r |] eqn:Er; [| discriminate].
    pose proof (rrtIteration_nodes cfg random st r Er Hst) as Hr.
    destruct r as [st1 | [st1 o1]].
    + now apply IH with (st := st1).
    + inversion H; subst. exact Hr.
Qed.

Lemma scanPredecessor_In (cfg : Config) (current : Obj) (l : list Obj) :
  forall best d o,
    scanPredecessor cfg l current best = Some (Some (d, o)) ->
    best = Some (d, o) \/ In o l.
Proof.
  induction l as [| node l IH]; intros best d o H; simpl in H.
  - left. now inversion H.
  - destruct (same_object node current).
    + apply IH in H. destruct H; [now left | right; now right].
    + match type of H with
      | match ?c with _ => _ end = _ => destruct c as [better |]; [| discriminate]
      end.
      apply IH in H. destruct H as [H | H]; [| right; now right].
      destruct better; [| now left].
      inversion H; subst. right; now left.
Qed.

Lemma checkedNode_point (cfg : Config) (o : Obj) :
  checkedNode cfg o -> startGoalOrClear cfg o.(obj_value).
Proof. intros [H | H]; [now left | right; now right]. Qed.

Lemma rrtReconstructLoop_points (cfg : Config) (l : list Obj) :
  Forall (checkedNode cfg) l ->
  forall fuel current path out,
    In current l ->
    Forall (startGoalOrClear cfg) path ->
    rrtReconstructLoop cfg l fuel current path = Some out ->
    Forall (startGoalOrClear cfg) out.
Proof.
  intros Hl. induction fuel as [| fuel IH]; intros current path out Hc Hp H;
    simpl in H; [discriminate |].
  assert (Hp' : Forall (startGoalOrClear cfg) (current.(obj_value) :: path)).
  { constructor; [| assumption]. apply checkedNode_point.
    rewrite Forall_forall in Hl. now apply Hl. }
  destruct (scanPredecessor cfg l current None) as [[[d nearest] |] |] eqn:Es;
    try discriminate.
  - apply IH in H; [assumption | | assumption].
    apply scanPredecessor_In in Es. destruct Es as [Es | Es]; [discriminate | assumption].
  - inversion H; subst.
    apply (proj2 (Forall_app _ (current.(obj_value) :: path) [cfg.(endPos)])).
    split; [assumption |].
    constructor; [right; now left | constructor].
Qed.

Lemma rrtPlan_points (cfg : Config) (random : nat -> num) (fuel : nat)
    (path : list Vec) :
  rrtPlan cfg random fuel = Some path ->
  Forall (startGoalOrClear cfg) path.
Proof.
  unfold rrtPlan, rrtReconstructPath. intros H.
  destruct (rrtLoop cfg random cfg.(maxIterations) _) as [[st o] |] eqn:El;
    [| discriminate].
  apply rrtLoop_nodes in El.
  - destruct El as [Hnodes Ho]. simpl in H.
    now apply rrtReconstructLoop_points with (2 := Ho) (4 := H).
  - simpl. constructor; [now left | constructor].
Qed.


End PlannerFacts.

Section DedupAndSmoothingFacts.
Context {num : Type} {NUM : Number num}.
Local Open Scope num_scope.

Local Abbreviation Vec := (Vector3 num).
Local Abbreviation Config := (PathPlanningConfig num).
Local Abbreviation Node := (PathNode num).

(** What [visitNeighbor] does with a candidate, case by case. *)
Lemma visitNeighbor_cases (cfg : Config) (current : Node)
    (st : AStarPlanner num) (neighborPos : Vec) :
  let key := getNodeKey neighborPos in
  let tentativeG := current.(node_g) + distance current.(node_position) neighborPos in
  let candidate :=
    mkPathNode neighborPos tentativeG (distance neighborPos cfg.(endPos))
               (Some current) in
  let st' := visitNeighbor cfg current st neighborPos in
  key = {| kx := num_round (neighborPos.(x) / lit 1) * lit 1;
           ky := num_round (neighborPos.(y) / lit 1) * lit 1;
           kz := num_round (neighborPos.(z) / lit 1) * lit 1 |}
  /\ (st' = st
      \/ (st' = {| openSet := st.(openSet) ++ [candidate];
                   closedSet := st.(closedSet);
                   nodeMap := (key, candidate) :: st.(nodeMap) |}
          /\ existsb (fun n => key_eqb (getNodeKey n.(node_position)) key)
                     st.(closedSet) = false
          /\ forall existingNode,
               nodeMap_get key st.(nodeMap) = Some existingNode ->
               (tentativeG >=? existingNode.(node_g)) = false))
  /\ (forall existingNode,
        nodeMap_get key st.(nodeMap) = Some existingNode ->
        (tentativeG >=? existingNode.(node_g)) = true ->
        st' = st).
Proof.
  intros key tentativeG candidate st'. split; [reflexivity |].
  subst st'. unfold visitNeighbor. fold key. fold tentativeG.
  destruct (existsb _ st.(closedSet)) eqn:Eclosed.
  - split; [now left | reflexivity].
  - destruct (nodeMap_get key st.(nodeMap)) as [existingNode |] eqn:Eget.
    + destruct (tentativeG >=? existingNode.(node_g)) eqn:Ecmp.
      * split; [now left | reflexivity].
      * split.
        -- right. split; [reflexivity | split; [reflexivity |]].
           intros e He. inversion He; subst. exact Ecmp.
        -- intros e He Hge. inversion He; subst.
           rewrite Ecmp in Hge. discriminate.
    + split.
      * right. split; [reflexivity | split; [reflexivity |]].
        intros e He. discriminate.
      * intros e He. discriminate.
Qed.

(** *** The shape of a smoothed path *)

Lemma flat_map_const_length {A B : Type} (f : A -> list B) (n : nat)
    (l : list A) :
  (forall a, length (f a) = n) -> length (flat_map f l) = (length l * n)%nat.
Proof.
  intros Hf. induction l as [| a l IH]; simpl; [reflexivity |].
  rewrite length_app, Hf, IH. reflexivity.
Qed.

Lemma smoothSegment_length (path : list Vec) (dflt : Vec) (k : num) (n i : nat) :
  length (smoothSegment path dflt k n i) = n.
Proof. unfold smoothSegment. now rewrite length_map, length_seq. Qed.

Lemma nth_pred_length_last {A : Type} (l : list A) (d d' : A) :
  l <> [] -> nth (length l - 1)%nat l d = last l d'.
Proof.
  induction l as [| a l IH]; intros Hl; [congruence |].
  destruct l as [| b l']; [reflexivity |].
  replace (length (a :: b :: l') - 1)%nat with (S (length (b :: l') - 1)%nat)
    by (simpl; lia).
  change (nth (length (b :: l') - 1)%nat (b :: l') d = last (b :: l') d').
  apply IH. discriminate.
Qed.

Lemma smoothPath_short (path : list Vec) (k : num) :
  length path < 2 -> smoothPath path k = Some path.
Proof.
  destruct path as [| p [| q path']]; simpl; intros H; try reflexivity; lia.
Qed.

Lemma smoothPath_long (path : list Vec) (k : num) (n : nat) :
  2 <= length path -> num_bound_lt k = Some n ->
  exists out,
    smoothPath path k = Some out
    /\ length out = ((length path - 1) * n + 1)%nat
    /\ (forall d, last out d = last path d)
    /\ (1 <= n -> forall d,
          hd d out
          = splinePoint (nth 0 path d) (nth 0 path d) (nth 1 path d)
                        (nth (Nat.min (length path - 1)%nat 2) path d)
                        (lit 0 / k)).
Proof.
  intros Hlen Hn.
  destruct path as [| p [| q path']]; simpl in Hlen; try lia.
  set (path := p :: q :: path') in *.
  exists (flat_map (smoothSegment path p k n) (seq 0 (length path - 1)%nat)
          ++ [nth (length path - 1)%nat path p]).
  split; [| split; [| split]].
  - unfold smoothPath, path. rewrite Hn. reflexivity.
  - rewrite length_app, (flat_map_const_length _ n), length_seq.
    + reflexivity.
    + intros i. apply smoothSegment_length.
  - intros d. rewrite last_last.
    apply nth_pred_length_last. discriminate.
  - intros Hpos d.
    destruct n as [| n']; [lia |].
    change (length path - 1)%nat with (S (length path')).
    simpl seq. simpl flat_map. unfold smoothSegment at 1.
    simpl seq. simpl map. simpl app. simpl hd.
    subst path. destruct path' as [| r [| r' path'']]; reflexivity.
Qed.

End DedupAndSmoothingFacts.

(** ** Facts of exact arithmetic *)

Module IdealFacts.
Import Ideal.
Local Open Scope Q_scope.

Lemma Qsqrt_floor_nonneg (a : Q) : 0 <= Qsqrt_floor a.
Proof.
  unfold Qsqrt_floor, Qle; simpl.
  rewrite Z.mul_1_r. apply Z.sqrt_nonneg.
Qed.

Lemma Qmult_lt_self_l (a t : Q) : a < 1 -> 0 < t -> a * t < t.
Proof. intros Ha Ht. nra. Qed.

Lemma Qmult_lt_self_r (a t : Q) : a < 1 -> 0 < t -> t * a < t.
Proof. intros Ha Ht. nra. Qed.

Lemma Qdiv_le_compat_r (a b c : Q) : a <= b -> 0 < c -> a / c <= b / c.
Proof.
  intros Hab Hc. unfold Qdiv. apply Qmult_le_compat_r; [exact Hab |].
  apply Qlt_le_weak, Qinv_lt_0_compat, Hc.
Qed.

Lemma Qdiv_le_antitone (a b c : Q) : 0 <= a -> 0 < b -> b <= c -> a / c <= a / b.
Proof.
  intros Ha Hb Hbc.
  assert (Hc : 0 < c) by (apply Qlt_le_trans with (y := b); assumption).
  apply Qle_shift_div_l; [exact Hb |].
  assert (E : a / c * b == a * (b / c)) by (field; lra).
  rewrite E.
  assert (H1 : b / c <= 1).
  { apply Qle_shift_div_r; [exact Hc | lra]. }
  nra.
Qed.

Section WithSqrt.
Variable sqrtQ : Q -> Q.
Hypothesis sqrtQ_nonneg : forall a, 0 <= sqrtQ a.

Local Abbreviation QN := (Q_number sqrtQ).
Local Abbreviation VecQ := (Vector3 Q).

(** The Catmull-Rom polynomial at parameter [0 / k] is its second
    control point. *)
Lemma catmullRom_at_zero (p0 p1 p2 p3 k : Q) :
  catmullRom (NUM := QN) p0 p1 p2 p3 (0 / k) == p1.
Proof.
  assert (E : 0 / k == 0) by (unfold Qdiv; apply Qmult_0_l).
  unfold catmullRom, half. simpl. rewrite E. field.
Qed.

Lemma distance_nonneg (a b : VecQ) : 0 <= distance (NUM := QN) a b.
Proof. unfold distance. simpl. apply sqrtQ_nonneg. Qed.

Lemma sumSegments_ge (rest : list VecQ) :
  forall prev total, total <= sumSegments (NUM := QN) prev rest total.
Proof.
  induction rest as [| p rest IH]; intros prev total; simpl.
  - apply Qle_refl.
  - eapply Qle_trans; [| apply IH].
    pose proof (distance_nonneg p prev) as H. simpl in H. lra.
Qed.

Lemma totalDistance_nonneg (path : list VecQ) :
  0 <= totalDistance (NUM := QN) path.
Proof.
  destruct path as [| first rest]; simpl.
  - apply Qle_refl.
  - apply (sumSegments_ge rest first 0).
Qed.

(** The number of samples is an integer, at least 100. *)
Lemma pointsCountOf_integer (totalTime : Q) :
  pointsCountOf (NUM := QN) totalTime = inject_Z (sampleCountZ totalTime).
Proof.
  unfold pointsCountOf, sampleCountZ.
  cbv beta iota delta [num_max num_floor num_mul num_of_Z Q_number].
  change (inject_Z 10) with 10.
  set (f := Qfloor (totalTime * 10)).
  destruct (Qle_bool (inject_Z 100) (inject_Z f)) eqn:E.
  - apply Qle_bool_iff in E. rewrite <- Zle_Qle in E.
    now rewrite Z.max_r.
  - assert (H : ~ (100 <= f)%Z).
    { intros H. rewrite Zle_Qle in H. apply Qle_bool_iff in H. congruence. }
    rewrite Z.max_l by lia. reflexivity.
Qed.

Lemma sampleCountZ_ge_100 (totalTime : Q) : (100 <= sampleCountZ totalTime)%Z.
Proof. unfold sampleCountZ. lia. Qed.

Lemma pointsCountOf_pos (totalTime : Q) : 0 < pointsCountOf (NUM := QN) totalTime.
Proof.
  rewrite pointsCountOf_integer.
  change 0 with (inject_Z 0). rewrite <- Zlt_Qlt.
  pose proof (sampleCountZ_ge_100 totalTime). lia.
Qed.

Lemma pointsCountOf_bound (totalTime : Q) :
  num_bound_lt (Number := QN) (pointsCountOf (NUM := QN) totalTime)
  = Some (Z.to_nat (sampleCountZ totalTime)).
Proof.
  change (Some (Z.to_nat (Qceiling (pointsCountOf (NUM := QN) totalTime)))
          = Some (Z.to_nat (sampleCountZ totalTime))).
  now rewrite pointsCountOf_integer, Qceiling_Z.
Qed.

(** What the resampler returns on a path that has a first point. *)
Lemma generateTrajectoryFromPath_eq (first : VecQ) (rest : list VecQ) (speed : Q) :
  generateTrajectoryFromPath (NUM := QN) (first :: rest) speed
  = Some (map (trajectoryPoint (NUM := QN) first rest speed)
              (seq 0 (Z.to_nat
                        (sampleCountZ
                           (totalDistance (NUM := QN) (first :: rest) / speed))))).
Proof.
  unfold generateTrajectoryFromPath.
  change (@num_div Q QN (@totalDistance Q QN (first :: rest)) speed)
    with (totalDistance (NUM := QN) (first :: rest) / speed).
  rewrite pointsCountOf_bound.
  pose proof (sampleCountZ_ge_100 (totalDistance (NUM := QN) (first :: rest) / speed)).
  destruct (Z.to_nat _) eqn:E; [lia | reflexivity].
Qed.

(** A loop counter is below the number of samples. *)
Lemma counter_below_count (totalTime : Q) (i : nat) :
  (i < Z.to_nat (sampleCountZ totalTime))%nat ->
  inject_Z (Z.of_nat i) < pointsCountOf (NUM := QN) totalTime.
Proof.
  intros Hi. rewrite pointsCountOf_integer. rewrite <- Zlt_Qlt. lia.
Qed.

Lemma fraction_below_one (totalTime : Q) (i : nat) :
  (i < Z.to_nat (sampleCountZ totalTime))%nat ->
  inject_Z (Z.of_nat i) / pointsCountOf (NUM := QN) totalTime < 1.
Proof.
  intros Hi. apply Qlt_shift_div_r; [apply pointsCountOf_pos |].
  rewrite Qmult_1_l. now apply counter_below_count.
Qed.


(** *** The resampler on a path without a zero-length first segment *)

Lemma timestamp_monotone (first : VecQ) (rest : list VecQ) (speed : Q) (i j : nat) :
  0 < speed -> (i <= j)%nat ->
  timestamp (trajectoryPoint (NUM := QN) first rest speed i)
  <= timestamp (trajectoryPoint (NUM := QN) first rest speed j).
Proof.
  intros Hspeed Hij.
  set (total := totalDistance (NUM := QN) (first :: rest)).
  set (totalTime := total / speed).
  set (pointsCount := pointsCountOf (NUM := QN) totalTime).
  change (inject_Z (Z.of_nat i) / pointsCount * totalTime
          <= inject_Z (Z.of_nat j) / pointsCount * totalTime).
  assert (Htime : 0 <= totalTime).
  { unfold totalTime. apply Qle_shift_div_l; [exact Hspeed |].
    rewrite Qmult_0_l. apply totalDistance_nonneg. }
  apply Qmult_le_compat_r; [| exact Htime].
  apply Qdiv_le_compat_r; [| apply pointsCountOf_pos].
  rewrite <- Zle_Qle. lia.
Qed.

Lemma locate_first_segment (first second : VecQ) (rest' : list VecQ)
    (d : Q) (position : VecQ) :
  d == 0 -> 0 < distance (NUM := QN) second first ->
  locate (NUM := QN) first (second :: rest') 0 d position
  = interpolate (NUM := QN) first second
      ((d - 0) / distance (NUM := QN) second first).
Proof.
  intros Hd Hseg.
  change (locate (NUM := QN) first (second :: rest') 0 d position)
    with (if Qle_bool d (0 + distance (NUM := QN) second first)
          then interpolate (NUM := QN) first second
                 ((d - 0) / distance (NUM := QN) second first)
          else locate (NUM := QN) second rest'
                 (0 + distance (NUM := QN) second first) d position).
  assert (Hle : Qle_bool d (0 + distance (NUM := QN) second first) = true).
  { apply Qle_bool_iff. rewrite Hd. lra. }
  now rewrite Hle.
Qed.

Lemma interpolate_at_zero (a b : VecQ) (t : Q) :
  t == 0 ->
  sameTriple
    ((interpolate (NUM := QN) a b t).(x),
     (interpolate (NUM := QN) a b t).(y),
     (interpolate (NUM := QN) a b t).(z))
    (a.(x), a.(y), a.(z)).
Proof.
  intros Ht. unfold sameTriple, interpolate.
  cbn [fst snd x y z num_add num_sub num_mul Q_number].
  repeat split; rewrite Ht; ring.
Qed.

Lemma first_sample_position (first : VecQ) (rest : list VecQ) (speed : Q) :
  (forall second rest', rest = second :: rest' ->
     0 < distance (NUM := QN) second first) ->
  sameTriple
    (tp_position (trajectoryPoint (NUM := QN) first rest speed 0))
    (first.(x), first.(y), first.(z)).
Proof.
  intros Hseg. unfold trajectoryPoint. cbn [tp_position].
  set (total := totalDistance (NUM := QN) (first :: rest)).
  set (pointsCount := pointsCountOf (NUM := QN) (num_div (Number := QN) total speed)).
  set (d := distanceAlongPathOf (NUM := QN) total pointsCount 0).
  assert (Hd : d == 0).
  { unfold d, distanceAlongPathOf.
    change (total * (0 / pointsCount) == 0).
    assert (E : 0 / pointsCount == 0) by (unfold Qdiv; apply Qmult_0_l).
    rewrite E. ring. }
  destruct rest as [| second rest'].
  - unfold sameTriple. cbn [locate fst snd]. repeat split; apply Qeq_refl.
  - specialize (Hseg second rest' eq_refl).
    change (lit 0) with 0.
    rewrite (locate_first_segment first second rest' d first Hd Hseg).
    apply interpolate_at_zero.
    assert (E0 : d - 0 == 0) by (rewrite Hd; ring).
    rewrite E0. unfold Qdiv. apply Qmult_0_l.
Qed.

Lemma sampleCountZ_antitone_in_speed (path : list VecQ) (speed speed' : Q) :
  0 < speed -> speed <= speed' ->
  (sampleCountZ (totalDistance (NUM := QN) path / speed')
   <= sampleCountZ (totalDistance (NUM := QN) path / speed))%Z.
Proof.
  intros Hs Hss'. unfold sampleCountZ.
  apply Z.max_le_compat_l. apply Qfloor_resp_le.
  apply Qmult_le_compat_r; [| discriminate].
  apply Qdiv_le_antitone; [apply totalDistance_nonneg | exact Hs | exact Hss'].
Qed.

(** The resampler in exact arithmetic, for a positive speed, on a path
    with a first point whose first segment, when there is one, has a
    positive length: it returns max(100, floor((totalLength / speed) * 10))
    samples; the position of the first is the first point of the path; the
    timestamps do not decrease; and a higher speed gives no more samples. *)
Theorem resample_on_proper_path (first : VecQ) (rest : list VecQ) (speed : Q) :
  0 < speed ->
  (forall second rest', rest = second :: rest' ->
     0 < distance (NUM := QN) second first) ->
  exists traj,
    generateTrajectoryFromPath (NUM := QN) (first :: rest) speed = Some traj
    /\ Z.of_nat (length traj)
       = Z.max 100
           (Qfloor (totalDistance (NUM := QN) (first :: rest) / speed * 10))
    /\ (exists s0 more,
          traj = s0 :: more
          /\ sameTriple (tp_position s0) (first.(x), first.(y), first.(z)))
    /\ (forall i j si sj,
          (i <= j)%nat ->
          nth_error traj i = Some si -> nth_error traj j = Some sj ->
          timestamp si <= timestamp sj)
    /\ (forall speed' traj',
          speed < speed' ->
          generateTrajectoryFromPath (NUM := QN) (first :: rest) speed' = Some traj' ->
          (length traj' <= length traj)%nat).
Proof.
  intros Hspeed Hseg.
  set (count := fun v => Z.to_nat
                           (sampleCountZ
                              (totalDistance (NUM := QN) (first :: rest) / v))).
  pose proof (sampleCountZ_ge_100
                (totalDistance (NUM := QN) (first :: rest) / speed)) as Hcount.
  exists (map (trajectoryPoint (NUM := QN) first rest speed) (seq 0 (count speed))).
  split; [apply generateTrajectoryFromPath_eq |].
  rewrite length_map, length_seq.
  split; [unfold count; rewrite Z2Nat.id by lia; reflexivity |].
  split; [| split].
  - destruct (count speed) as [| n] eqn:E; [unfold count in E; lia |].
    exists (trajectoryPoint (NUM := QN) first rest speed 0),
           (map (trajectoryPoint (NUM := QN) first rest speed) (seq 1 n)).
    split; [reflexivity |]. now apply first_sample_position.
  - intros i j si sj Hij Hi Hj.
    rewrite nth_error_map, nth_error_seq in Hi, Hj.
    destruct (Nat.ltb i (count speed)); [| discriminate].
    destruct (Nat.ltb j (count speed)); [| discriminate].
    simpl in Hi, Hj. inversion Hi; inversion Hj; subst; clear Hi Hj.
    now apply timestamp_monotone.
  - intros speed' traj' Hss' Htraj'.
    rewrite generateTrajectoryFromPath_eq in Htraj'.
    inversion Htraj'; subst; clear Htraj'.
    rewrite length_map, length_seq. unfold count.
    apply Z2Nat.inj_le.
    + apply Z.le_trans with (m := 100%Z); [lia | apply sampleCountZ_ge_100].
    + apply Z.le_trans with (m := 100%Z); [lia | apply sampleCountZ_ge_100].
    + exact (sampleCountZ_antitone_in_speed (first :: rest) speed speed'
               Hspeed (Qlt_le_weak _ _ Hss')).
Qed.

End WithSqrt.
End IdealFacts.

(** ** Facts of IEEE doubles *)

Module JSFloatFacts.
Import PrimFloat SpecFloat FloatOps FloatAxioms.

Lemma SFcompare_antisym (a b : spec_float) (c : comparison) :
  SFcompare a b = Some c -> SFcompare b a = Some (CompOpp c).
Proof.
  destruct a as [sa | sa | | sa ma ea], b as [sb | sb | | sb mb eb];
    simpl; intros H; try discriminate; inversion H; subst; clear H;
    repeat match goal with s : bool |- _ => destruct s end;
    simpl; try reflexivity.
  - rewrite (Z.compare_antisym ea eb).
    destruct (ea ?= eb)%Z eqn:E; simpl; try reflexivity.
    rewrite CompOpp_involutive. f_equal.
    exact (Pos.compare_cont_antisym mb ma Eq).
  - rewrite (Z.compare_antisym ea eb).
    destruct (ea ?= eb)%Z eqn:E; simpl; try reflexivity.
    f_equal. symmetry. exact (Pos.compare_cont_antisym ma mb Eq).
Qed.

Lemma SFcompare_None (a b : spec_float) :
  SFcompare a b = None -> a = S754_nan \/ b = S754_nan.
Proof.
  destruct a as [sa | sa | | sa ma ea], b as [sb | sb | | sb mb eb];
    simpl; try discriminate; auto.
Qed.

Lemma is_nan_of_spec (a : float) : Prim2SF a = S754_nan -> is_nan a = true.
Proof.
  intros H. unfold is_nan. rewrite eqb_spec, H. reflexivity.
Qed.

(** On doubles that are not NaN, "not [t >= e]" is "[t < e]". *)
Lemma not_ge_lt (t e : float) :
  leb e t = false -> is_nan t = false -> is_nan e = false -> ltb t e = true.
Proof.
  rewrite leb_spec, ltb_spec. unfold SFleb, SFltb. intros H Ht He.
  destruct (SFcompare (Prim2SF e) (Prim2SF t)) as [c |] eqn:E.
  - rewrite (SFcompare_antisym _ _ _ E). destruct c; try discriminate. reflexivity.
  - apply SFcompare_None in E.
    destruct E as [E | E]; apply is_nan_of_spec in E; congruence.
Qed.

End JSFloatFacts.


Section ReconstructionFacts.
Context {num : Type} {NUM : Number num}.

Local Abbreviation Vec := (Vector3 num).
Local Abbreviation Config := (PathPlanningConfig num).

Lemma rrtLoop_S (cfg : Config) (random : nat -> num) (k : nat) (st : RRTState) :
  rrtLoop cfg random (S k) st
  = do r <- rrtIteration cfg random st ;
    match r with
    | inl st' => rrtLoop cfg random k st'
    | inr found => Some found
    end.
Proof. reflexivity. Qed.

(** When the draw is below 0.1 the sample is the goal, and the iteration
    reads nothing else of the oracle. *)
Lemma rrtIteration_goal_bias (cfg : Config) (random random' : nat -> num)
    (st : RRTState) :
  num_ltb (random st.(random_calls)) tenth = true ->
  num_ltb (random' st.(random_calls)) tenth = true ->
  rrtIteration cfg random st = rrtIteration cfg random' st.
Proof.
  intros H H'. unfold rrtIteration. rewrite H, H'. reflexivity.
Qed.

Lemma everyNodeHasPredecessor_spec (cfg : Config) (l : list Obj) :
  everyNodeHasPredecessor cfg l = true ->
  forall current, In current l ->
  exists d nearest,
    scanPredecessor cfg l current None = Some (Some (d, nearest))
    /\ In nearest l.
Proof.
  unfold everyNodeHasPredecessor. rewrite forallb_forall.
  intros H current Hc. specialize (H current Hc).
  destruct (scanPredecessor cfg l current None) as [[[d nearest] |] |] eqn:E;
    try discriminate.
  exists d, nearest. split; [reflexivity |].
  apply scanPredecessor_In in E. destruct E as [E | E]; [discriminate | exact E].
Qed.

(** When every node has a predecessor the [while] loop of
    [RRTPlanner.reconstructPath] never reaches its [break]: whatever the
    number of iterations allowed, it has not returned. *)
Lemma rrtReconstructLoop_no_exit (cfg : Config) (l : list Obj) :
  everyNodeHasPredecessor cfg l = true ->
  forall fuel current path,
    In current l -> rrtReconstructLoop cfg l fuel current path = None.
Proof.
  intros Hall. induction fuel as [| fuel IH]; intros current path Hc; simpl.
  - reflexivity.
  - destruct (everyNodeHasPredecessor_spec cfg l Hall current Hc)
      as [d [nearest [E Hn]]].
    rewrite E. now apply IH.
Qed.

(** Whenever every node of the tree has another node that the scan selects
    (one with a clear segment to it), [RRTPlanner.reconstructPath] has not
    returned after any number of iterations of its loop, from whichever
    node of the tree it starts. *)
Theorem reconstruction_never_ends_in_a_connected_tree (cfg : Config)
    (l : list Obj) (fuel : nat) (endPoint : Obj) :
  everyNodeHasPredecessor cfg l = true -> In endPoint l ->
  rrtReconstructPath cfg l fuel endPoint = None.
Proof.
  intros Hall Hin. unfold rrtReconstructPath.
  now apply rrtReconstructLoop_no_exit.
Qed.

(** *** The grid planner returns a path from the start to the goal *)

Lemma reconstructPath_from_root (node : PathNode num) :
  forall path, exists more,
    reconstructPath_from node path = rootPosition node :: more.
Proof.
  induction node as [pos g h | pos g h parent IH] using PathNode_chain_ind;
    intros path; simpl.
  - now exists path.
  - apply IH.
Qed.

Lemma visitNeighbor_openRooted (cfg : Config) (current : PathNode num)
    (st : AStarPlanner num) (neighborPos : Vec) :
  rootPosition current = cfg.(startPos) ->
  openRooted cfg st -> openRooted cfg (visitNeighbor cfg current st neighborPos).
Proof.
  intros Hcur Hst. unfold visitNeighbor.
  assert (Hpush : forall g h,
             Forall (fun node => rootPosition node = cfg.(startPos))
               (st.(openSet) ++ [mkPathNode neighborPos g h (Some current)])).
  { intros g h. apply Forall_app. split; [exact Hst |].
    constructor; [exact Hcur | constructor]. }
  destruct (existsb _ st.(closedSet)); [exact Hst |].
  destruct (nodeMap_get _ st.(nodeMap)) as [existingNode |].
  - destruct (num_leb _ _); [exact Hst | apply Hpush].
  - apply Hpush.
Qed.

Lemma fold_visitNeighbor_openRooted (cfg : Config) (current : PathNode num)
    (neighbors : list Vec) :
  rootPosition current = cfg.(startPos) ->
  forall st, openRooted cfg st ->
  openRooted cfg (fold_left (visitNeighbor cfg current) neighbors st).
Proof.
  intros Hcur. induction neighbors as [| p ps IH]; intros st Hst; simpl.
  - exact Hst.
  - apply IH. now apply visitNeighbor_openRooted.
Qed.

Lemma getAlternativePath_fromStartToGoal (cfg : Config) (alt : list Vec) :
  getAlternativePath cfg = Some alt -> fromStartToGoal cfg alt.
Proof.
  unfold getAlternativePath. intros H.
  destruct (isPathClear cfg cfg.(startPos) (midPoint cfg)) as [clear |];
    [| discriminate].
  inversion H; subst; clear H.
  now exists (if clear then [midPoint cfg] else []).
Qed.

Lemma searchLoop_result (cfg : Config) :
  forall fuel iteration st r,
    openRooted cfg st ->
    searchLoop cfg fuel iteration st = Some r ->
    r.(astar_iteration) <= iteration + fuel
    /\ fromStartToGoal cfg r.(astar_path).
Proof.
  induction fuel as [| fuel IH]; intros iteration st r Hst H; simpl in H.
  - destruct (getAlternativePath cfg) as [alt |] eqn:Ea; [| discriminate].
    inversion H; subst; simpl. split; [lia |].
    now apply getAlternativePath_fromStartToGoal.
  - destruct st.(openSet) as [| n0 open'] eqn:Eopen.
    + destruct (isPathClear cfg cfg.(startPos) cfg.(endPos)) as [[|] |];
        try discriminate.
      * inversion H; subst; simpl. split; [lia | now exists []].
      * destruct (getAlternativePath cfg) as [alt |] eqn:Ea; [| discriminate].
        inversion H; subst; simpl. split; [lia |].
        now apply getAlternativePath_fromStartToGoal.
    + destruct (scanMin (n0 :: open') 0 None) as [[[minF current] minIndex] |] eqn:Emin.
      2:{ destruct (getAlternativePath cfg) as [alt |] eqn:Ea; [| discriminate].
          inversion H; subst; simpl. split; [lia |].
          now apply getAlternativePath_fromStartToGoal. }
      assert (Hcur : rootPosition current = cfg.(startPos)).
      { apply scanMin_In in Emin. destruct Emin as [Emin | Emin]; [discriminate |].
        unfold openRooted in Hst. rewrite Eopen in Hst.
        rewrite Forall_forall in Hst. now apply Hst. }
      match type of H with
      | match ?c with _ => _ end = _ => destruct c as [[|] |]; try discriminate
      end.
      * inversion H; subst; simpl. split; [lia |].
        destruct (reconstructPath_from_root current []) as [more Hmore].
        unfold reconstructPath. rewrite Hmore, Hcur.
        now exists more.
      * destruct (getNeighbors cfg current) as [neighbors |] eqn:En; [| discriminate].
        apply IH in H.
        -- split; [lia | tauto].
        -- apply fold_visitNeighbor_openRooted; [assumption |].
           unfold openRooted; simpl. apply Forall_forall. intros n Hn.
           apply splice1_incl in Hn.
           unfold openRooted in Hst. rewrite Eopen in Hst.
           rewrite Forall_forall in Hst. now apply Hst.
Qed.


End ReconstructionFacts.

(** ** The grid planner always returns in exact arithmetic *)

Module IdealPlannerFacts.
Import Ideal.

Lemma filter_opt_total {A : Type} (f : A -> option bool) (l : list A) :
  (forall a, exists b, f a = Some b) -> exists r, filter_opt f l = Some r.
Proof.
  intros Hf. induction l as [| a l [r IH]]; simpl.
  - now exists [].
  - destruct (Hf a) as [b Hb]. rewrite Hb, IH. eexists. reflexivity.
Qed.

Section WithSqrt.
Variable sqrtQ : Q -> Q.

Local Abbreviation QN := (Q_number sqrtQ).
Local Abbreviation ConfigQ := (PathPlanningConfig Q).

Lemma isPathClear_total (cfg : ConfigQ) (a b : Vector3 Q) :
  exists clear, isPathClear (NUM := QN) cfg a b = Some clear.
Proof. unfold isPathClear. eexists. reflexivity. Qed.

Lemma getNeighbors_total (cfg : ConfigQ) (node : PathNode Q) :
  exists neighbors, getNeighbors (NUM := QN) cfg node = Some neighbors.
Proof.
  unfold getNeighbors. apply filter_opt_total. intros neighbor.
  unfold neighborOk.
  destruct (_ && _ && _); [apply isPathClear_total | now exists false].
Qed.

Lemma getAlternativePath_total (cfg : ConfigQ) :
  exists alt, getAlternativePath (NUM := QN) cfg = Some alt.
Proof.
  unfold getAlternativePath.
  destruct (isPathClear_total cfg cfg.(startPos) (midPoint (NUM := QN) cfg))
    as [clear E].
  rewrite E. eexists. reflexivity.
Qed.

Lemma searchLoop_total (cfg : ConfigQ) :
  forall fuel iteration st,
    exists r, searchLoop (NUM := QN) cfg fuel iteration st = Some r.
Proof.
  induction fuel as [| fuel IH]; intros iteration st; cbn [searchLoop].
  - destruct (getAlternativePath_total cfg) as [alt E]. rewrite E.
    eexists. reflexivity.
  - destruct st.(openSet) as [| n0 open'].
    + destruct (isPathClear_total cfg cfg.(startPos) cfg.(endPos)) as [clear E].
      rewrite E. destruct clear; [eexists; reflexivity |].
      destruct (getAlternativePath_total cfg) as [alt Ea]. rewrite Ea.
      eexists. reflexivity.
    + destruct (scanMin (NUM := QN) (n0 :: open') 0 None)
        as [[[minF current] minIndex] |].
      * assert (Hexpand :
            exists r,
              (do neighbors <- getNeighbors (NUM := QN) cfg current ;
               searchLoop (NUM := QN) cfg fuel (S iteration)
                 (fold_left (visitNeighbor (NUM := QN) cfg current) neighbors
                    {| openSet := splice1 minIndex (n0 :: open');
                       closedSet := st.(closedSet) ++ [current];
                       nodeMap := st.(nodeMap) |})) = Some r).
        { destruct (getNeighbors_total cfg current) as [neighbors En].
          rewrite En. apply IH. }
        match goal with
        | |- context [if ?c then isPathClear ?a ?b ?d else Some false] =>
            destruct c
        end.
        -- destruct (isPathClear_total cfg current.(node_position) cfg.(endPos))
             as [reached E].
           rewrite E. destruct reached; [eexists; reflexivity | exact Hexpand].
        -- exact Hexpand.
      * destruct (getAlternativePath_total cfg) as [alt Ea]. rewrite Ea.
        eexists. reflexivity.
Qed.


End WithSqrt.
End IdealPlannerFacts.

(** C6, amended.  For every arithmetic: a path of fewer than 2 points is
    returned unchanged; for a path of 2 points or more whose sampling loop
    runs [n] times, the output has [(length - 1) * n + 1] points, its last
    point is the last input point, it is longer than the input exactly
    when [n >= 2], and for [n >= 1] its first point is the spline point of
    the first segment at parameter [0 / pointsPerSegment].  In exact
    arithmetic that spline point is the first input point. *)
Theorem smoothPath_shape :
  (forall (num : Type) (NUM : Number num) (path : list (Vector3 num))
          (pointsPerSegment : num),
      (length path < 2 -> smoothPath path pointsPerSegment = Some path)
      /\ forall n,
           2 <= length path -> num_bound_lt pointsPerSegment = Some n ->
           exists out,
             smoothPath path pointsPerSegment = Some out
             /\ length out = (length path - 1) * n + 1
             /\ (forall d, last out d = last path d)
             /\ (length path < length out <-> 2 <= n)
             /\ (1 <= n -> forall d,
                   hd d out
                   = splinePoint (nth 0 path d) (nth 0 path d) (nth 1 path d)
                       (nth (Nat.min (length path - 1) 2) path d)
                       (num_div (lit 0) pointsPerSegment)))
  /\ (forall (sqrtQ : Q -> Q) (p0 p1 p2 : Vector3 Q) (k : Q),
        let first :=
          splinePoint (NUM := Ideal.Q_number sqrtQ) p0 p0 p1 p2 (0 / k)%Q in
        first.(x) == p0.(x) /\ first.(y) == p0.(y) /\ first.(z) == p0.(z))%Q.
Proof.
  split.
  - intros num NUM path k. split; [apply smoothPath_short |].
    intros n Hlen Hn.
    destruct (smoothPath_long path k n Hlen Hn) as [out [E [Hl [Hlast Hhd]]]].
    exists out. repeat split; try assumption.
    + intros H. rewrite Hl in H. nia.
    + intros H. rewrite Hl. nia.
  - intros sqrtQ p0 p1 p2 k first. subst first.
    repeat split; exact (IdealFacts.catmullRom_at_zero sqrtQ _ _ _ _ k).
Qed.


Module ScenarioFacts.
Import PrimFloat JSFloat Scenarios.
Local Open Scope float_scope.

(** *** The tree planner on its own test *)

Lemma rrt_test_iteration1 :
  rrtIteration rrt_test_config biased_random rrt_test_start
  = Some (inl rrt_test_state1).
Proof. vm_compute. reflexivity. Qed.

Lemma rrt_test_iteration2 :
  rrtIteration rrt_test_config biased_random rrt_test_state1
  = Some (inl rrt_test_state2).
Proof. vm_compute. reflexivity. Qed.

Lemma rrt_test_iteration3 :
  rrtIteration rrt_test_config biased_random rrt_test_state2
  = Some (inr rrt_test_found).
Proof. vm_compute. reflexivity. Qed.

Lemma rrt_test_tree_has_no_exit :
  everyNodeHasPredecessor rrt_test_config (fst rrt_test_found).(nodes) = true.
Proof. vm_compute. reflexivity. Qed.

Lemma rrt_test_found_in_tree :
  In (snd rrt_test_found) (fst rrt_test_found).(nodes).
Proof. simpl. right; right; right; left. reflexivity. Qed.

(** C1: on the configuration of the repository's RRT test (no obstacle,
    200 iterations allowed), when the first three draws of [Math.random] are
    below 0.1 the main loop reaches the goal in its third iteration and the
    path reconstruction then never returns, however many iterations of its
    [while] loop are allowed. *)
Theorem rrt_plan_test_scenario_never_returns (random : nat -> float) (fuel : nat) :
  (random 0%nat <? tenth) = true ->
  (random 1%nat <? tenth) = true ->
  (random 2%nat <? tenth) = true ->
  rrtPlan rrt_test_config random fuel = None.
Proof.
  intros H0 H1 H2. unfold rrtPlan.
  assert (E : rrtLoop rrt_test_config random rrt_test_config.(maxIterations)
                rrt_test_start = Some rrt_test_found).
  { change rrt_test_config.(maxIterations) with (S (S (S 197))).
    rewrite rrtLoop_S.
    rewrite (rrtIteration_goal_bias (NUM := float_number)
               rrt_test_config random biased_random
               rrt_test_start H0 eq_refl), rrt_test_iteration1.
    rewrite rrtLoop_S.
    rewrite (rrtIteration_goal_bias (NUM := float_number)
               rrt_test_config random biased_random
               rrt_test_state1 H1 eq_refl), rrt_test_iteration2.
    rewrite rrtLoop_S.
    rewrite (rrtIteration_goal_bias (NUM := float_number)
               rrt_test_config random biased_random
               rrt_test_state2 H2 eq_refl), rrt_test_iteration3.
    reflexivity. }
  change (mkRRTState [startObj rrt_test_config] 2 0) with rrt_test_start.
  rewrite E. unfold rrtReconstructPath.
  apply rrtReconstructLoop_no_exit.
  - exact rrt_test_tree_has_no_exit.
  - exact rrt_test_found_in_tree.
Qed.

Lemma rrt_plan_never_returns_witness :
  rrtPlan rrt_test_config biased_random 1000 = None.
Proof.
  apply (rrt_plan_test_scenario_never_returns biased_random 1000); reflexivity.
Defined.

(** *** The grid planner *)


Lemma far_obstacle_plan_eq :
  plan far_obstacle_config newAStarPlanner = Some far_obstacle_plan.
Proof. vm_compute. reflexivity. Qed.


Lemma plan_unclear_endpoint_witness :
  plan blocked_start_config newAStarPlanner
  = Some {| astar_path := [vec 9 0 0; vec 20 0 0];
            astar_state := newAStarPlanner;
            astar_iteration := 0 |}.
Proof.
  apply (plan_unclear_endpoint_no_search (NUM := float_number)
           blocked_start_config newAStarPlanner blocking_obstacle).
  - left. reflexivity.
  - left. vm_compute. reflexivity.
Defined.

(** C4: with no obstacle at all and the goal 100 units away, the ten
    iterations allowed run out; the segment from start to goal is clear, and
    the planner returns the detour over the raised midpoint all the same. *)
Theorem plan_exhausted_skips_direct_segment :
  isPathClear short_budget_config (vec 0 0 0) (vec 100 0 0) = Some true
  /\ option_map (fun r => (r.(astar_path), r.(astar_iteration)))
       (plan short_budget_config newAStarPlanner)
     = Some ([vec 0 0 0; vec 50 20 0; vec 100 0 0], 10%nat).
Proof. split; vm_compute; reflexivity. Qed.


(** C9: one iteration allowed, no obstacle.  The first call of [plan] on a
    new planner returns the detour; it leaves the neighbours of the start in
    the open set, and a second call on the same instance picks one of them
    and returns another path. *)
Theorem astar_second_plan_differs :
  option_map (@astar_path float) (plan one_iteration_config newAStarPlanner)
  = Some [vec 0 0 0; vec 2.5 20 0; vec 5 0 0]
  /\ option_map (@astar_path float)
       (do first <- plan one_iteration_config newAStarPlanner ;
        plan one_iteration_config first.(astar_state))
     = Some [vec 0 0 0; vec 2 0 0; vec 5 0 0].
Proof. split; vm_compute; reflexivity. Qed.

(** *** Smoothing and resampling *)

(** C6, as stated, fails: with one sample per segment the output is as long
    as the input; with none it is the last point alone; and a finite first
    coordinate whose double overflows comes out as NaN. *)
Lemma smoothPath_one_sample_not_longer :
  (exists out, smoothPath [vec 0 0 0; vec 5 5 5] 1 = Some out
               /\ ~ (length [vec 0 0 0; vec 5 5 5] < length out)%nat)
  /\ smoothPath [vec 0 0 0; vec 5 5 5] 0 = Some [vec 5 5 5]
  /\ option_map (fun out => map (@x float) (firstn 1 out))
       (smoothPath [vec huge 0 0; vec 0 0 0] 2)
     = Some [nan].
Proof.
  split; [| split; vm_compute; reflexivity].
  exists [vec 0 0 0; vec 5 5 5].
  split; [vm_compute; reflexivity | simpl; lia].
Qed.

Lemma smoothPath_shape_witness :
  exists out,
    smoothPath [vec 0 0 0; vec 5 5 5] 5 = Some out
    /\ length out = ((2 - 1) * 5 + 1)%nat
    /\ (forall d, last out d = last [vec 0 0 0; vec 5 5 5] d)
    /\ ((2 < length out)%nat <-> (2 <= 5)%nat)
    /\ ((1 <= 5)%nat -> forall d,
          hd d out
          = splinePoint (vec 0 0 0) (vec 0 0 0) (vec 5 5 5) (vec 5 5 5)
              (lit 0 / 5)).
Proof.
  apply (proj2 (proj1 smoothPath_shape float float_number
                      [vec 0 0 0; vec 5 5 5] 5) 5%nat).
  - simpl. lia.
  - vm_compute. reflexivity.
Defined.

(** C7: a path whose first two points coincide.  The first sample divides
    0 by the zero length of the first segment, and its position is NaN in
    every coordinate, not the first point of the path. *)
Theorem trajectory_first_sample_nan :
  option_map (fun traj => (length traj, map (@tp_position float) (firstn 1 traj)))
    (generateTrajectoryFromPath [vec 0 0 0; vec 0 0 0; vec 3 4 0] 10)
  = Some (100%nat, [(nan, nan, nan)]).
Proof. vm_compute. reflexivity. Qed.

(** C8: a segment of length zero.  [isPathClear] takes [steps = 0] and
    samples at [t = 0 / 0], a NaN, and reports the centre of an obstacle
    clear of it; and a start that is also the goal gives, through [planPath]
    and the resampler, 100 samples whose positions are all NaN. *)
Theorem zero_length_segment_divides_by_zero :
  lit 0 / num_ceil (distance (vec 10 0 0) (vec 10 0 0) / lit 2) = nan
  /\ isPointClear blocked_start_config (vec 10 0 0) = false
  /\ isPathClear blocked_start_config (vec 10 0 0) (vec 10 0 0) = Some true
  /\ option_map (map (@tp_position float)) (planAndResample same_point_config 10)
     = Some (repeat (nan, nan, nan) 100).
Proof. repeat split; vm_compute; reflexivity. Qed.

(** *** Exact arithmetic *)


Lemma resample_on_proper_path_witness :
  exists traj,
    generateTrajectoryFromPath (NUM := exact_number) straight_path 10%Q = Some traj
    /\ Z.of_nat (length traj)
       = Z.max 100
           (Qfloor (totalDistance (NUM := exact_number) straight_path / 10 * 10)%Q)
    /\ (exists s0 more,
          traj = s0 :: more
          /\ Ideal.sameTriple (tp_position s0) (0, 0, 0)%Q)
    /\ (forall i j si sj,
          (i <= j)%nat ->
          nth_error traj i = Some si -> nth_error traj j = Some sj ->
          (timestamp si <= timestamp sj)%Q)
    /\ (forall speed' traj',
          (10 < speed')%Q ->
          generateTrajectoryFromPath (NUM := exact_number) straight_path speed'
          = Some traj' ->
          (length traj' <= length traj)%nat).
Proof.
  apply (IdealFacts.resample_on_proper_path Ideal.Qsqrt_floor
           IdealFacts.Qsqrt_floor_nonneg
           (mkVector3 0 0 0)%Q [mkVector3 3 4 0]%Q 10%Q).
  - reflexivity.
  - intros second rest' E. inversion E; subst. reflexivity.
Defined.


Lemma reconstruction_never_ends_witness :
  rrtReconstructPath rrt_test_config (fst rrt_test_found).(nodes) 1000
    (snd rrt_test_found) = None.
Proof.
  apply (reconstruction_never_ends_in_a_connected_tree (NUM := float_number)
           rrt_test_config (fst rrt_test_found).(nodes)).
  - vm_compute. reflexivity.
  - simpl. right; right; right; left. reflexivity.
Defined.


End ScenarioFacts.

(** ** Invariants of the search of the grid planner *)

Section SearchInvariant.
Context {num : Type} {NUM : Number num}.
Local Open Scope num_scope.

Local Abbreviation Vec := (Vector3 num).
Local Abbreviation Config := (PathPlanningConfig num).
Local Abbreviation Node := (PathNode num).

Variable cfg : Config.

(** A property of nodes that the start node has and that passes from a
    node to the children [plan] builds from [getNeighbors]. *)
Variable good : Node -> Prop.

Hypothesis good_child :
  forall current neighbors neighborPos,
    good current ->
    getNeighbors cfg current = Some neighbors ->
    In neighborPos neighbors ->
    good (childNode cfg current neighborPos).

Lemma visitNeighbor_allNodes (current : Node) (st : AStarPlanner num)
    (neighborPos : Vec) :
  good (childNode cfg current neighborPos) ->
  allNodes good st -> allNodes good (visitNeighbor cfg current st neighborPos).
Proof.
  intros Hchild [Hopen Hclosed]. unfold visitNeighbor.
  assert (Hpush : allNodes good
            {| openSet := st.(openSet) ++ [childNode cfg current neighborPos];
               closedSet := st.(closedSet);
               nodeMap := nodeMap_set (getNodeKey neighborPos)
                            (childNode cfg current neighborPos) st.(nodeMap) |}).
  { split; simpl; [| assumption].
    apply Forall_app. split; [assumption |].
                 constructor; [assumption | constructor]. }
  destruct (existsb _ st.(closedSet)); [now split |].
  destruct (nodeMap_get _ st.(nodeMap)) as [existingNode |].
  - destruct (_ >=? _); [now split | exact Hpush].
  - exact Hpush.
Qed.

Lemma fold_visitNeighbor_allNodes (current : Node) (neighbors : list Vec) :
  (forall p, In p neighbors -> good (childNode cfg current p)) ->
  forall st, allNodes good st ->
  allNodes good (fold_left (visitNeighbor cfg current) neighbors st).
Proof.
  induction neighbors as [| p ps IH]; intros Hns st Hst; simpl.
  - exact Hst.
  - apply IH.
    + intros q Hq. apply Hns. now right.
    + apply visitNeighbor_allNodes; [apply Hns; now left | assumption].
Qed.

Lemma searchLoop_outcome :
  forall fuel iteration st r,
    allNodes good st ->
    searchLoop cfg fuel iteration st = Some r ->
    allNodes good r.(astar_state) /\ searchOutcome cfg r.
Proof.
  induction fuel as [| fuel IH]; intros iteration st r Hst H; simpl in H.
  - destruct (getAlternativePath cfg) as [alt |] eqn:Ea; [| discriminate].
    inversion H; subst; simpl. split; [assumption | now left].
  - destruct st.(openSet) as [| n0 open'] eqn:Eopen.
    + destruct (isPathClear cfg cfg.(startPos) cfg.(endPos)) as [[|] |] eqn:Ed;
        try discriminate.
      * inversion H; subst; simpl. split; [assumption |].
        right; left. now split.
      * destruct (getAlternativePath cfg) as [alt |] eqn:Ea; [| discriminate].
        inversion H; subst; simpl. split; [assumption | now left].
    + destruct (scanMin (n0 :: open') 0 None) as [[[minF current] minIndex] |] eqn:Emin.
      2:{ destruct (getAlternativePath cfg) as [alt |] eqn:Ea; [| discriminate].
          inversion H; subst; simpl. split; [assumption | now left]. }
      assert (Hin : In current st.(openSet)).
      { apply scanMin_In in Emin. destruct Emin as [Emin | Emin]; [discriminate |].
        now rewrite Eopen. }
      assert (Hcur : good current).
      { destruct Hst as [Hopen _]. rewrite Forall_forall in Hopen. now apply Hopen. }
      destruct (distance current.(node_position) cfg.(endPos)
                  <? cfg.(gridSize) * lit 2) eqn:Enear.
      * destruct (isPathClear cfg current.(node_position) cfg.(endPos))
          as [[|] |] eqn:Eclear; try discriminate.
        -- inversion H; subst; simpl. split; [assumption |].
           right; right. exists current. repeat split; assumption.
        -- destruct (getNeighbors cfg current) as [neighbors |] eqn:En;
             [| discriminate].
           apply IH in H; [assumption |].
           apply fold_visitNeighbor_allNodes.
           ++ intros p Hp. now apply good_child with (neighbors := neighbors).
           ++ destruct Hst as [Hopen Hclosed]. split; simpl.
              ** apply Forall_forall. intros n Hn. apply splice1_incl in Hn.
                 rewrite Eopen, Forall_forall in Hopen. now apply Hopen.
              ** apply Forall_app. split; [assumption |].
                 constructor; [assumption | constructor].
      * destruct (getNeighbors cfg current) as [neighbors |] eqn:En;
          [| discriminate].
        apply IH in H; [assumption |].
        apply fold_visitNeighbor_allNodes.
        -- intros p Hp. now apply good_child with (neighbors := neighbors).
        -- destruct Hst as [Hopen Hclosed]. split; simpl.
           ++ apply Forall_forall. intros n Hn. apply splice1_incl in Hn.
              rewrite Eopen, Forall_forall in Hopen. now apply Hopen.
           ++ apply Forall_app. split; [assumption |].
                 constructor; [assumption | constructor].
Qed.

(** The start node that [plan] pushes. *)
Hypothesis good_start :
  good {| node_position := cfg.(startPos);
          node_g := lit 0;
          node_h := distance cfg.(startPos) cfg.(endPos);
          node_parent := None |}.

Lemma plan_outcome (r : AStarResult num) :
  isPointClear cfg cfg.(startPos) = true ->
  isPointClear cfg cfg.(endPos) = true ->
  plan cfg newAStarPlanner = Some r ->
  allNodes good r.(astar_state) /\ searchOutcome cfg r.
Proof.
  intros Hs He. unfold plan. rewrite Hs, He. simpl.
  apply searchLoop_outcome.
  split; simpl; [now constructor | constructor].
Qed.

End SearchInvariant.

Section SearchFacts.
Context {num : Type} {NUM : Number num}.
Local Open Scope num_scope.

Local Abbreviation Vec := (Vector3 num).
Local Abbreviation Config := (PathPlanningConfig num).
Local Abbreviation Node := (PathNode num).

Lemma reconstructPath_from_app (node : Node) :
  forall path tail,
    reconstructPath_from node path ++ tail
    = reconstructPath_from node (path ++ tail).
Proof.
  induction node as [pos g h | pos g h parent IH] using PathNode_chain_ind;
    intros path tail; simpl.
  - reflexivity.
  - apply (IH (pos :: path) tail).
Qed.

Lemma reconstructPath_child (pos : Vec) (g h : num) (parent : Node) :
  reconstructPath (mkPathNode pos g h (Some parent))
  = reconstructPath parent ++ [pos].
Proof.
  unfold reconstructPath. simpl. now rewrite reconstructPath_from_app.
Qed.

Lemma neighborOk_inv (cfg : Config) (pos neighbor : Vec) :
  neighborOk cfg pos neighbor = Some true ->
  inBand neighbor = true /\ isPathClear cfg pos neighbor = Some true.
Proof.
  unfold neighborOk, inBand.
  destruct ((neighbor.(y) >=? lit 0) && (neighbor.(y) <=? lit 100)); simpl.
  - destruct (isPointClear cfg neighbor); [now split | discriminate].
  - discriminate.
Qed.

Lemma getNeighbors_inv (cfg : Config) (node : Node) (neighbors : list Vec)
    (p : Vec) :
  getNeighbors cfg node = Some neighbors -> In p neighbors ->
  inBand p = true /\ isPathClear cfg node.(node_position) p = Some true.
Proof.
  intros H Hp. destruct (filter_opt_In _ _ _ H p Hp) as [_ Hok].
  now apply neighborOk_inv.
Qed.

(** *** Checked segments *)

Lemma linked_segmentsChecked (cfg : Config) (node : Node) :
  forall path,
    linked cfg node ->
    segmentsChecked cfg (node.(node_position) :: path) ->
    segmentsChecked cfg (reconstructPath_from node path).
Proof.
  induction node as [pos g h | pos g h parent IH] using PathNode_chain_ind;
    intros path Hlinked Hpath.
  - exact Hpath.
  - destruct Hlinked as [Hlink Hparent].
    change (segmentsChecked cfg (reconstructPath_from parent (pos :: path))).
    apply IH; [assumption |]. split; assumption.
Qed.


(** *** The altitude band *)

Lemma chainInBand_points (cfg : Config) (node : Node) :
  forall path p,
    chainInBand cfg node ->
    In p (reconstructPath_from node path) ->
    In p path \/ p = cfg.(startPos) \/ inBand p = true.
Proof.
  induction node as [pos g h | pos g h parent IH] using PathNode_chain_ind;
    intros path p Hband Hp.
  - simpl in Hband, Hp. destruct Hp as [<- | Hp]; [right; now left | now left].
  - destruct Hband as [Hpos Hparent].
    change (In p (reconstructPath_from parent (pos :: path))) in Hp.
    destruct (IH _ _ Hparent Hp) as [[<- | Hin] | Hrest].
    + right; now right.
    + now left.
    + now right.
Qed.


(** *** The bookkeeping of costs *)

Lemma pathCost_from_snoc (l : list Vec) :
  forall prev total q p,
    pathCost_from prev (l ++ [q; p]) total
    = pathCost_from prev (l ++ [q]) total + distance q p.
Proof.
  induction l as [| a l IH]; intros prev total q p; simpl.
  - reflexivity.
  - apply IH.
Qed.

Lemma pathCost_snoc (l : list Vec) (q p : Vec) :
  pathCost (l ++ [q; p]) = pathCost (l ++ [q]) + distance q p.
Proof.
  destruct l as [| a l]; simpl.
  - reflexivity.
  - apply pathCost_from_snoc.
Qed.

Lemma reconstructPath_last (node : Node) :
  exists l, reconstructPath node = l ++ [node.(node_position)].
Proof.
  destruct node as [pos g h [parent |]].
  - exists (reconstructPath parent). apply reconstructPath_child.
  - now exists [].
Qed.

Lemma costConsistent_g (cfg : Config) (node : Node) :
  costConsistent cfg node -> node.(node_g) = pathCost (reconstructPath node).
Proof.
  induction node as [pos g h | pos g h parent IH] using PathNode_chain_ind;
    intros [Hh Hg].
  - exact Hg.
  - destruct Hg as [Hg Hparent]. simpl in Hg.
    rewrite reconstructPath_child.
    destruct (reconstructPath_last parent) as [l Hl]. rewrite Hl.
    rewrite <- app_assoc. simpl. rewrite pathCost_snoc, <- Hl, <- IH; assumption.
Qed.


End SearchFacts.

(** ** The selection loops in exact arithmetic *)

Module IdealSearchFacts.
Import Ideal.
Local Open Scope Q_scope.

Lemma Qltb_true (a b : Q) : negb (Qle_bool b a) = true <-> a < b.
Proof.
  rewrite negb_true_iff. split; intros H.
  - apply Qnot_le_lt. intros Hle. apply Qle_bool_iff in Hle. congruence.
  - destruct (Qle_bool b a) eqn:E; [| reflexivity].
    apply Qle_bool_iff in E. lra.
Qed.

Lemma Qltb_false (a b : Q) : negb (Qle_bool b a) = false <-> b <= a.
Proof.
  rewrite negb_false_iff. apply Qle_bool_iff.
Qed.

Section WithSqrt.
Variable sqrtQ : Q -> Q.

Local Abbreviation QN := (Q_number sqrtQ).
Local Abbreviation NodeQ := (PathNode Q).

Lemma scanMin_first_minimum (l : list NodeQ) :
  forall i best,
    match scanMin (NUM := QN) l i best with
    | None => best = None /\ l = []
    | Some (f, current, k) =>
        (best = Some (f, current, k)
         /\ forall n, In n l -> f <= n.(node_g) + n.(node_h))
        \/ (exists j, k = (i + j)%nat
            /\ nth_error l j = Some current
            /\ f = current.(node_g) + current.(node_h)
            /\ match best with Some (minF, _, _) => f < minF | None => True end
            /\ forall j' n, nth_error l j' = Some n ->
                 f <= n.(node_g) + n.(node_h)
                 /\ ((j' < j)%nat -> f < n.(node_g) + n.(node_h)))
    end.
Proof.
  induction l as [| n l IH]; intros i best.
  - simpl. destruct best as [[[f c] k] |]; [| now split].
    left. split; [reflexivity | intros n []].
  - cbn [scanMin].
    set (fn := (n.(node_g) + n.(node_h))%num).
    change fn with (n.(node_g) + n.(node_h)) in *.
    specialize (IH (S i)).
    destruct best as [[[fb cb] kb] |].
    + change (num_ltb (Number := QN) (n.(node_g) + n.(node_h)) fb)
        with (negb (Qle_bool fb (n.(node_g) + n.(node_h)))).
      destruct (negb (Qle_bool fb (n.(node_g) + n.(node_h)))) eqn:E.
      * apply Qltb_true in E.
        specialize (IH (Some (n.(node_g) + n.(node_h), n, i))).
        destruct (scanMin l (S i) _) as [[[f c] k] |].
        -- destruct IH as [[Hb Hall] | (j & Hk & Hnth & Hf & Hlt & Hall)].
           ++ inversion Hb; subst. right. exists 0%nat.
              repeat split; try (reflexivity || assumption).
              ** now rewrite Nat.add_0_r.
              ** destruct j' as [| j']; simpl in H.
                 --- inversion H; subst. apply Qle_refl.
                 --- apply Hall. now apply nth_error_In with (n := j').
              ** intros Hj. lia.
           ++ right. exists (S j). repeat split; try assumption.
              ** lia.
              ** lra.
              ** destruct j' as [| j']; simpl in H.
                 --- inversion H; subst. lra.
                 --- now apply (Hall j' n0).
              ** intros Hj. destruct j' as [| j']; simpl in H.
                 --- inversion H; subst. assumption.
                 --- apply (Hall j' n0 H). lia.
        -- destruct IH as [IH _]. discriminate.
      * apply Qltb_false in E. specialize (IH (Some (fb, cb, kb))).
        destruct (scanMin l (S i) _) as [[[f c] k] |].
        -- destruct IH as [[Hb Hall] | (j & Hk & Hnth & Hf & Hlt & Hall)].
           ++ inversion Hb; subst. left. split; [reflexivity |].
              intros n0 [<- | Hn0]; [assumption | now apply Hall].
           ++ right. exists (S j). repeat split; try assumption.
              ** lia.
              ** destruct j' as [| j']; simpl in H.
                 --- inversion H; subst. lra.
                 --- now apply (Hall j' n0).
              ** intros Hj. destruct j' as [| j']; simpl in H.
                 --- inversion H; subst. lra.
                 --- apply (Hall j' n0 H). lia.
        -- destruct IH as [IH _]. discriminate.
    + change (num_lt_infinity (Number := QN) (n.(node_g) + n.(node_h))) with true.
      cbv iota.
      specialize (IH (Some (n.(node_g) + n.(node_h), n, i))).
      destruct (scanMin l (S i) _) as [[[f c] k] |].
      * destruct IH as [[Hb Hall] | (j & Hk & Hnth & Hf & Hlt & Hall)].
        -- inversion Hb; subst. right. exists 0%nat.
           repeat split; try (reflexivity || assumption).
           ++ now rewrite Nat.add_0_r.
           ++ destruct j' as [| j']; simpl in H.
              ** inversion H; subst. apply Qle_refl.
              ** apply Hall. now apply nth_error_In with (n := j').
           ++ intros Hj. lia.
        -- right. exists (S j). repeat split; try assumption.
           ++ lia.
           ++ destruct j' as [| j']; simpl in H.
              ** inversion H; subst. lra.
              ** now apply (Hall j' n0).
           ++ intros Hj. destruct j' as [| j']; simpl in H.
              ** inversion H; subst. assumption.
              ** apply (Hall j' n0 H). lia.
      * destruct IH as [IH _]. discriminate.
Qed.

(** In exact arithmetic the scan of [plan] for the node to expand, on an
    open set that is not empty, always selects a node: the first node of
    the open set whose [f = g + h] is the least, with its index. *)
Theorem scanMin_selects_first_minimum (l : list NodeQ) :
  l <> [] ->
  exists f current k,
    scanMin (NUM := QN) l 0 None = Some (f, current, k)
    /\ nth_error l k = Some current
    /\ f = current.(node_g) + current.(node_h)
    /\ forall j n, nth_error l j = Some n ->
         f <= n.(node_g) + n.(node_h)
         /\ ((j < k)%nat -> f < n.(node_g) + n.(node_h)).
Proof.
  intros Hl. pose proof (scanMin_first_minimum l 0 None) as H.
  destruct (scanMin l 0 None) as [[[f current] k] |].
  - exists f, current, k. split; [reflexivity |].
    destruct H as [[Hb _] | (j & Hk & Hnth & Hf & _ & Hall)]; [discriminate |].
    simpl in Hk. subst k. repeat split; try assumption; now apply (Hall j0 n).
  - destruct H as [_ H]. contradiction.
Qed.

Lemma fold_least {A : Type} (key : A -> Q) (l : list A) :
  forall init : Q * A,
    let sel :=
      fold_left
        (fun (acc : Q * A) a =>
           let dist := key a in
           if num_ltb (Number := QN) dist (fst acc) then (dist, a) else acc)
        l init in
    (sel = init /\ forall a, In a l -> fst init <= key a)
    \/ (exists j, nth_error l j = Some (snd sel)
         /\ fst sel = key (snd sel)
         /\ fst sel < fst init
         /\ forall j' a, nth_error l j' = Some a ->
              fst sel <= key a /\ ((j' < j)%nat -> fst sel < key a)).
Proof.
  induction l as [| b l IH]; intros init; simpl.
  - left. split; [reflexivity | intros a []].
  - destruct (negb (Qle_bool (fst init) (key b))) eqn:E.
    + apply Qltb_true in E.
      destruct (IH (key b, b)) as [[Hsel Hall] | (j & Hnth & Hf & Hlt & Hall)];
        simpl in *.
      * right. exists 0%nat. rewrite Hsel. simpl.
        repeat split; try (reflexivity || assumption).
        -- destruct j' as [| j']; simpl in H.
           ++ inversion H; subst. apply Qle_refl.
           ++ apply Hall. now apply nth_error_In with (n := j').
        -- intros Hj. lia.
      * right. exists (S j). repeat split; try assumption.
        -- lra.
        -- destruct j' as [| j']; simpl in H.
           ++ inversion H; subst. lra.
           ++ now apply (Hall j' a).
        -- intros Hj. destruct j' as [| j']; simpl in H.
           ++ inversion H; subst. assumption.
           ++ apply (Hall j' a H). lia.
    + apply Qltb_false in E.
      destruct (IH init) as [[Hsel Hall] | (j & Hnth & Hf & Hlt & Hall)].
      * left. split; [assumption |].
        intros a [<- | Ha]; [assumption | now apply Hall].
      * right. exists (S j). repeat split; try assumption.
        -- destruct j' as [| j']; simpl in H.
           ++ inversion H; subst. apply Qlt_le_weak.
              now apply Qlt_le_trans with (y := fst init).
           ++ now apply (Hall j' a).
        -- intros Hj. destruct j' as [| j']; simpl in H.
           ++ inversion H; subst. now apply Qlt_le_trans with (y := fst init).
           ++ apply (Hall j' a H). lia.
Qed.

Lemma fold_least_from_first {A : Type} (key : A -> Q) (first : A) (l : list A) :
  let sel :=
    fold_left
      (fun (acc : Q * A) a =>
         let dist := key a in
         if num_ltb (Number := QN) dist (fst acc) then (dist, a) else acc)
      (first :: l) (key first, first) in
  exists k, nth_error (first :: l) k = Some (snd sel)
    /\ forall j a, nth_error (first :: l) j = Some a ->
         key (snd sel) <= key a /\ ((j < k)%nat -> key (snd sel) < key a).
Proof.
  pose proof (fold_least key (first :: l) (key first, first)) as H.
  cbv zeta in H |- *.
  destruct H as [[Hsel Hall] | (j & Hnth & Hf & Hlt & Hall)].
  - exists 0%nat. rewrite Hsel. simpl. split; [reflexivity |].
    intros j a Ha. split; [| lia].
    apply Hall. now apply nth_error_In with (n := j).
  - exists j. split; [assumption |]. rewrite <- Hf. exact Hall.
Qed.

(** In exact arithmetic [nearestNode] returns the first node of the tree at
    the least distance from the sampled point, and the scan that ends
    [RRTPlanner.plan] the first node at the least distance from the goal. *)
Theorem nearest_scans_select_first_nearest (cfg : PathPlanningConfig Q)
    (nodes : list (Obj (num := Q))) (point : Vector3 Q) :
  nodes <> [] ->
  (exists o k,
     nearestNode (NUM := QN) nodes point = Some o
     /\ nth_error nodes k = Some o
     /\ forall j n, nth_error nodes j = Some n ->
          distance (NUM := QN) point o.(obj_value)
            <= distance (NUM := QN) point n.(obj_value)
          /\ ((j < k)%nat ->
              distance (NUM := QN) point o.(obj_value)
                < distance (NUM := QN) point n.(obj_value)))
  /\ (exists o k,
        closestToGoal (NUM := QN) cfg nodes = Some o
        /\ nth_error nodes k = Some o
        /\ forall j n, nth_error nodes j = Some n ->
             distance (NUM := QN) o.(obj_value) cfg.(endPos)
               <= distance (NUM := QN) n.(obj_value) cfg.(endPos)
             /\ ((j < k)%nat ->
                 distance (NUM := QN) o.(obj_value) cfg.(endPos)
                   < distance (NUM := QN) n.(obj_value) cfg.(endPos))).
Proof.
  intros Hn. destruct nodes as [| first l]; [contradiction |]. split.
  - destruct (fold_least_from_first
                (fun node : Obj => distance (NUM := QN) point node.(obj_value))
                first l) as (k & Hnth & Hall).
    eexists; exists k. split; [reflexivity |]. split; [exact Hnth | exact Hall].
  - destruct (fold_least_from_first
                (fun node : Obj => distance (NUM := QN) node.(obj_value) cfg.(endPos))
                first l) as (k & Hnth & Hall).
    eexists; exists k. split; [reflexivity |]. split; [exact Hnth | exact Hall].
Qed.

End WithSqrt.
End IdealSearchFacts.

(** ** The tree planner: what a run returns and how the tree grows *)

Section TreeFacts.
Context {num : Type} {NUM : Number num}.
Local Open Scope num_scope.

Local Abbreviation Vec := (Vector3 num).
Local Abbreviation Config := (PathPlanningConfig num).

Lemma rrtReconstructLoop_shape (cfg : Config) (l : list Obj) :
  forall fuel current path out,
    rrtReconstructLoop cfg l fuel current path = Some out ->
    exists pts, pts <> [] /\ out = pts ++ path ++ [cfg.(endPos)].
Proof.
  induction fuel as [| fuel IH]; intros current path out H; simpl in H;
    [discriminate |].
  destruct (scanPredecessor cfg l current None) as [[[d nearest] |] |];
    try discriminate.
  - apply IH in H. destruct H as (pts & Hpts & ->).
    exists (pts ++ [current.(obj_value)]). split.
    + intros E. now apply app_eq_nil in E.
    + now rewrite <- app_assoc.
  - inversion H; subst. exists [current.(obj_value)]. split; [discriminate |].
    reflexivity.
Qed.


Lemma rrtIteration_growth (cfg : Config) (random : nat -> num) (st : RRTState)
    (r : RRTState + RRTState * Obj) :
  rrtIteration cfg random st = Some r ->
  let st' := match r with inl s => s | inr (s, _) => s end in
  (exists more, st'.(nodes) = st.(nodes) ++ more /\ length more <= 1)
  /\ st.(random_calls) < st'.(random_calls) <= st.(random_calls) + 4.
Proof.
  unfold rrtIteration. intros H.
  assert (Hcalls : st.(random_calls)
                   < (if random st.(random_calls) <? tenth
                      then S st.(random_calls) else st.(random_calls) + 4)
                   <= st.(random_calls) + 4).
  { destruct (random st.(random_calls) <? tenth); lia. }
  destruct (nearestNode st.(nodes) _) as [nearest |]; [| discriminate].
  match type of H with
  | context [step ?a ?b ?c ?d] => set (newPoint := step a b c d) in *
  end.
  destruct (if isPointClear cfg newPoint.(obj_value)
            then isPathClear cfg nearest.(obj_value) newPoint.(obj_value)
            else Some false) as [[|] |]; try discriminate.
  - match type of H with
    | match ?c with _ => _ end = _ => destruct c as [[|] |]; try discriminate
    end; inversion H; subst; simpl; (split; [| exact Hcalls]);
      exists [newPoint]; split; reflexivity || (simpl; lia).
  - inversion H; subst; simpl. split; [| exact Hcalls].
    exists []. split; [now rewrite app_nil_r | simpl; lia].
Qed.


End TreeFacts.

(** ** The points of a smoothed path, by index *)

Section SmoothingIndexFacts.
Context {num : Type} {NUM : Number num}.
Local Open Scope num_scope.

Local Abbreviation Vec := (Vector3 num).

Lemma nth_flat_map_const {A B : Type} (f : A -> list B) (n : nat) (l : list A) :
  (forall a, length (f a) = n) ->
  forall i t d a0,
    (i < length l)%nat -> (t < n)%nat ->
    nth (i * n + t)%nat (flat_map f l) d = nth t (f (nth i l a0)) d.
Proof.
  intros Hf. induction l as [| a l IH]; intros i t d a0 Hi Ht; simpl in Hi.
  - lia.
  - simpl flat_map. destruct i as [| i'].
    + simpl. apply app_nth1. now rewrite Hf.
    + rewrite app_nth2 by (rewrite Hf; simpl; lia).
      rewrite Hf. simpl nth.
      match goal with
      | |- nth ?idx _ _ = _ => replace idx with (i' * n + t)%nat by (simpl; lia)
      end.
      apply IH; lia.
Qed.

Lemma nth_smoothSegment (path : list Vec) (dflt : Vec) (k : num) (n i t : nat)
    (d : Vec) :
  (t < n)%nat ->
  nth t (smoothSegment path dflt k n i) d
  = splinePoint (nth (Nat.max 0 (i - 1)) path dflt) (nth i path dflt)
      (nth (i + 1) path dflt)
      (nth (Nat.min (length path - 1) (i + 2)) path dflt)
      (lit (Z.of_nat t) / k).
Proof.
  intros Ht. unfold smoothSegment.
  set (g := fun t0 : nat => splinePoint _ _ _ _ (lit (Z.of_nat t0) / k)).
  rewrite (nth_indep _ d (g 0%nat)) by (now rewrite length_map, length_seq).
  rewrite map_nth. rewrite seq_nth by assumption. reflexivity.
Qed.

(** The point of index [i * n + t] of a smoothed path: the spline point of
    the segment [i] at the parameter [t / pointsPerSegment]. *)
Lemma smoothPath_nth (path : list Vec) (k : num) (n i t : nat) (d : Vec) :
  num_bound_lt k = Some n ->
  (i < length path - 1)%nat -> (t < n)%nat ->
  exists out,
    smoothPath path k = Some out
    /\ nth (i * n + t)%nat out d
       = splinePoint (nth (Nat.max 0 (i - 1)) path d) (nth i path d)
           (nth (i + 1) path d)
           (nth (Nat.min (length path - 1) (i + 2)) path d)
           (lit (Z.of_nat t) / k).
Proof.
  intros Hn Hi Ht.
  destruct path as [| p [| q path']]; simpl in Hi; try lia.
  set (path := p :: q :: path') in *.
  exists (flat_map (smoothSegment path p k n) (seq 0 (length path - 1)%nat)
          ++ [nth (length path - 1)%nat path p]).
  split; [unfold smoothPath, path; now rewrite Hn |].
  assert (Hlen : length (flat_map (smoothSegment path p k n)
                           (seq 0 (length path - 1)%nat))
                 = ((length path - 1) * n)%nat).
  { rewrite (flat_map_const_length _ n), length_seq; [reflexivity |].
    intros j. apply smoothSegment_length. }
  assert (Hi' : (i < length path - 1)%nat) by (subst path; simpl; lia).
  rewrite app_nth1 by (rewrite Hlen; nia).
  rewrite (nth_flat_map_const _ n) with (a0 := 0%nat);
    [| intros j; apply smoothSegment_length | now rewrite length_seq | assumption].
  rewrite seq_nth by assumption. simpl plus.
  rewrite nth_smoothSegment by assumption.
  assert (Hnth : forall j, (j < length path)%nat -> nth j path p = nth j path d).
  { intros j Hj. now apply nth_indep. }
  rewrite !Hnth; [reflexivity | | | |]; lia.
Qed.

End SmoothingIndexFacts.

Module IdealSmoothingFacts.
Import Ideal.
Local Open Scope Q_scope.

Lemma Qceiling_pos (k : Q) : 0 < k -> (1 <= Z.to_nat (Qceiling k))%nat.
Proof.
  intros Hk. pose proof (Qle_ceiling k) as Hc.
  assert (H : (0 < Qceiling k)%Z).
  { rewrite Zlt_Qlt. apply Qlt_le_trans with (y := k); assumption. }
  lia.
Qed.

(** In exact arithmetic, for a positive number of samples per segment, a
    smoothed path passes through every point of the input path: the point
    of index [i * n] of the output, [n] the number of samples taken on each
    segment, is the point of index [i] of the input. *)
Theorem smoothPath_passes_through_waypoints (sqrtQ : Q -> Q)
    (path : list (Vector3 Q)) (k : Q) (i : nat) (d : Vector3 Q) :
  (2 <= length path)%nat -> 0 < k -> (i < length path)%nat ->
  exists out,
    smoothPath (NUM := Q_number sqrtQ) path k = Some out
    /\ (nth (i * Z.to_nat (Qceiling k)) out d).(x) == (nth i path d).(x)
    /\ (nth (i * Z.to_nat (Qceiling k)) out d).(y) == (nth i path d).(y)
    /\ (nth (i * Z.to_nat (Qceiling k)) out d).(z) == (nth i path d).(z).
Proof.
  intros Hlen Hk Hi.
  set (n := Z.to_nat (Qceiling k)).
  assert (Hn : (1 <= n)%nat) by now apply Qceiling_pos.
  assert (Hb : num_bound_lt (Number := Q_number sqrtQ) k = Some n) by reflexivity.
  destruct (smoothPath_long (NUM := Q_number sqrtQ) path k n Hlen Hb)
    as (out & Hout & Hl & Hlast & _).
  exists out. split; [exact Hout |].
  destruct (Nat.eq_dec i (length path - 1)) as [-> | Hne].
  - assert (E : nth ((length path - 1) * n) out d = nth (length path - 1) path d).
    { replace ((length path - 1) * n)%nat with (length out - 1)%nat
        by (rewrite Hl; apply Nat.add_sub).
      rewrite (nth_pred_length_last out d d), (nth_pred_length_last path d d).
      + apply Hlast.
      + destruct path; [simpl in Hlen; lia | discriminate].
      + destruct out; [| discriminate].
        simpl in Hl. rewrite Nat.add_1_r in Hl. discriminate. }
    rewrite E. repeat split; reflexivity.
  - destruct (smoothPath_nth (NUM := Q_number sqrtQ) path k n i 0 d Hb)
      as (out' & Hout' & Hnth); [lia | lia |].
    rewrite Hout in Hout'. inversion Hout'; subst out'.
    rewrite Nat.add_0_r in Hnth. rewrite Hnth.
    repeat split; exact (IdealFacts.catmullRom_at_zero sqrtQ _ _ _ _ k).
Qed.

End IdealSmoothingFacts.

(** ** [planPath]: a planner followed by the smoothing *)

Section PlanPathFacts.
Context {num : Type} {NUM : Number num}.
Local Open Scope num_scope.

Local Abbreviation Vec := (Vector3 num).
Local Abbreviation Config := (PathPlanningConfig num).

Lemma plan_fromStartToGoal (cfg : Config) (r : AStarResult num) :
  plan cfg newAStarPlanner = Some r -> fromStartToGoal cfg r.(astar_path).
Proof.
  unfold plan. intros H.
  destruct (negb (isPointClear cfg cfg.(startPos))
            || negb (isPointClear cfg cfg.(endPos))).
  - inversion H; subst; simpl. now exists [].
  - apply searchLoop_result in H; [apply H |].
    unfold openRooted; simpl. constructor; [reflexivity | constructor].
Qed.

(** The path handed to [smoothPath] has two points or more, the first is
    the start for the grid planner, and the last is the goal. *)
Lemma planned_path_ends (cfg : Config) (algorithm : Algorithm)
    (random : nat -> num) (fuel : nat) (path : list Vec) :
  match algorithm with
  | rrt => rrtPlan cfg random fuel
  | astar => option_map (@astar_path num) (plan cfg newAStarPlanner)
  end = Some path ->
  2 <= length path
  /\ (forall d, last path d = cfg.(endPos))
  /\ (algorithm = astar -> forall d, nth 0 path d = cfg.(startPos)).
Proof.
  destruct algorithm; intros H.
  - destruct (plan cfg newAStarPlanner) as [r |] eqn:Er; [| discriminate].
    inversion H; subst. apply plan_fromStartToGoal in Er.
    destruct Er as [between ->]. split; [| split].
    + simpl. rewrite length_app. simpl. lia.
    + intros d. change (cfg.(startPos) :: between ++ [cfg.(endPos)])
        with ((cfg.(startPos) :: between) ++ [cfg.(endPos)]).
      apply last_last.
    + reflexivity.
  - clear -H. unfold rrtPlan, rrtReconstructPath in H.
    destruct (rrtLoop cfg random cfg.(maxIterations) _) as [[st o] |];
      [| discriminate].
    apply rrtReconstructLoop_shape in H. destruct H as (pts & Hpts & ->).
    simpl. split; [| split].
    + rewrite length_app. simpl. destruct pts; [congruence | simpl; lia].
    + intros d. apply last_last.
    + discriminate.
Qed.

Lemma planPath_shape_for (obstacles : list (Obstacle num))
    (startPos endPos : num * num * num) (algorithm : Algorithm)
    (random : nat -> num) (fuel : nat) (out : list Vec) :
  num_bound_lt (lit 20) = Some 20 ->
  planPath obstacles startPos endPos algorithm random fuel = Some out ->
  (exists m, 1 <= m /\ length out = (20 * m + 1)%nat)
  /\ forall d,
       last out d
       = mkVector3 (fst (fst endPos)) (snd (fst endPos)) (snd endPos).
Proof.
  intros Hb. unfold planPath.
  set (cfg := planPathConfig obstacles startPos endPos).
  destruct (match algorithm with
            | rrt => rrtPlan cfg random fuel
            | astar => option_map (@astar_path num) (plan cfg newAStarPlanner)
            end) as [path |] eqn:Ep; [| discriminate].
  intros Hs. apply planned_path_ends in Ep. destruct Ep as (Hlen & Hlast & _).
  destruct (smoothPath_long path (lit 20) 20 Hlen Hb)
    as (out' & Hout & Hl & Hlast' & _).
  rewrite Hout in Hs. inversion Hs; subst out'. split.
  - exists (length path - 1)%nat. split; lia.
  - intros d. now rewrite Hlast'.
Qed.

End PlanPathFacts.

Module PlanPathFloatFacts.
Import PrimFloat JSFloat.


End PlanPathFloatFacts.

Module PlanPathIdealFacts.
Import Ideal.
Local Open Scope Q_scope.

(** In exact arithmetic [planPath] with the grid planner returns for every
    scene and every pair of positions; the result has 21 points or more,
    starts at the requested start position and ends at the requested end
    position. *)
Theorem planPath_astar_in_exact_arithmetic (sqrtQ : Q -> Q)
    (obstacles : list (Obstacle Q)) (startPos endPos : Q * Q * Q)
    (random : nat -> Q) (fuel : nat) :
  exists out,
    planPath (NUM := Q_number sqrtQ) obstacles startPos endPos astar random fuel
    = Some out
    /\ (21 <= length out)%nat
    /\ forall d,
         (hd d out).(x) == fst (fst startPos)
         /\ (hd d out).(y) == snd (fst startPos)
         /\ (hd d out).(z) == snd startPos
         /\ last out d
            = mkVector3 (fst (fst endPos)) (snd (fst endPos)) (snd endPos).
Proof.
  unfold planPath.
  set (cfg := planPathConfig (NUM := Q_number sqrtQ) obstacles startPos endPos).
  assert (Hplan : exists r, plan (NUM := Q_number sqrtQ) cfg newAStarPlanner = Some r).
  { unfold plan.
    destruct (negb _ || negb _); [eexists; reflexivity |].
    apply IdealPlannerFacts.searchLoop_total. }
  destruct Hplan as [r Hr]. rewrite Hr. simpl option_map. cbv iota beta.
  destruct (planned_path_ends (NUM := Q_number sqrtQ) cfg astar random fuel
              r.(astar_path)) as (Hlen & Hlast & Hfirst).
  { simpl. now rewrite Hr. }
  set (twenty := @num_of_Z Q (Q_number sqrtQ) 20).
  assert (Hb : num_bound_lt (Number := Q_number sqrtQ) twenty = Some 20%nat)
    by reflexivity.
  destruct (smoothPath_long (NUM := Q_number sqrtQ) r.(astar_path) twenty 20
              Hlen Hb) as (out & Hout & Hl & Hlast' & Hhd).
  exists out. split; [exact Hout |]. split; [lia |].
  assert (H20 : (1 <= 20)%nat) by lia.
  intros d. rewrite (Hhd H20 d), (Hfirst eq_refl d).
  repeat split;
    try exact (IdealFacts.catmullRom_at_zero sqrtQ _ _ _ _ twenty).
  now rewrite Hlast'.
Qed.

End PlanPathIdealFacts.

(** ** The resampler at the edges, on doubles *)

Module ResamplerEdgeFacts.
Import PrimFloat SpecFloat FloatOps FloatAxioms JSFloat.
Local Open Scope float_scope.

Lemma Prim2SF_zero : Prim2SF 0 = S754_zero false.
Proof. reflexivity. Qed.

(** A positive double, or plus infinity, divided by [+0] is plus infinity. *)
Lemma div_pos_zero (d : float) : (0 <? d) = true -> d / 0 = infinity.
Proof.
  rewrite ltb_spec, Prim2SF_zero. intros H.
  apply Prim2SF_inj. rewrite div_spec, Prim2SF_zero.
  destruct (Prim2SF d) as [s | s | | s m e]; try discriminate;
    destruct s; try discriminate; reflexivity.
Qed.

(** [+0] divided by a double: NaN for a zero or a NaN, a zero otherwise. *)
Lemma div_zero_by (speed : float) :
  if (speed <? 0) || (0 <? speed)
  then 0 / speed = 0 \/ 0 / speed = neg_zero
  else 0 / speed = nan.
Proof.
  rewrite !ltb_spec, Prim2SF_zero.
  assert (E : Prim2SF (0 / speed) = SF64div (S754_zero false) (Prim2SF speed)).
  { now rewrite div_spec, Prim2SF_zero. }
  destruct (Prim2SF speed) as [s | s | | s m e]; simpl.
  - apply Prim2SF_inj. now rewrite E.
  - destruct s; simpl; [right | left]; apply Prim2SF_inj; now rewrite E.
  - apply Prim2SF_inj. now rewrite E.
  - destruct s; simpl; [right | left]; apply Prim2SF_inj; now rewrite E.
Qed.

(** On doubles, with the speed [0]: on a path of positive (or infinite)
    length the number of samples is infinite and the sampling loop of
    [generateTrajectoryFromPath] never ends; on a path of at most one point
    the total time is NaN and the result is the empty trajectory. *)
Theorem resample_at_speed_zero (path : list (Vector3 float)) :
  ((0 <? totalDistance path) = true ->
   generateTrajectoryFromPath path 0 = None)
  /\ (length path <= 1 -> generateTrajectoryFromPath path 0 = Some []).
Proof.
  split.
  - intros H. unfold generateTrajectoryFromPath.
    change (num_div (totalDistance path) 0) with (totalDistance path / 0).
    rewrite (div_pos_zero _ H). reflexivity.
  - intros H. destruct path as [| p [| q path]]; [reflexivity | reflexivity |].
    simpl in H. lia.
Qed.

(** On doubles, on the empty path: for every speed other than zero and
    NaN the call does not return a value ([path[0]] is [undefined] and
    reading [position.x] throws); for a speed that is zero or NaN the total
    time is NaN, no sample is taken and the result is the empty
    trajectory. *)
Theorem resample_empty_path (speed : float) :
  generateTrajectoryFromPath [] speed
  = if (speed <? 0) || (0 <? speed) then None else Some [].
Proof.
  unfold generateTrajectoryFromPath.
  change (num_div (totalDistance []) speed) with (0 / speed).
  pose proof (div_zero_by speed) as H.
  destruct ((speed <? 0) || (0 <? speed)).
  - destruct H as [-> | ->]; reflexivity.
  - rewrite H. reflexivity.
Qed.

End ResamplerEdgeFacts.

(** ** The drone state and the trajectory of the simulator *)

Section SimulatorStateFacts.
Context {num : Type} {NUM : Number num} {MATH : MathLib num}.
Import DroneSimulatorV2.

Local Abbreviation Simulator := (@DroneSimulatorV2.Simulator num).
Local Abbreviation DroneState := (@DroneSimulatorV2.DroneState num).
Local Abbreviation PartialDroneState := (@DroneSimulatorV2.PartialDroneState num).
Local Abbreviation Event := (@DroneSimulatorV2.Event num).
Local Abbreviation Store := (@DroneSimulatorV2.Store num).
Local Abbreviation TrajectoryPoint := (@TrajectoryPoint num).

Lemma spreadField_twice {A : Type} (v : option A) (a b : Field A) :
  spreadField (spreadField v a) b = spreadField v (spreadPartialField a b).
Proof. destruct b; reflexivity. Qed.

Lemma spread_twice (s : DroneState) (a b : PartialDroneState) :
  spread (spread s a) b = spread s (spreadPartial a b).
Proof.
  unfold spread, spreadPartial. simpl. now rewrite !spreadField_twice.
Qed.

Lemma setDroneState_droneState (state : PartialDroneState) (sim : Simulator) :
  (fst (setDroneState state sim)).(droneState) = spread sim.(droneState) state.
Proof.
  unfold setDroneState.
  destruct (spread sim.(droneState) state).(position); [| reflexivity].
  destruct (spread sim.(droneState) state).(rotation); reflexivity.
Qed.

(** Two calls of [setDroneState] in a row leave the drone state that one
    call with the spread of the two arguments leaves, and the second
    completes exactly when that call completes; when it completes, the
    simulators are the same, and the position and the rotation of the
    drone in the scene are those of the drone state. *)
Theorem setDroneState_twice (a b : PartialDroneState) (sim : Simulator) :
  let once := setDroneState (spreadPartial a b) sim in
  let twice := setDroneState b (fst (setDroneState a sim)) in
  (fst twice).(droneState) = (fst once).(droneState)
  /\ snd twice = snd once
  /\ (snd once = true ->
      fst twice = fst once
      /\ (fst once).(droneState).(position) = Some (fst once).(dronePosition)
      /\ (fst once).(droneState).(rotation) = Some (fst once).(droneRotation)).
Proof.
  cbv zeta. unfold setDroneState.
  destruct (spread sim.(droneState) a).(position) as [pa |];
    [destruct (spread sim.(droneState) a).(rotation) as [ra |] |];
    cbn [fst snd droneState dronePosition droneRotation cameraPosition
         viewMode trajectoryPoints trajectoryLine mouseDown mouseX mouseY
         targetRotationX targetRotationY rotationX rotationY distance
         targetDistance panX panY targetPanX targetPanY];
    rewrite spread_twice;
    (destruct (spread sim.(droneState) (spreadPartial a b)).(position)
       as [p |] eqn:Ep;
     [destruct (spread sim.(droneState) (spreadPartial a b)).(rotation)
        as [r |] eqn:Er |]);
    cbn [fst snd droneState dronePosition droneRotation];
    (split; [reflexivity |]); (split; [reflexivity |]);
    intros H; try discriminate; repeat split; assumption.
Qed.

(** *** The trajectory arrays *)

Lemma readArray_pushAt_same (store : Store) :
  forall ref point,
    ref < length store ->
    readArray (pushAt store ref point) ref = readArray store ref ++ [point].
Proof.
  induction store as [| array store IH]; intros ref point Href; simpl in Href.
  - lia.
  - destruct ref as [| ref]; simpl; [reflexivity |].
    apply IH. lia.
Qed.

Lemma readArray_pushAt_other (store : Store) :
  forall ref other point,
    other <> ref ->
    readArray (pushAt store ref point) other = readArray store other.
Proof.
  induction store as [| array store IH]; intros ref other point Hne; simpl.
  - reflexivity.
  - destruct ref as [| ref], other as [| other]; simpl;
      try reflexivity; try congruence.
    apply IH. congruence.
Qed.

Lemma length_pushAt (store : Store) :
  forall ref point, length (pushAt store ref point) = length store.
Proof.
  induction store as [| array store IH]; intros ref point; simpl.
  - reflexivity.
  - destruct ref; simpl; [reflexivity | now rewrite IH].
Qed.

Lemma readArray_alloc (store : Store) (ref : nat) :
  readArray (store ++ [[]]) ref = readArray store ref.
Proof.
  unfold readArray. destruct (Nat.lt_ge_cases ref (length store)) as [H | H].
  - now apply app_nth1.
  - rewrite (nth_overflow store) by assumption.
    rewrite app_nth2 by assumption.
    destruct (ref - length store) as [| [| k]]; reflexivity.
Qed.

(** The array given to [setTrajectory] is the array of the simulator:
    [getTrajectoryPoints] returns it, [addTrajectoryPoint] appends to it
    and to no other array, and the line is rebuilt from it.  After
    [clearTrajectory] the simulator has a new, empty array: a point added
    then goes to that array and the array given before keeps its
    points. *)
Theorem trajectory_array_is_shared (store : Store) (sim : Simulator)
    (points : nat) (point point' : TrajectoryPoint) :
  points < length store ->
  let '(store1, sim1) := setTrajectory points store sim in
  let '(store2, sim2) := addTrajectoryPoint point store1 sim1 in
  let '(store3, sim3) := clearTrajectory store2 sim2 in
  let '(store4, sim4) := addTrajectoryPoint point' store3 sim3 in
  getTrajectoryPoints sim1 = points
  /\ getTrajectoryPoints sim2 = points
  /\ readArray store2 points = readArray store points ++ [point]
  /\ (forall other, other <> points ->
        readArray store2 other = readArray store other)
  /\ sim2.(trajectoryLine)
     = Some (linePositions (readArray store points ++ [point]))
  /\ getTrajectoryPoints sim3 = length store
  /\ readArray store3 (getTrajectoryPoints sim3) = []
  /\ sim3.(trajectoryLine) = None
  /\ readArray store4 (getTrajectoryPoints sim4) = [point']
  /\ readArray store4 points = readArray store points ++ [point].
Proof.
  intros Hp. unfold setTrajectory, addTrajectoryPoint, clearTrajectory.
  cbn [updateTrajectoryVisualization withTrajectory trajectoryPoints
       trajectoryLine getTrajectoryPoints fst snd].
  rewrite !length_pushAt.
  assert (Hsame : readArray (pushAt store points point) points
                  = readArray store points ++ [point])
    by now apply readArray_pushAt_same.
  repeat split; try assumption.
  - intros other Ho. now apply readArray_pushAt_other.
  - now rewrite Hsame.
  - rewrite readArray_alloc. unfold readArray.
    apply nth_overflow. now rewrite length_pushAt.
  - rewrite readArray_pushAt_same
      by (rewrite length_app, length_pushAt; simpl; lia).
    rewrite readArray_alloc. unfold readArray.
    rewrite nth_overflow by (now rewrite length_pushAt). reflexivity.
  - rewrite readArray_pushAt_other by lia.
    now rewrite readArray_alloc.
Qed.

(** *** The views *)

Lemma handle_keeps_view (sim : Simulator) (event : Event) :
  noViewChange [event] = true ->
  (handle sim event).(viewMode) = sim.(viewMode).
Proof.
  destruct sim as [ds dp dr cam mode tp tl md mx my trx try_ rx ry d td px py tpx tpy].
  destruct event; simpl; try discriminate; intros _; try reflexivity.
  - unfold animate. simpl.
    destruct mode; try reflexivity.
    unfold updateCameraPosition. simpl.
    now destruct dp as [[dx dy] dz].
  - unfold onMouseMove. simpl.
    destruct md, mode; try reflexivity.
    destruct buttons as [| [| [| [| [| b]]]]]; reflexivity.
  - unfold setDroneState. simpl.
    destruct (spreadField _ _); [| reflexivity].
    destruct (spreadField _ _); reflexivity.
Qed.

Lemma handle_keeps_camera (sim : Simulator) (event : Event) :
  noViewChange [event] = true ->
  sim.(viewMode) = top \/ sim.(viewMode) = side \/ sim.(viewMode) = isometric ->
  (handle sim event).(cameraPosition) = sim.(cameraPosition).
Proof.
  destruct sim as [ds dp dr cam mode tp tl md mx my trx try_ rx ry d td px py tpx tpy].
  simpl. intros Hev Hmode.
  destruct event; simpl in *; try discriminate; try reflexivity.
  - unfold animate. simpl. destruct Hmode as [-> | [-> | ->]]; reflexivity.
  - unfold onMouseMove. simpl.
    destruct md; [| reflexivity].
    destruct Hmode as [-> | [-> | ->]]; reflexivity.
  - unfold setDroneState. simpl.
    destruct (spreadField _ _); [| reflexivity].
    destruct (spreadField _ _); reflexivity.
Qed.

Lemma run_keeps_view (events : list Event) :
  forall sim,
    noViewChange events = true ->
    (run events sim).(viewMode) = sim.(viewMode).
Proof.
  unfold run. induction events as [| event events IH]; intros sim Hev;
    [reflexivity |].
  simpl in Hev. apply andb_true_iff in Hev. destruct Hev as [He Hevs].
  simpl. rewrite IH by assumption.
  apply handle_keeps_view. simpl. now rewrite He.
Qed.

Lemma run_keeps_camera (events : list Event) :
  forall sim,
    noViewChange events = true ->
    sim.(viewMode) = top \/ sim.(viewMode) = side \/ sim.(viewMode) = isometric ->
    (run events sim).(cameraPosition) = sim.(cameraPosition).
Proof.
  unfold run. induction events as [| event events IH]; intros sim Hev Hmode;
    [reflexivity |].
  simpl in Hev. apply andb_true_iff in Hev. destruct Hev as [He Hevs].
  assert (He1 : noViewChange [event] = true) by (simpl; now rewrite He).
  simpl. rewrite IH.
  - now apply handle_keeps_camera.
  - assumption.
  - now rewrite handle_keeps_view.
Qed.

(** In the views "top", "side" and "isometric" the camera is placed once,
    by [setViewMode], from the position the drone has then: no frame, no
    mouse event and no later [setDroneState] moves it, wherever the drone
    goes, until the next [setViewMode].  In the view "follow" every frame
    places it from the position the drone has at that frame. *)
Theorem fixed_views_do_not_follow (sim : Simulator) (events : list Event) :
  noViewChange events = true ->
  let '(dx, dy, dz) := sim.(dronePosition) in
  (run events (setViewMode top sim)).(cameraPosition)
  = (dx, num_add dy (lit 50), dz)
  /\ (run events (setViewMode side sim)).(cameraPosition)
     = (num_add dx (lit 50), dy, dz)
  /\ (run events (setViewMode isometric sim)).(cameraPosition)
     = (num_add dx (num_mul (lit 50) sevenTenths),
        num_add dy (num_mul (lit 50) sevenTenths),
        num_add dz (num_mul (lit 50) sevenTenths))
  /\ let '(fx, fy, fz) :=
       (run events (setViewMode follow sim)).(dronePosition) in
     (run (events ++ [Frame]) (setViewMode follow sim)).(cameraPosition)
     = (num_sub fx (lit 30), num_add fy (lit 20), num_sub fz (lit 30)).
Proof.
  intros Hev.
  destruct sim.(dronePosition) as [[dx dy] dz] eqn:Edp.
  repeat split.
  - rewrite run_keeps_camera; [| assumption |].
    + unfold setViewMode, updateCameraPosition. simpl. now rewrite Edp.
    + left. unfold setViewMode, updateCameraPosition. simpl. now rewrite Edp.
  - rewrite run_keeps_camera; [| assumption |].
    + unfold setViewMode, updateCameraPosition. simpl. now rewrite Edp.
    + right; left. unfold setViewMode, updateCameraPosition. simpl.
      now rewrite Edp.
  - rewrite run_keeps_camera; [| assumption |].
    + unfold setViewMode, updateCameraPosition. simpl. now rewrite Edp.
    + right; right. unfold setViewMode, updateCameraPosition. simpl.
      now rewrite Edp.
  - unfold run at 2. rewrite fold_left_app. fold (run events (setViewMode follow sim)).
    assert (Hview : (run events (setViewMode follow sim)).(viewMode) = follow).
    { rewrite run_keeps_view by assumption.
      unfold setViewMode, updateCameraPosition. simpl. now rewrite Edp. }
    generalize dependent (run events (setViewMode follow sim)).
    intros s Hs.
    destruct s as [ds [[fx fy] fz] dr cam vm tp tl md mx my trx try_ rx ry
                    d td px py tpx tpy].
    simpl in Hs. subst vm. reflexivity.
Qed.

End SimulatorStateFacts.

(** ** The free camera in exact arithmetic *)

Module IdealCameraFacts.
Import DroneSimulatorV2.
Local Open Scope Q_scope.

Section WithMath.
Variables sqrtQ sinQ cosQ : Q -> Q.
Variable piQ : Q.
Hypothesis piQ_nonneg : 0 <= piQ.

Local Abbreviation QN := (Ideal.Q_number sqrtQ).
Local Abbreviation QM := (IdealMath.Q_math sinQ cosQ piQ).
Local Abbreviation SimQ := (@DroneSimulatorV2.Simulator Q).
Local Abbreviation EventQ := (@DroneSimulatorV2.Event Q).

Lemma clamp_range (lo hi v : Q) :
  lo <= hi ->
  lo <= num_max (Number := QN) lo (math_min (MathLib := QM) hi v) <= hi.
Proof.
  intros Hlh. simpl.
  destruct (Qle_bool hi v) eqn:E1.
  - destruct (Qle_bool lo hi) eqn:E2.
    + split; [assumption | apply Qle_refl].
    + apply Qle_bool_iff in Hlh. congruence.
  - assert (Hv : v < hi).
    { apply Qnot_le_lt. intros H. apply Qle_bool_iff in H. congruence. }
    destruct (Qle_bool lo v) eqn:E2.
    + apply Qle_bool_iff in E2. split; [assumption | now apply Qlt_le_weak].
    + split; [apply Qle_refl | assumption].
Qed.

Lemma approach_range (lo hi v target : Q) :
  lo <= v <= hi -> lo <= target <= hi ->
  lo <= approach (NUM := QN) v target <= hi.
Proof.
  intros [Hv1 Hv2] [Ht1 Ht2]. unfold approach, tenth. simpl.
  assert (E : v + (target - v) * (1 / 10) == (9 # 10) * v + (1 # 10) * target)
    by field.
  change (inject_Z 1 / inject_Z 10) with (1 / 10).
  rewrite E. split; lra.
Qed.

Lemma half_turn_bounds : - piQ / 2 <= piQ / 2.
Proof.
  apply Qle_shift_div_l; [reflexivity |].
  assert (E : - piQ / 2 * 2 == - piQ) by field. rewrite E. lra.
Qed.

Lemma handle_cameraInRange (sim : SimQ) (event : EventQ) :
  cameraInRange piQ sim ->
  cameraInRange piQ (handle (NUM := QN) (MATH := QM) sim event).
Proof.
  destruct sim as [ds dp dr cam mode tp tl md mx my trx try_ rx ry d td
                    px py tpx tpy].
  unfold cameraInRange. cbn [targetDistance distance targetRotationX rotationX].
  intros (Htd & Hd & Htrx & Hrx).
  destruct event; cbn [handle].
  - unfold animate. cbn [viewMode].
    destruct mode; try (repeat split; tauto).
    + unfold updateFreeCamera.
      cbn [targetDistance distance targetRotationX rotationX cameraTarget].
      split; [assumption |]. split; [now apply approach_range |].
      split; [assumption |]. now apply approach_range.
    + unfold updateCameraPosition. cbn [dronePosition viewMode].
      destruct dp as [[dx dy] dz]. repeat split; tauto.
  - repeat split; tauto.
  - unfold onMouseMove. cbn [mouseDown viewMode].
    destruct md; [| repeat split; tauto].
    destruct mode; try (repeat split; tauto).
    destruct buttons as [| [| [| [| [| b]]]]];
      cbn [withMouse withTargets targetDistance distance targetRotationX
           rotationX mouseDown];
      try (repeat split; tauto).
    split; [assumption |]. split; [assumption |]. split; [| assumption].
    apply (clamp_range (- piQ / 2) (piQ / 2)). apply half_turn_bounds.
  - repeat split; tauto.
  - repeat split; tauto.
  - unfold onWheel.
    cbn [withTargets targetDistance distance targetRotationX rotationX].
    split; [| repeat split; tauto].
    apply (clamp_range 10 200). discriminate.
  - unfold setViewMode.
    destruct mode0; unfold updateCameraPosition; cbn [dronePosition viewMode];
      destruct dp as [[dx dy] dz]; repeat split; tauto.
  - unfold setDroneState. cbn [droneState].
    destruct (spread ds state).(position); [| repeat split; tauto].
    destruct (spread ds state).(rotation); repeat split; tauto.
Qed.

(** In exact arithmetic, after the construction of the simulator and any
    sequence of frames, mouse events and calls of [setViewMode] and
    [setDroneState], the distance of the free camera and its target
    distance are between 10 and 200, and its rotation about the X axis and
    its target rotation are between [-Math.PI / 2] and [Math.PI / 2]. *)
Theorem free_camera_stays_in_range (store : DroneSimulatorV2.Store)
    (events : list EventQ) :
  let sim :=
    run (NUM := QN) (MATH := QM) events
      (snd (newSimulator (NUM := QN) (MATH := QM) store)) in
  (10 <= sim.(targetDistance) <= 200 /\ 10 <= sim.(distance) <= 200)
  /\ (- piQ / 2 <= sim.(targetRotationX) <= piQ / 2
      /\ - piQ / 2 <= sim.(rotationX) <= piQ / 2).
Proof.
  cbv zeta.
  assert (Hinit : cameraInRange piQ
                    (snd (newSimulator (NUM := QN) (MATH := QM) store))).
  { unfold newSimulator. cbn [snd].
    apply (handle_cameraInRange _ Frame).
    pose proof half_turn_bounds as Hh.
    assert (E : - piQ / 2 <= 0 <= piQ / 2).
    { split.
      - apply Qle_shift_div_r; [reflexivity | lra].
      - apply Qle_shift_div_l; [reflexivity | lra]. }
    unfold cameraInRange, initialFields.
    cbn [targetDistance distance targetRotationX rotationX].
    repeat split; try discriminate; apply E. }
  revert Hinit. generalize (snd (newSimulator (NUM := QN) (MATH := QM) store)).
  unfold run. induction events as [| event events IH]; intros sim Hsim.
  - destruct Hsim as (H1 & H2 & H3 & H4). simpl. tauto.
  - simpl. apply IH. now apply handle_cameraInRange.
Qed.

End WithMath.
End IdealCameraFacts.

(** ** The tree planner in exact arithmetic *)

Module IdealTreeFacts.
Import Ideal IdealTree.
Local Open Scope Q_scope.

Lemma squares_zero (a b c : Q) :
  a * a + b * b + c * c <= 0 -> a == 0 /\ b == 0 /\ c == 0.
Proof.
  intros H.
  assert (Ha : 0 <= a * a) by nra.
  assert (Hb : 0 <= b * b) by nra.
  assert (Hc : 0 <= c * c) by nra.
  repeat split; nra.
Qed.

Lemma forallb_ext_in {A : Type} (f g : A -> bool) (l : list A) :
  (forall a, In a l -> f a = g a) -> forallb f l = forallb g l.
Proof.
  induction l as [| a l IH]; intros H; simpl; [reflexivity |].
  rewrite (H a) by now left. rewrite IH; [reflexivity |].
  intros b Hb. apply H. now right.
Qed.

(** A test holds at every index below [n] when it holds at every mirrored
    index. *)
Lemma forallb_seq_mirror (f : nat -> bool) (n : nat) :
  forallb f (seq 0 n) = forallb (fun i => f (n - 1 - i)%nat) (seq 0 n).
Proof.
  apply eq_true_iff_eq. rewrite !forallb_forall. split; intros H i Hi.
  - apply H. apply in_seq. apply in_seq in Hi. lia.
  - apply in_seq in Hi.
    replace i with (n - 1 - (n - 1 - i))%nat by lia.
    apply H. apply in_seq. lia.
Qed.

Lemma Qle_bool_proper (a a' b b' : Q) :
  a == a' -> b == b' -> Qle_bool a b = Qle_bool a' b'.
Proof.
  intros Ha Hb. apply eq_true_iff_eq. rewrite !Qle_bool_iff.
  rewrite Ha, Hb. reflexivity.
Qed.

Section WithSqrt.
Variable sqrtQ : Q -> Q.
Hypothesis sqrtQ_proper : forall a b, a == b -> sqrtQ a == sqrtQ b.
Hypothesis sqrtQ_nonneg : forall a, 0 <= sqrtQ a.
Hypothesis sqrtQ_pos : forall a, 0 < a -> 0 < sqrtQ a.

Local Abbreviation QN := (Q_number sqrtQ).
Local Abbreviation VecQ := (Vector3 Q).
Local Abbreviation ConfigQ := (PathPlanningConfig Q).

Lemma distance_proper (a a' b b' : VecQ) :
  sameVector a a' -> sameVector b b' ->
  distance (NUM := QN) a b == distance (NUM := QN) a' b'.
Proof.
  intros (Hx & Hy & Hz) (Hx' & Hy' & Hz'). unfold distance. simpl.
  apply sqrtQ_proper. rewrite Hx, Hy, Hz, Hx', Hy', Hz'. reflexivity.
Qed.

Lemma distance_sym (a b : VecQ) :
  distance (NUM := QN) a b == distance (NUM := QN) b a.
Proof.
  unfold distance. simpl. apply sqrtQ_proper. ring.
Qed.

Lemma distance_zero (a b : VecQ) :
  distance (NUM := QN) a b <= 0 -> sameVector a b.
Proof.
  unfold distance. simpl. intros H.
  set (s := (x a - x b) * (x a - x b) + (y a - y b) * (y a - y b)
            + (z a - z b) * (z a - z b)) in *.
  assert (Hs : s <= 0).
  { apply Qnot_lt_le. intros Hpos. apply sqrtQ_pos in Hpos. lra. }
  apply squares_zero in Hs. destruct Hs as (Hx & Hy & Hz).
  unfold sameVector. repeat split; lra.
Qed.

Lemma isPointClear_proper (cfg : ConfigQ) (p q : VecQ) :
  sameVector p q ->
  isPointClear (NUM := QN) cfg p = isPointClear (NUM := QN) cfg q.
Proof.
  intros Hpq. unfold isPointClear. apply forallb_ext_in.
  intros obstacle _. unfold tooClose. simpl. f_equal. f_equal.
  apply Qle_bool_proper; [reflexivity |].
  apply distance_proper; [assumption |].
  repeat split; reflexivity.
Qed.

Lemma distance_not_negative (a b : VecQ) : 0 <= distance (NUM := QN) a b.
Proof. unfold distance. simpl. apply sqrtQ_nonneg. Qed.

(** The number of the last sample of [isPathClear]. *)
Lemma steps_nonneg (a b : VecQ) :
  (0 <= Qceiling (distance (NUM := QN) a b / 2))%Z.
Proof.
  change 0%Z with (Qceiling 0). apply Qceiling_resp_le.
  pose proof (distance_not_negative a b) as H.
  apply Qle_shift_div_l; [reflexivity | lra].
Qed.

Lemma isPathClear_samples (cfg : ConfigQ) (a b : VecQ) :
  isPathClear (NUM := QN) cfg a b
  = Some (forallb
            (fun i =>
               isPointClear (NUM := QN) cfg
                 (interpolate (NUM := QN) a b
                    (inject_Z (Z.of_nat i)
                     / inject_Z (Qceiling (distance (NUM := QN) a b / 2)))))
            (seq 0 (Z.to_nat (Qceiling (distance (NUM := QN) a b / 2) + 1)))).
Proof.
  unfold isPathClear. cbn [num_bound_le num_ceil Q_number].
  now rewrite Qfloor_Z.
Qed.

Lemma interpolate_mirror (a b : VecQ) (c k : Z) :
  (0 < c)%Z ->
  sameVector
    (interpolate (NUM := QN) a b (inject_Z (c - k) / inject_Z c))
    (interpolate (NUM := QN) b a (inject_Z k / inject_Z c)).
Proof.
  intros Hc.
  assert (Hc' : ~ inject_Z c == 0).
  { intros E. unfold Qeq in E. simpl in E. lia. }
  assert (Ek : inject_Z (c - k) == inject_Z c - inject_Z k).
  { unfold Z.sub. rewrite inject_Z_plus, inject_Z_opp. reflexivity. }
  unfold sameVector, interpolate. simpl.
  rewrite Ek. repeat split; field; assumption.
Qed.

Lemma isPathClear_sym (cfg : ConfigQ) (a b : VecQ) :
  isPathClear (NUM := QN) cfg a b = isPathClear (NUM := QN) cfg b a.
Proof.
  rewrite !isPathClear_samples.
  assert (Ec : Qceiling (distance (NUM := QN) b a / 2)
               = Qceiling (distance (NUM := QN) a b / 2)).
  { apply Qceiling_comp. now rewrite (distance_sym b a). }
  rewrite Ec.
  pose proof (steps_nonneg a b) as Hc.
  set (c := Qceiling (distance (NUM := QN) a b / 2)) in *.
  f_equal. rewrite forallb_seq_mirror.
  apply forallb_ext_in. intros i Hi. apply in_seq in Hi.
  apply isPointClear_proper.
  destruct (Z.eq_dec c 0) as [E0 | Hne].
  - assert (Hab : sameVector a b).
    { apply distance_zero.
      pose proof (Qle_ceiling (distance (NUM := QN) a b / 2)) as Hle.
      fold c in Hle. rewrite E0 in Hle.
      assert (E : distance (NUM := QN) a b
                  == distance (NUM := QN) a b / 2 * 2) by field.
      rewrite E. change (inject_Z 0) with 0 in Hle. nra. }
    destruct Hab as (Hx & Hy & Hz).
    rewrite E0. unfold sameVector, interpolate. simpl.
    assert (Ez : forall k, inject_Z k / inject_Z 0 == 0).
    { intros k. unfold Qdiv. change (/ inject_Z 0) with 0. ring. }
    rewrite !Ez. repeat split; lra.
  - replace (Z.of_nat (Z.to_nat (c + 1) - 1 - i)) with (c - Z.of_nat i)%Z by lia.
    apply interpolate_mirror. lia.
Qed.

(** In exact arithmetic the segment test does not depend on the direction
    of travel: [isPathClear(a, b)] and [isPathClear(b, a)] take the same
    samples. *)
Theorem segment_test_is_symmetric (cfg : ConfigQ) (a b : VecQ) :
  isPathClear (NUM := QN) cfg a b = isPathClear (NUM := QN) cfg b a
  /\ distance (NUM := QN) a b == distance (NUM := QN) b a.
Proof.
  split; [apply isPathClear_sym | apply distance_sym].
Qed.

Lemma isPathClear_returns (cfg : ConfigQ) (a b : VecQ) :
  exists clear, isPathClear (NUM := QN) cfg a b = Some clear.
Proof. rewrite isPathClear_samples. eexists. reflexivity. Qed.

(** The scan of [reconstructPath] selects a node as soon as one node other
    than [current] has a clear segment to it. *)
Lemma scanPredecessor_finds (cfg : ConfigQ) (current : Obj) (l : list Obj) :
  forall best,
    (best <> None
     \/ exists node, In node l
          /\ same_object node current = false
          /\ isPathClear (NUM := QN) cfg node.(obj_value) current.(obj_value)
             = Some true) ->
    exists found, scanPredecessor (NUM := QN) cfg l current best = Some (Some found).
Proof.
  induction l as [| node l IH]; intros best H; cbn [scanPredecessor].
  - destruct H as [H | (node & [] & _)].
    destruct best as [found |]; [now exists found | congruence].
  - destruct (same_object node current) eqn:Esame.
    + apply IH. destruct H as [H | (m & [<- | Hm] & Hdiff & Hclear)].
      * now left.
      * congruence.
      * right. now exists m.
    + destruct (isPathClear_returns cfg node.(obj_value) current.(obj_value))
        as [clear Eclear].
      destruct best as [[minDist bestNode] |].
      * destruct (num_ltb _ minDist); [rewrite Eclear |]; apply IH; left;
          [destruct clear |]; discriminate.
      * change (num_lt_infinity (Number := QN) _) with true. cbv iota.
        rewrite Eclear. destruct clear.
        -- apply IH. left. discriminate.
        -- apply IH. destruct H as [H | (m & [<- | Hm] & Hdiff & Hclear)].
           ++ congruence.
           ++ congruence.
           ++ right. now exists m.
Qed.

Lemma connected_everyNodeHasPredecessor (cfg : ConfigQ) (l : list Obj) :
  connected sqrtQ cfg l ->
  everyNodeHasPredecessor (NUM := QN) cfg l = true.
Proof.
  intros Hc. unfold everyNodeHasPredecessor. apply forallb_forall.
  intros current Hin.
  destruct (scanPredecessor_finds cfg current l None) as [found E].
  - right. apply Hc. exact Hin.
  - now rewrite E.
Qed.

Lemma step_identity (from to : Obj) (stepSize : Q) (fresh : nat) :
  step (NUM := QN) from to stepSize fresh = to
  \/ (step (NUM := QN) from to stepSize fresh).(obj_id) = fresh.
Proof.
  unfold step. destruct (num_ltb _ stepSize); [now left | now right].
Qed.

Lemma rrtIteration_invariant (cfg : ConfigQ) (random : nat -> Q)
    (st : RRTState) (r : RRTState + RRTState * Obj) :
  treeInvariant sqrtQ cfg st ->
  rrtIteration (NUM := QN) cfg random st = Some r ->
  match r with
  | inl st' => treeInvariant sqrtQ cfg st'
  | inr (st', o) => treeInvariant sqrtQ cfg st' /\ In o st'.(nodes)
  end.
Proof.
  intros ((Hnext & Hids) & Hstart & Htree). unfold rrtIteration.
  set (goalBias := num_ltb (random st.(random_calls)) tenth).
  set (randomObj := if goalBias then endObj cfg
                    else mkObj st.(next_id)
                           (randomPoint random (S st.(random_calls)))).
  set (next1 := if goalBias then st.(next_id) else S st.(next_id)).
  destruct (nearestNode st.(nodes) randomObj.(obj_value)) as [nearest |] eqn:En;
    [| discriminate].
  apply nearestNode_In in En.
  set (newPoint := step nearest randomObj (cfg.(gridSize) * lit 2)%num next1).
  assert (Hnext1 : (st.(next_id) <= next1)%nat)
    by (unfold next1; destruct goalBias; lia).
  (* the identity of the new point *)
  assert (Hnew : (newPoint = endObj cfg
                  \/ (st.(next_id) <= newPoint.(obj_id) < S next1)%nat)).
  { assert (Hstep : newPoint = randomObj \/ newPoint.(obj_id) = next1)
      by (unfold newPoint; apply step_identity).
    destruct Hstep as [E | E].
    - rewrite E. unfold randomObj, next1. destruct goalBias; [now left |].
      right. simpl. lia.
    - right. lia. }
  assert (Hnew0 : newPoint.(obj_id) <> 0%nat)
    by (destruct Hnew as [-> | H]; [discriminate | lia]).
  (* the state after a rejected sample *)
  assert (Hrejected : treeInvariant sqrtQ cfg
                        (mkRRTState st.(nodes) (S next1)
                           (if goalBias then S st.(random_calls)
                            else (st.(random_calls) + 4)%nat))).
  { split; [| split; assumption]. split; simpl; [lia |].
    intros node Hnode. destruct (Hids node Hnode) as (H1 & H2 & H3).
    repeat split; try assumption. lia. }
  (* the state after an accepted sample *)
  assert (Haccepted :
            isPathClear (NUM := QN) cfg nearest.(obj_value) newPoint.(obj_value)
            = Some true ->
            treeInvariant sqrtQ cfg
              (mkRRTState (st.(nodes) ++ [newPoint]) (S next1)
                 (if goalBias then S st.(random_calls)
                  else (st.(random_calls) + 4)%nat))).
  { intros Hclear. split; [| split].
    - split; simpl; [lia |].
      intros node Hnode. apply in_app_or in Hnode.
      destruct Hnode as [Hnode | [<- | []]].
      + destruct (Hids node Hnode) as (H1 & H2 & H3).
        repeat split; try assumption. lia.
      + destruct Hnew as [E | Hrange].
        * rewrite E. simpl. repeat split; try discriminate; try reflexivity. lia.
        * repeat split; lia.
    - simpl. apply in_or_app. now left.
    - right. simpl. intros current Hcur. apply in_app_or in Hcur.
      assert (Hpred_new :
                same_object nearest newPoint = false ->
                exists node, In node (st.(nodes) ++ [newPoint])
                  /\ same_object node newPoint = false
                  /\ isPathClear (NUM := QN) cfg node.(obj_value)
                       newPoint.(obj_value) = Some true).
      { intros Hdiff. exists nearest. split; [| split]; try assumption.
        apply in_or_app. now left. }
      destruct Htree as [Hsingle | Hconn].
      + (* the tree was the start alone *)
        rewrite Hsingle in En. destruct En as [<- | []].
        assert (Hdiff : same_object (startObj cfg) newPoint = false).
        { unfold same_object. apply Nat.eqb_neq. simpl. congruence. }
        destruct Hcur as [Hcur | [<- | []]].
        * rewrite Hsingle in Hcur. destruct Hcur as [<- | []].
          exists newPoint. split; [apply in_or_app; right; now left |].
          split.
          -- unfold same_object. apply Nat.eqb_neq. simpl. assumption.
          -- now rewrite isPathClear_sym.
        * now apply Hpred_new.
      + destruct Hcur as [Hcur | [<- | []]].
        * destruct (Hconn current Hcur) as (node & Hnode & Hdiff & Hc).
          exists node. split; [apply in_or_app; now left | now split].
        * destruct (same_object nearest newPoint) eqn:Esame;
            [| now apply Hpred_new].
          unfold same_object in Esame. apply Nat.eqb_eq in Esame.
          destruct (Hids nearest En) as (H1 & H2 & H3).
          assert (Eend : newPoint = endObj cfg)
            by (destruct Hnew as [E | Hrange]; [assumption | lia]).
          assert (Enear : nearest = endObj cfg)
            by (apply H3; rewrite Esame, Eend; reflexivity).
          rewrite Eend. rewrite Enear in En.
          destruct (Hconn (endObj cfg) En) as (node & Hnode & Hdiff & Hc).
          exists node. split; [apply in_or_app; now left | now split]. }
  fold newPoint.
  destruct (isPointClear cfg newPoint.(obj_value)).
  - destruct (isPathClear cfg nearest.(obj_value) newPoint.(obj_value))
      as [[|] |] eqn:Eclear; try discriminate.
    + match goal with
      | |- match ?c with _ => _ end = _ -> _ =>
          destruct c as [[|] |]; try discriminate
      end; intros H; inversion H; subst.
      * split; [now apply Haccepted |]. simpl. apply in_or_app. right. now left.
      * now apply Haccepted.
    + intros H. inversion H; subst. exact Hrejected.
  - intros H. inversion H; subst. exact Hrejected.
Qed.

Lemma rrtLoop_invariant (cfg : ConfigQ) (random : nat -> Q) :
  forall iterations st st' o,
    treeInvariant sqrtQ cfg st ->
    rrtLoop (NUM := QN) cfg random iterations st = Some (st', o) ->
    treeInvariant sqrtQ cfg st' /\ In o st'.(nodes).
Proof.
  induction iterations as [| k IH]; intros st st' o Hst H; simpl in H.
  - destruct (closestToGoal cfg st.(nodes)) as [closest |] eqn:Ec; [| discriminate].
    inversion H; subst. split; [assumption |].
    exact (closestToGoal_In (NUM := QN) cfg _ _ Ec).
  - destruct (rrtIteration cfg random st) as [r |] eqn:Er; [| discriminate].
    pose proof (rrtIteration_invariant cfg random st r Hst Er) as Hr.
    destruct r as [st1 | [st1 o1]].
    + now apply IH with (st := st1).
    + inversion H; subst. exact Hr.
Qed.

(** In exact arithmetic, with a square root that is non-negative, positive
    on positive numbers and gives equal results on equal numbers:
    whenever [RRTPlanner.plan] returns, it returns [[start; goal]].  As soon
    as one sampled point has been accepted into the tree every node has
    another node with a clear segment to it (the segment test is
    symmetric), and [reconstructPath] never returns. *)
Theorem rrtPlan_returns_only_the_direct_path (cfg : ConfigQ)
    (random : nat -> Q) (fuel : nat) (path : list VecQ) :
  rrtPlan (NUM := QN) cfg random fuel = Some path ->
  path = [cfg.(startPos); cfg.(endPos)].
Proof.
  unfold rrtPlan, rrtReconstructPath. intros H.
  destruct (rrtLoop cfg random cfg.(maxIterations) _) as [[st o] |] eqn:El;
    [| discriminate].
  apply rrtLoop_invariant in El.
  - destruct El as ((_ & _ & [Hsingle | Hconn]) & Ho); simpl in H.
    + rewrite Hsingle in H, Ho. destruct Ho as [<- | []].
      destruct fuel as [| fuel]; [discriminate |].
      simpl in H. now inversion H.
    + rewrite (rrtReconstructLoop_no_exit cfg st.(nodes)) in H;
        [discriminate | | assumption].
      now apply connected_everyNodeHasPredecessor.
  - split; [| split].
    + split; simpl; [lia |].
      intros node [<- | []]. simpl. repeat split; try discriminate. lia.
    + now left.
    + now left.
Qed.

End WithSqrt.

Lemma Qsqrt_floor_red_proper (a b : Q) :
  a == b -> Qsqrt_floor_red a == Qsqrt_floor_red b.
Proof.
  intros H. unfold Qsqrt_floor_red.
  now rewrite (Qred_complete a b H).
Qed.

Lemma Qsqrt_floor_red_nonneg (a : Q) : 0 <= Qsqrt_floor_red a.
Proof. apply IdealFacts.Qsqrt_floor_nonneg. Qed.

Lemma Qsqrt_floor_red_pos (a : Q) : 0 < a -> 0 < Qsqrt_floor_red a.
Proof.
  intros H. rewrite <- (Qred_correct a) in H.
  unfold Qsqrt_floor_red, Qsqrt_floor.
  destruct (Qred a) as [n d]. unfold Qlt in *. simpl in *.
  rewrite Z.mul_1_r in *.
  assert (Hs : (0 < Z.sqrt (n * Z.pos d))%Z).
  { apply Z.sqrt_pos. nia. }
  lia.
Qed.

End IdealTreeFacts.

(** ** The first version of the planners *)

Section FirstVersionFacts.
Context {num : Type} {NUM : Number num} {MATH : MathLib num}.
Local Open Scope num_scope.

Local Abbreviation Vec := (Vector3 num).
Local Abbreviation Config := (PathPlanningConfig num).
Local Abbreviation Node := (PathNode num).

Lemma first_getNeighbors_checked (cfg : Config) (current : Node) (p : Vec) :
  FirstVersion.chainChecked cfg current ->
  In p (FirstVersion.getNeighbors cfg current) ->
  FirstVersion.chainChecked cfg (FirstVersion.neighborNode cfg current p).
Proof.
  intros Hcur Hp. unfold FirstVersion.getNeighbors in Hp.
  apply filter_In in Hp. destruct Hp as [_ Hok].
  unfold FirstVersion.neighborOk in Hok.
  apply andb_true_iff in Hok. destruct Hok as [Hok Hy2].
  apply andb_true_iff in Hok. destruct Hok as [Hclear Hy1].
  simpl. repeat split; assumption.
Qed.

Lemma first_searchLoop_result (cfg : Config) :
  forall fuel st path st',
    Forall (FirstVersion.chainChecked cfg) st.(FirstVersion.openSet) ->
    FirstVersion.searchLoop cfg fuel st = (path, st') ->
    path = [cfg.(startPos); cfg.(endPos)]
    \/ exists current,
         path = reconstructPath current
         /\ (distance current.(node_position) cfg.(endPos) <? cfg.(gridSize)) = true
         /\ FirstVersion.chainChecked cfg current.
Proof.
  induction fuel as [| fuel IH]; intros st path st' Hst H; simpl in H.
  - inversion H. now left.
  - destruct st.(FirstVersion.openSet) as [| n0 open'] eqn:Eopen.
    + inversion H. now left.
    + destruct (scanMin (n0 :: open') 0 None) as [[[minF current] minIndex] |]
        eqn:Emin; [| inversion H; now left].
      assert (Hcur : FirstVersion.chainChecked cfg current).
      { apply scanMin_In in Emin. destruct Emin as [Emin | Emin]; [discriminate |].
        rewrite Forall_forall in Hst. now apply Hst. }
      destruct (distance current.(node_position) cfg.(endPos) <? cfg.(gridSize))
        eqn:Enear.
      * inversion H; subst. right. exists current. repeat split; assumption.
      * apply IH in H; [assumption |]. simpl.
        apply Forall_app. split.
        -- apply Forall_forall. intros n Hn. apply splice1_incl in Hn.
           rewrite Forall_forall in Hst. now apply Hst.
        -- apply Forall_forall. intros n Hn. apply in_map_iff in Hn.
           destruct Hn as (p & <- & Hp).
           now apply first_getNeighbors_checked.
Qed.

Lemma chainChecked_path (cfg : Config) (node : Node) :
  FirstVersion.chainChecked cfg node ->
  (forall d, hd d (reconstructPath node) = cfg.(startPos))
  /\ FirstVersion.segmentsClear cfg (reconstructPath node)
  /\ forall p, In p (reconstructPath node) ->
       p = cfg.(startPos)
       \/ ((p.(y) >=? lit 0) = true
           /\ (p.(y) <=? cfg.(gridSize) * lit 10) = true).
Proof.
  induction node as [pos g h | pos g h parent IH] using PathNode_chain_ind;
    intros Hc.
  - simpl in Hc. subst pos. unfold reconstructPath. simpl.
    repeat split; try tauto. intros p [<- | []]. now left.
  - destruct Hc as (Hclear & Hy1 & Hy2 & Hparent).
    destruct (IH Hparent) as (Hhd & Hseg & Hband).
    rewrite reconstructPath_child.
    destruct (reconstructPath_last parent) as [l Hl].
    simpl in Hclear. rewrite Hl in *. split; [| split].
    + intros d. specialize (Hhd d). destruct l; simpl in *; assumption.
    + clear -Hseg Hclear. induction l as [| a l IHl]; simpl in *.
      * split; [assumption | exact I].
      * destruct (l ++ [parent.(node_position)]) as [| b rest] eqn:E.
        -- now destruct l.
        -- destruct Hseg as [Hab Hrest]. split; [assumption |].
           simpl. apply IHl. exact Hrest.
    + intros p Hp. apply in_app_or in Hp. destruct Hp as [Hp | [<- | []]].
      * now apply Hband.
      * right. now split.
Qed.


(** *** The tree planner of the first version *)

Lemma scanTowardsGoal_clear (cfg : Config) (current : Obj) (l : list Obj) :
  forall best d chosen,
    FirstVersion.scanTowardsGoal cfg l current best = Some (d, chosen) ->
    best = Some (d, chosen)
    \/ (In chosen l
        /\ FirstVersion.isPathClear cfg current.(obj_value) chosen.(obj_value)
           = true).
Proof.
  induction l as [| node l IH]; intros best d chosen H; simpl in H.
  - now left.
  - apply IH in H. destruct H as [H | [Hin Hc]]; [| right; split; [now right | assumption]].
    match type of H with
    | (if ?c then _ else _) = _ => destruct c eqn:Ec
    end.
    + inversion H; subst. apply andb_true_iff in Ec. destruct Ec as [_ Ec].
      right. split; [now left | assumption].
    + now left.
Qed.

Lemma segmentsClear_snoc (cfg : Config) (l : list Vec) (a b : Vec) :
  FirstVersion.segmentsClear cfg (l ++ [a]) ->
  FirstVersion.isPathClear cfg a b = true ->
  FirstVersion.segmentsClear cfg (l ++ [a; b]).
Proof.
  intros Hl Hab. induction l as [| c l IH]; simpl in *.
  - split; [assumption | exact I].
  - destruct (l ++ [a]) as [| e rest] eqn:E; [now destruct l |].
    destruct Hl as [Hce Hrest].
    destruct (l ++ [a; b]) as [| e' rest'] eqn:E'; [now destruct l |].
    assert (e' = e).
    { destruct l; simpl in *; congruence. }
    subst e'. split; [assumption |]. now apply IH.
Qed.

Lemma first_reconstructLoop_path (cfg : Config) (nodes : list Obj) :
  forall fuel current visited out,
    FirstVersion.segmentsClear cfg (rev (current.(obj_value) :: visited)) ->
    FirstVersion.reconstructLoop cfg nodes fuel current
      (current.(obj_value) :: visited) = Some out ->
    exists path,
      out = path ++ [cfg.(endPos)]
      /\ FirstVersion.segmentsClear cfg path
      /\ exists more, path = rev visited ++ current.(obj_value) :: more.
Proof.
  induction fuel as [| fuel IH]; intros current visited out Hseg H;
    simpl in H; [discriminate |].
  assert (Hstop : Some (rev visited ++ [current.(obj_value)] ++ [cfg.(endPos)])
                  = Some out ->
                  exists path,
                    out = path ++ [cfg.(endPos)]
                    /\ FirstVersion.segmentsClear cfg path
                    /\ exists more,
                         path = rev visited ++ current.(obj_value) :: more).
  { intros E. inversion E. exists (rev visited ++ [current.(obj_value)]).
    split; [now rewrite <- app_assoc |]. split; [exact Hseg |]. now exists []. }
  rewrite <- app_assoc in H.
  destruct (cfg.(gridSize) * lit 2 <? distance current.(obj_value) cfg.(endPos));
    [| now apply Hstop].
  destruct (FirstVersion.scanTowardsGoal cfg nodes current None)
    as [[d chosen] |] eqn:Escan; [| now apply Hstop].
  destruct (same_object chosen current); [now apply Hstop |].
  apply scanTowardsGoal_clear in Escan.
  destruct Escan as [Escan | [_ Hclear]]; [discriminate |].
  apply IH in H.
  - destruct H as (path & Hout & Hpath & more & Hmore).
    exists path. split; [assumption |]. split; [assumption |].
    exists (chosen.(obj_value) :: more). rewrite Hmore. simpl.
    now rewrite <- app_assoc.
  - simpl. simpl in Hseg. rewrite <- app_assoc. simpl.
    now apply segmentsClear_snoc.
Qed.

(** The first version of the tree planner: whenever [plan] returns, the
    path goes from the start to the goal, and each of its segments but the
    last, which ends at the appended goal, has passed the segment test. *)
Theorem first_version_rrtPlan_path (cfg : Config) (random : nat -> num)
    (fuel : nat) (out : list Vec) :
  FirstVersion.rrtPlan cfg random fuel = Some out ->
  exists between,
    out = cfg.(startPos) :: between ++ [cfg.(endPos)]
    /\ FirstVersion.segmentsClear cfg (cfg.(startPos) :: between).
Proof.
  unfold FirstVersion.rrtPlan, FirstVersion.rrtReconstructPath. intros H.
  destruct (FirstVersion.rrtLoop cfg random cfg.(maxIterations) _)
    as [[st found] |]; [| discriminate].
  simpl in H. destruct found.
  - apply (first_reconstructLoop_path cfg st.(nodes) fuel (startObj cfg) []) in H.
    + destruct H as (path & -> & Hpath & more & ->).
      exists more. split; [reflexivity | exact Hpath].
    + simpl. exact I.
  - inversion H. exists []. split; [reflexivity | simpl; exact I].
Qed.

End FirstVersionFacts.

(** ** The generated trajectory in exact arithmetic *)

Module GeneratedTrajectoryFacts.
Import AlgorithmParser.
Local Open Scope Q_scope.

Section WithMath.
Variables sqrtQ sinQ cosQ : Q -> Q.
Variable piQ : Q.
Hypothesis sinQ_range : forall a, -1 <= sinQ a <= 1.
Hypothesis cosQ_range : forall a, -1 <= cosQ a <= 1.

Local Abbreviation QN := (Ideal.Q_number sqrtQ).
Local Abbreviation QM := (IdealMath.Q_math sinQ cosQ piQ).
Local Abbreviation ConfigQ := (@AlgorithmConfig Q).

Lemma progress_range (i : nat) :
  (i < 500)%nat -> 0 <= inject_Z (Z.of_nat i) / 500 < 1.
Proof.
  intros Hi.
  assert (H0 : 0 <= inject_Z (Z.of_nat i)).
  { change 0 with (inject_Z 0). rewrite <- Zle_Qle. lia. }
  assert (H1 : inject_Z (Z.of_nat i) < 500).
  { change 500 with (inject_Z 500). rewrite <- Zlt_Qlt. lia. }
  split.
  - apply Qle_shift_div_l; [reflexivity | lra].
  - apply Qlt_shift_div_r; [reflexivity | lra].
Qed.

Lemma radius_range (p : Q) :
  0 <= p < 1 -> 0 <= 30 * (1 - Qabs (p - (1 / 2)) * 2) <= 30.
Proof.
  intros [H0 H1].
  assert (Eh : 1 / 2 == 1 # 2) by reflexivity.
  set (h := 1 / 2) in *.
  assert (Ha : 0 <= Qabs (p - h)) by apply Qabs_nonneg.
  assert (Hb : Qabs (p - h) <= h).
  { apply Qabs_Qle_condition. split; lra. }
  split; lra.
Qed.

Lemma product_range (c r : Q) :
  -1 <= c <= 1 -> 0 <= r <= 30 -> -30 <= c * r <= 30.
Proof. intros [Hc1 Hc2] [Hr1 Hr2]. split; nra. Qed.

(** [generateTrajectory] in exact arithmetic, for every sine and cosine
    with values between -1 and 1: it returns 500 points, and the point of
    index [i] has the timestamp [i / 10], which is below 50; its [x] and
    [z] are within 30 of those of [initialPosition]; its height is not
    negative, and is at most the initial height plus 40 when that is not
    negative; its velocity is at most [maxSpeed], and is not negative when
    [maxSpeed] is not. *)
Theorem generated_trajectory_envelope (config : ConfigQ) :
  length (generateTrajectory (NUM := QN) (MATH := QM) config) = 500%nat
  /\ forall i point,
       nth_error (generateTrajectory (NUM := QN) (MATH := QM) config) i
       = Some point ->
       let '(ix, iy, iz) := config.(initialPosition) in
       let '(px, py, pz) := point.(tp_position) in
       point.(timestamp) == inject_Z (Z.of_nat i) / 10
       /\ point.(timestamp) < 50
       /\ ix - 30 <= px <= ix + 30
       /\ iz - 30 <= pz <= iz + 30
       /\ 0 <= py
       /\ (0 <= iy + 40 -> py <= iy + 40)
       /\ point.(velocity) <= config.(maxSpeed)
       /\ (0 <= config.(maxSpeed) -> 0 <= point.(velocity)).
Proof.
  split; [unfold generateTrajectory; now rewrite length_map, length_seq |].
  intros i point Hnth. unfold generateTrajectory in Hnth.
  rewrite nth_error_map in Hnth.
  destruct (nth_error (seq 0 500) i) as [j |] eqn:Ej; [| discriminate].
  assert (Hi : (i < length (seq 0 500))%nat).
  { apply nth_error_Some. congruence. }
  rewrite length_seq in Hi.
  rewrite nth_error_seq in Ej.
  assert (j = i).
  { destruct (Nat.ltb_spec i 500) as [_ | Hge]; [| lia].
    rewrite Nat.add_0_l in Ej. congruence. }
  subst j. cbn [option_map] in Hnth. injection Hnth as <-. clear Ej.
  destruct config as [[[ix iy] iz] iv ma ms ws gr].
  unfold generatedPoint, half.
  cbn [tp_position timestamp velocity initialPosition maxSpeed fst snd
       num_of_Z num_add num_sub num_mul num_div num_max
       math_min math_abs math_sin math_cos math_PI
       Ideal.Q_number IdealMath.Q_math].
  change (inject_Z 500) with 500. change (inject_Z 50) with 50.
  change (inject_Z 30) with 30. change (inject_Z 40) with 40.
  change (inject_Z 4) with 4. change (inject_Z 2) with 2.
  change (inject_Z 1) with 1. change (inject_Z 0) with 0.
  pose proof (progress_range i Hi) as Hp.
  set (p := inject_Z (Z.of_nat i) / 500) in *.
  pose proof (radius_range p Hp) as Hr.
  set (r := 30 * (1 - Qabs (p - 1 / 2) * 2)) in *.
  pose proof (sinQ_range (p * piQ)) as Hs.
  pose proof (product_range (cosQ (p * piQ * 4)) r (cosQ_range _) Hr) as Hx.
  pose proof (product_range (sinQ (p * piQ * 4)) r (sinQ_range _) Hr) as Hz.
  assert (Et : p * 50 == inject_Z (Z.of_nat i) / 10) by (unfold p; field).
  assert (Eh : 1 / 2 == 1 # 2) by reflexivity.
  set (h := 1 / 2) in *.
  repeat split.
  - exact Et.
  - destruct Hp as [_ Hp]. nra.
  - lra.
  - lra.
  - lra.
  - lra.
  - destruct (Qle_bool 0 (iy + sinQ (p * piQ) * 40)) eqn:E.
    + now apply Qle_bool_iff.
    + apply Qle_refl.
  - intros Hiy. destruct (Qle_bool 0 (iy + sinQ (p * piQ) * 40)); lra.
  - destruct (Qle_bool (ms * (h + h * sinQ (p * piQ))) ms) eqn:E.
    + now apply Qle_bool_iff.
    + apply Qle_refl.
  - intros Hms.
    destruct (Qle_bool (ms * (h + h * sinQ (p * piQ))) ms); [| assumption].
    nra.
Qed.

End WithMath.
End GeneratedTrajectoryFacts.

(** ** The tree planner of the first version in exact arithmetic *)

Module FirstVersionTreeFacts.
Import Ideal IdealTree.
Local Open Scope Q_scope.

Section WithSqrt.
Variable sqrtQ : Q -> Q.
Hypothesis sqrtQ_proper : forall a b, a == b -> sqrtQ a == sqrtQ b.
Variable MATH : MathLib Q.

Local Abbreviation QN := (Q_number sqrtQ).
Local Abbreviation VecQ := (Vector3 Q).
Local Abbreviation ConfigQ := (PathPlanningConfig Q).
Local Abbreviation ObjQ := (@Obj Q).

(** The distance to the goal, the segment test from [current], the
    distance to the goal of the node of index [i], and the order in which
    [reconstructPath] visits the indices. *)
Local Abbreviation goalDistance cfg node :=
  (distance (NUM := QN) (obj_value node) (endPos cfg)).
Local Abbreviation visible cfg current node :=
  (FirstVersion.isPathClear (NUM := QN) cfg (obj_value current) (obj_value node)).
Local Abbreviation distanceAt cfg nodes i :=
  (goalDistance cfg (nth i nodes (startObj cfg))).
Local Abbreviation before cfg nodes j i :=
  (distanceAt cfg nodes j < distanceAt cfg nodes i
   \/ (distanceAt cfg nodes j == distanceAt cfg nodes i /\ (j < i)%nat)).

Lemma first_collides_proper (cfg : ConfigQ) (p q : VecQ) (o : Obstacle Q) :
  sameVector p q ->
  FirstVersion.collides (NUM := QN) cfg p o
  = FirstVersion.collides (NUM := QN) cfg q o.
Proof.
  intros H. unfold FirstVersion.collides. simpl. f_equal.
  apply IdealTreeFacts.Qle_bool_proper; [reflexivity |].
  apply (IdealTreeFacts.distance_proper sqrtQ sqrtQ_proper); [assumption |].
  repeat split; reflexivity.
Qed.

(** A segment that passes the test starts at a point that passes it: the
    first sample is the start. *)
Lemma first_isPathClear_start (cfg : ConfigQ) (a b : VecQ) :
  FirstVersion.isPathClear (NUM := QN) cfg a b = true ->
  FirstVersion.isPathClear (NUM := QN) cfg a a = true.
Proof.
  unfold FirstVersion.isPathClear. cbv zeta. rewrite !forallb_forall.
  intros H i Hi.
  assert (H0 : In 0%nat (seq 0 11)) by (apply in_seq; lia).
  specialize (H 0%nat H0). cbv beta in H. rewrite <- H.
  apply IdealTreeFacts.forallb_ext_in. intros o _. f_equal.
  apply first_collides_proper.
  unfold sameVector, interpolate. simpl.
  change (inject_Z 0) with 0. unfold Qdiv. repeat split; ring.
Qed.

Lemma scanTowardsGoal_first_minimum (cfg : ConfigQ) (current : ObjQ) :
  forall l best d chosen,
    FirstVersion.scanTowardsGoal (NUM := QN) cfg l current best = Some (d, chosen) ->
    (best = Some (d, chosen)
     /\ forall node, In node l -> visible cfg current node = true ->
          d <= goalDistance cfg node)
    \/ exists k,
         nth_error l k = Some chosen
         /\ d = goalDistance cfg chosen
         /\ visible cfg current chosen = true
         /\ (forall m b, best = Some (m, b) -> d < m)
         /\ forall i node, nth_error l i = Some node ->
              visible cfg current node = true ->
              d <= goalDistance cfg node
              /\ ((i < k)%nat -> d < goalDistance cfg node).
Proof.
  induction l as [| node l IH]; intros best d chosen H; simpl in H.
  - left. split; [assumption |]. intros node [].
  - match type of H with
    | FirstVersion.scanTowardsGoal _ _ _ (if ?c then _ else _) = _ =>
        destruct c eqn:Ec
    end.
    + apply andb_true_iff in Ec. destruct Ec as [Esm Evis].
      assert (Hbest : forall m b, best = Some (m, b) -> goalDistance cfg node < m).
      { intros m b ->. now apply IdealSearchFacts.Qltb_true. }
      apply IH in H. destruct H as [[E Hl] | (k & Hk & Hd & Hv & Hlt & Hmin)].
      * inversion E; subst. right. exists 0%nat. repeat split; try assumption.
        -- destruct i; simpl in H; [inversion H; subst; apply Qle_refl |].
           apply Hl; [now apply nth_error_In in H | assumption].
        -- intros Hi. lia.
      * right. exists (S k). specialize (Hlt _ _ eq_refl).
        repeat split; try assumption.
        -- intros m b Eb. apply Hbest in Eb. exact (Qlt_trans _ _ _ Hlt Eb).
        -- destruct i; simpl in H;
             [inversion H; subst; now apply Qlt_le_weak |].
           now apply (Hmin i node0).
        -- intros Hi. destruct i; simpl in H; [inversion H; subst; assumption |].
           apply (Hmin i node0); [assumption | assumption | lia].
    + assert (Hnode : visible cfg current node = true ->
                      exists m b, best = Some (m, b) /\ m <= goalDistance cfg node).
      { intros Hv. rewrite Hv, andb_true_r in Ec.
        destruct best as [[m b] |]; [| discriminate].
        exists m, b. split; [reflexivity | now apply IdealSearchFacts.Qltb_false]. }
      apply IH in H. destruct H as [[E Hl] | (k & Hk & Hd & Hv & Hlt & Hmin)].
      * left. split; [assumption |]. intros n [<- | Hn] Hvn.
        -- destruct (Hnode Hvn) as (m & b & Eb & Hm). congruence.
        -- now apply Hl.
      * right. exists (S k). repeat split; try assumption.
        -- destruct i; simpl in H; [| now apply (Hmin i node0)].
           inversion H; subst. destruct (Hnode H0) as (m & b & Eb & Hm).
           apply Hlt in Eb. apply Qlt_le_weak. exact (Qlt_le_trans _ _ _ Eb Hm).
        -- intros Hi. destruct i; simpl in H;
             [| apply (Hmin i node0); [assumption | assumption | lia]].
           inversion H; subst. destruct (Hnode H0) as (m & b & Eb & Hm).
           apply Hlt in Eb. exact (Qlt_le_trans _ _ _ Eb Hm).
Qed.

(** The [while] loop of [reconstructPath] ends: each node it moves to is
    nearer to the goal than the one before, or as near and earlier in
    [nodes]; [seen] are the indices it has left. *)
Lemma first_reconstructLoop_returns (cfg : ConfigQ) (nodes : list ObjQ) :
  forall fuel seen j current path,
    nth_error nodes j = Some current ->
    NoDup seen ->
    (forall i, In i seen -> (i < length nodes)%nat /\ before cfg nodes j i) ->
    (length nodes + 1 <= fuel + length seen)%nat ->
    exists out,
      FirstVersion.reconstructLoop (NUM := QN) cfg nodes fuel current path
      = Some out.
Proof.
  induction fuel as [| fuel IH]; intros seen j current path Hj Hnd Hseen Hfuel.
  - exfalso.
    assert (Hnd' : NoDup (j :: seen)).
    { constructor; [| assumption]. intros Hin. apply Hseen in Hin.
      destruct Hin as [_ [Hlt | [_ Hlt]]]; [| lia].
      now apply Qlt_irrefl in Hlt. }
    assert (Hincl : incl (j :: seen) (seq 0 (length nodes))).
    { intros i [<- | Hi]; apply in_seq.
      - split; [lia |]. apply nth_error_Some. congruence.
      - apply Hseen in Hi. lia. }
    apply (NoDup_incl_length Hnd') in Hincl.
    rewrite length_seq in Hincl. simpl in Hincl. simpl in Hfuel. lia.
  - cbn [FirstVersion.reconstructLoop].
    destruct (num_ltb _ _); [| eexists; reflexivity].
    destruct (FirstVersion.scanTowardsGoal cfg nodes current None)
      as [[d chosen] |] eqn:Escan; [| eexists; reflexivity].
    destruct (same_object chosen current) eqn:Esame; [eexists; reflexivity |].
    apply scanTowardsGoal_first_minimum in Escan.
    destruct Escan as [[E _] | (k & Hk & Hd & Hv & _ & Hmin)]; [discriminate |].
    assert (Hself : visible cfg current current = true)
      by (now apply first_isPathClear_start in Hv).
    destruct (Hmin j current Hj Hself) as [Hle Hlt].
    assert (Hkj : k <> j).
    { intros ->. rewrite Hj in Hk. inversion Hk; subst.
      unfold same_object in Esame. rewrite Nat.eqb_refl in Esame. discriminate. }
    assert (Ej : nth j nodes (startObj cfg) = current) by now apply nth_error_nth.
    assert (Ek : nth k nodes (startObj cfg) = chosen) by now apply nth_error_nth.
    assert (Hbefore : before cfg nodes k j).
    { rewrite Ej, Ek. rewrite <- Hd.
      destruct (Nat.lt_ge_cases j k) as [Hjk | Hjk].
      - left. now apply Hlt.
      - destruct (Qlt_le_dec d (goalDistance cfg current)) as [Hd' | Hd'].
        + now left.
        + right. split; [| lia]. now apply Qle_antisym. }
    apply (IH (j :: seen) k).
    + assumption.
    + constructor; [| assumption]. intros Hin. apply Hseen in Hin.
      destruct Hin as [_ [Hlt' | [_ Hlt']]]; [| lia].
      now apply Qlt_irrefl in Hlt'.
    + intros i [<- | Hi].
      * split; [| assumption]. apply nth_error_Some. congruence.
      * apply Hseen in Hi. destruct Hi as [Hi Hji]. split; [assumption |].
        destruct Hbefore as [Hb | [Hb Hb']], Hji as [Hc | [Hc Hc']].
        -- left. exact (Qlt_trans _ _ _ Hb Hc).
        -- left. now rewrite <- Hc.
        -- left. now rewrite Hb.
        -- right. split; [now rewrite Hb | lia].
    + simpl. lia.
Qed.

Lemma first_reconstructLoop_more_fuel (cfg : ConfigQ) (nodes : list ObjQ) :
  forall fuel fuel' current path out,
    (fuel <= fuel')%nat ->
    FirstVersion.reconstructLoop (NUM := QN) cfg nodes fuel current path = Some out ->
    FirstVersion.reconstructLoop (NUM := QN) cfg nodes fuel' current path = Some out.
Proof.
  induction fuel as [| fuel IH]; intros fuel' current path out Hle H;
    [discriminate |].
  destruct fuel' as [| fuel']; [lia |].
  cbn [FirstVersion.reconstructLoop] in *.
  destruct (num_ltb _ _); [| assumption].
  destruct (FirstVersion.scanTowardsGoal cfg nodes current None)
    as [[d chosen] |]; [| assumption].
  destruct (same_object chosen current); [assumption |].
  apply IH; [lia | assumption].
Qed.

(** The [for] loop of [plan] returns, the start stays the first node, and
    each iteration adds at most one node. *)
Lemma first_rrtLoop_returns (cfg : ConfigQ) (random : nat -> Q) :
  forall iterations st rest,
    st.(nodes) = startObj cfg :: rest ->
    exists st' found rest',
      FirstVersion.rrtLoop (NUM := QN) cfg random iterations st = Some (st', found)
      /\ st'.(nodes) = startObj cfg :: rest'
      /\ (length st'.(nodes) <= length st.(nodes) + iterations)%nat.
Proof.
  induction iterations as [| iterations IH]; intros st rest Hst.
  - exists st, false, rest. simpl. repeat split; [assumption | lia].
  - cbn [FirstVersion.rrtLoop]. rewrite Hst.
    cbn [FirstVersion.nearest].
    match goal with
    | |- context [if ?c then _ else _] => destruct c
    end.
    + match goal with
      | |- context [if ?c then _ else _] => destruct c
      end.
      * eexists _, true, _. split; [reflexivity |]. simpl.
        split; [reflexivity |]. rewrite length_app. simpl. lia.
      * edestruct IH as (st' & found & rest' & E & Hn & Hlen);
          [| exists st', found, rest'; split; [exact E |]].
        -- simpl. reflexivity.
        -- split; [assumption |]. simpl in Hlen. rewrite length_app in Hlen.
           simpl in *. lia.
    + edestruct IH as (st' & found & rest' & E & Hn & Hlen);
        [| exists st', found, rest'; split; [exact E |]].
      * simpl. reflexivity.
      * split; [assumption |]. simpl in *. lia.
Qed.

(** In exact arithmetic the first version of the tree planner always
    returns.  The [for] loop of [plan] makes at most [maxIterations]
    iterations, and the [while] loop of [reconstructPath] ends: each node
    it moves to is nearer to the goal than the one before, or as near and
    earlier in [nodes], so that it makes at most one iteration for each
    node.  With [maxIterations + 2] iterations of the [while] loop
    allowed, and with every larger number, [plan] returns the same path. *)
Theorem first_version_rrtPlan_returns (cfg : ConfigQ) (random : nat -> Q)
    (fuel : nat) :
  (cfg.(maxIterations) + 2 <= fuel)%nat ->
  exists out,
    FirstVersion.rrtPlan (NUM := QN) cfg random fuel = Some out
    /\ FirstVersion.rrtPlan (NUM := QN) cfg random (cfg.(maxIterations) + 2)
       = Some out.
Proof.
  intros Hfuel. unfold FirstVersion.rrtPlan.
  destruct (first_rrtLoop_returns cfg random cfg.(maxIterations)
              (mkRRTState [startObj cfg] 2 0) [] eq_refl)
    as (st & found & rest & -> & Hn & Hlen).
  cbn [fst snd]. simpl in Hlen.
  destruct found; [| eexists; split; reflexivity].
  unfold FirstVersion.rrtReconstructPath.
  destruct (first_reconstructLoop_returns cfg st.(nodes)
              (cfg.(maxIterations) + 2) [] 0 (startObj cfg) [cfg.(startPos)])
    as [out Hout].
  - rewrite Hn. reflexivity.
  - constructor.
  - intros i [].
  - simpl. lia.
  - exists out. split; [| assumption].
    now apply (first_reconstructLoop_more_fuel cfg st.(nodes)
                 (cfg.(maxIterations) + 2)).
Qed.

End WithSqrt.
End FirstVersionTreeFacts.

(** ** The further facts on the scenarios *)

Module ExampleFacts.
Import PrimFloat JSFloat Scenarios Examples.




Lemma scanMin_selects_first_minimum_witness :
  exists f current k,
    scanMin (NUM := exact_number) exact_open_set 0 None = Some (f, current, k)
    /\ nth_error exact_open_set k = Some current
    /\ f = (current.(node_g) + current.(node_h))%Q
    /\ forall j n, nth_error exact_open_set j = Some n ->
         (f <= n.(node_g) + n.(node_h))%Q
         /\ (j < k -> (f < n.(node_g) + n.(node_h))%Q).
Proof.
  apply (IdealSearchFacts.scanMin_selects_first_minimum Ideal.Qsqrt_floor
           exact_open_set).
  discriminate.
Defined.

Lemma nearest_scans_witness :
  (exists o k,
     nearestNode (NUM := exact_number) exact_tree (mkVector3 0 2 0)%Q = Some o
     /\ nth_error exact_tree k = Some o
     /\ forall j n, nth_error exact_tree j = Some n ->
          (distance (NUM := exact_number) (mkVector3 0 2 0)%Q o.(obj_value)
             <= distance (NUM := exact_number) (mkVector3 0 2 0)%Q n.(obj_value))%Q
          /\ (j < k ->
              (distance (NUM := exact_number) (mkVector3 0 2 0)%Q o.(obj_value)
                 < distance (NUM := exact_number) (mkVector3 0 2 0)%Q
                     n.(obj_value))%Q))
  /\ (exists o k,
        closestToGoal (NUM := exact_number) exact_config exact_tree = Some o
        /\ nth_error exact_tree k = Some o
        /\ forall j n, nth_error exact_tree j = Some n ->
             (distance (NUM := exact_number) o.(obj_value) exact_config.(endPos)
                <= distance (NUM := exact_number) n.(obj_value)
                     exact_config.(endPos))%Q
             /\ (j < k ->
                 (distance (NUM := exact_number) o.(obj_value)
                    exact_config.(endPos)
                    < distance (NUM := exact_number) n.(obj_value)
                        exact_config.(endPos))%Q)).
Proof.
  apply (IdealSearchFacts.nearest_scans_select_first_nearest Ideal.Qsqrt_floor
           exact_config exact_tree (mkVector3 0 2 0)%Q).
  discriminate.
Defined.



Lemma smoothPath_passes_through_waypoints_witness :
  exists out,
    smoothPath (NUM := exact_number) straight_path 20%Q = Some out
    /\ ((nth (1 * Z.to_nat (Qceiling 20)) out exact_origin).(x)
        == (nth 1 straight_path exact_origin).(x))%Q
    /\ ((nth (1 * Z.to_nat (Qceiling 20)) out exact_origin).(y)
        == (nth 1 straight_path exact_origin).(y))%Q
    /\ ((nth (1 * Z.to_nat (Qceiling 20)) out exact_origin).(z)
        == (nth 1 straight_path exact_origin).(z))%Q.
Proof.
  apply (IdealSmoothingFacts.smoothPath_passes_through_waypoints
           Ideal.Qsqrt_floor straight_path 20%Q 1 exact_origin).
  - simpl. lia.
  - reflexivity.
  - simpl. lia.
Defined.


Lemma resample_at_speed_zero_witness :
  generateTrajectoryFromPath five_long_path 0%float = None.
Proof.
  apply (proj1 (ResamplerEdgeFacts.resample_at_speed_zero five_long_path)).
  vm_compute. reflexivity.
Defined.

Lemma trajectory_array_is_shared_witness :
  let '(store1, sim1) :=
    DroneSimulatorV2.setTrajectory 0 constructed_store constructed in
  let '(store2, sim2) :=
    DroneSimulatorV2.addTrajectoryPoint (waypoint 2 2 2 1) store1 sim1 in
  let '(store3, sim3) := DroneSimulatorV2.clearTrajectory store2 sim2 in
  let '(store4, sim4) :=
    DroneSimulatorV2.addTrajectoryPoint (waypoint 9 9 9 0) store3 sim3 in
  DroneSimulatorV2.getTrajectoryPoints sim1 = 0
  /\ DroneSimulatorV2.getTrajectoryPoints sim2 = 0
  /\ DroneSimulatorV2.readArray store2 0
     = DroneSimulatorV2.readArray constructed_store 0 ++ [waypoint 2 2 2 1]
  /\ (forall other, other <> 0 ->
        DroneSimulatorV2.readArray store2 other
        = DroneSimulatorV2.readArray constructed_store other)
  /\ sim2.(DroneSimulatorV2.trajectoryLine)
     = Some (DroneSimulatorV2.linePositions
               (DroneSimulatorV2.readArray constructed_store 0
                ++ [waypoint 2 2 2 1]))
  /\ DroneSimulatorV2.getTrajectoryPoints sim3 = length constructed_store
  /\ DroneSimulatorV2.readArray store3
       (DroneSimulatorV2.getTrajectoryPoints sim3) = []
  /\ sim3.(DroneSimulatorV2.trajectoryLine) = None
  /\ DroneSimulatorV2.readArray store4
       (DroneSimulatorV2.getTrajectoryPoints sim4) = [waypoint 9 9 9 0]
  /\ DroneSimulatorV2.readArray store4 0
     = DroneSimulatorV2.readArray constructed_store 0 ++ [waypoint 2 2 2 1].
Proof.
  apply (trajectory_array_is_shared constructed_store constructed 0
           (waypoint 2 2 2 1) (waypoint 9 9 9 0)).
  simpl. lia.
Defined.

Lemma fixed_views_do_not_follow_witness :
  let '(dx, dy, dz) := constructed.(DroneSimulatorV2.dronePosition) in
  (DroneSimulatorV2.run (MATH := series_math) fly_away
     (DroneSimulatorV2.setViewMode top constructed)).(DroneSimulatorV2.cameraPosition)
  = (dx, num_add dy (lit 50), dz)
  /\ (DroneSimulatorV2.run (MATH := series_math) fly_away
        (DroneSimulatorV2.setViewMode side constructed)).(DroneSimulatorV2.cameraPosition)
     = (num_add dx (lit 50), dy, dz)
  /\ (DroneSimulatorV2.run (MATH := series_math) fly_away
        (DroneSimulatorV2.setViewMode isometric constructed)).(DroneSimulatorV2.cameraPosition)
     = (num_add dx (num_mul (lit 50) DroneSimulatorV2.sevenTenths),
        num_add dy (num_mul (lit 50) DroneSimulatorV2.sevenTenths),
        num_add dz (num_mul (lit 50) DroneSimulatorV2.sevenTenths))
  /\ let '(fx, fy, fz) :=
       (DroneSimulatorV2.run (MATH := series_math) fly_away
          (DroneSimulatorV2.setViewMode follow constructed)).(DroneSimulatorV2.dronePosition) in
     (DroneSimulatorV2.run (MATH := series_math)
        (fly_away ++ [DroneSimulatorV2.Frame])
        (DroneSimulatorV2.setViewMode follow constructed)).(DroneSimulatorV2.cameraPosition)
     = (num_sub fx (lit 30), num_add fy (lit 20), num_sub fz (lit 30)).
Proof.
  apply (fixed_views_do_not_follow (MATH := series_math) constructed fly_away).
  reflexivity.
Defined.

Lemma free_camera_stays_in_range_witness :
  let sim :=
    DroneSimulatorV2.run (NUM := exact_number)
      (MATH := IdealMath.Q_math (fun _ => 0%Q) (fun _ => 1%Q) exact_pi)
      drag_and_zoom
      (snd (DroneSimulatorV2.newSimulator (NUM := exact_number)
              (MATH := IdealMath.Q_math (fun _ => 0%Q) (fun _ => 1%Q) exact_pi)
              [])) in
  ((10 <= sim.(DroneSimulatorV2.targetDistance) <= 200
    /\ 10 <= sim.(DroneSimulatorV2.distance) <= 200)
   /\ (- exact_pi / 2 <= sim.(DroneSimulatorV2.targetRotationX) <= exact_pi / 2
       /\ - exact_pi / 2 <= sim.(DroneSimulatorV2.rotationX) <= exact_pi / 2))%Q.
Proof.
  apply (IdealCameraFacts.free_camera_stays_in_range Ideal.Qsqrt_floor
           (fun _ => 0%Q) (fun _ => 1%Q) exact_pi).
  discriminate.
Defined.

Lemma rrtPlan_returns_only_the_direct_path_witness :
  [mkVector3 9%Q 0%Q 0%Q; mkVector3 20%Q 0%Q 0%Q]
  = [exact_blocked_config.(startPos); exact_blocked_config.(endPos)].
Proof.
  apply (IdealTreeFacts.rrtPlan_returns_only_the_direct_path
           IdealTree.Qsqrt_floor_red
           IdealTreeFacts.Qsqrt_floor_red_proper
           IdealTreeFacts.Qsqrt_floor_red_nonneg
           IdealTreeFacts.Qsqrt_floor_red_pos
           exact_blocked_config half_random 5).
  vm_compute. reflexivity.
Defined.

Lemma segment_test_is_symmetric_witness :
  isPathClear (NUM := Ideal.Q_number IdealTree.Qsqrt_floor_red)
    exact_blocked_config (mkVector3 0%Q 0%Q 0%Q) (mkVector3 9%Q 12%Q 0%Q)
  = isPathClear (NUM := Ideal.Q_number IdealTree.Qsqrt_floor_red)
      exact_blocked_config (mkVector3 9%Q 12%Q 0%Q) (mkVector3 0%Q 0%Q 0%Q)
  /\ (distance (NUM := Ideal.Q_number IdealTree.Qsqrt_floor_red)
        (mkVector3 0%Q 0%Q 0%Q) (mkVector3 9%Q 12%Q 0%Q)
      == distance (NUM := Ideal.Q_number IdealTree.Qsqrt_floor_red)
           (mkVector3 9%Q 12%Q 0%Q) (mkVector3 0%Q 0%Q 0%Q))%Q.
Proof.
  apply (IdealTreeFacts.segment_test_is_symmetric
           IdealTree.Qsqrt_floor_red
           IdealTreeFacts.Qsqrt_floor_red_proper
           IdealTreeFacts.Qsqrt_floor_red_nonneg
           IdealTreeFacts.Qsqrt_floor_red_pos).
Defined.


Lemma first_version_rrtPlan_path_witness :
  exists between,
    first_version_tree_path
    = near_goal_config.(startPos) :: between ++ [near_goal_config.(endPos)]
    /\ FirstVersion.segmentsClear near_goal_config
         (near_goal_config.(startPos) :: between).
Proof.
  apply (first_version_rrtPlan_path (MATH := series_math) near_goal_config
           striding_random 60).
  vm_compute. reflexivity.
Defined.

Lemma square_nonneg (a : Q) : (0 <= a * a)%Q.
Proof.
  destruct (Qlt_le_dec a 0) as [H | H].
  - setoid_replace (a * a)%Q with ((- a) * (- a))%Q by ring.
    apply Qmult_le_0_compat; lra.
  - apply Qmult_le_0_compat; assumption.
Qed.

Lemma rational_sin_range (a : Q) : (-1 <= rational_sin a <= 1)%Q.
Proof.
  unfold rational_sin.
  pose proof (square_nonneg a) as Hs.
  pose proof (square_nonneg (a - 1)%Q) as Hm.
  pose proof (square_nonneg (a + 1)%Q) as Hp.
  assert (Hd : (0 < 1 + a * a)%Q) by lra.
  split.
  - apply Qle_shift_div_l; [assumption |].
    setoid_replace ((a + 1) * (a + 1))%Q with (a * a + 2 * a + 1)%Q in Hp
      by ring.
    lra.
  - apply Qle_shift_div_r; [assumption |].
    setoid_replace ((a - 1) * (a - 1))%Q with (a * a - 2 * a + 1)%Q in Hm
      by ring.
    lra.
Qed.

Lemma rational_cos_range (a : Q) : (-1 <= rational_cos a <= 1)%Q.
Proof.
  unfold rational_cos.
  pose proof (square_nonneg a) as Hs.
  assert (Hd : (0 < 1 + a * a)%Q) by lra.
  split.
  - apply Qle_shift_div_l; [assumption | lra].
  - apply Qle_shift_div_r; [assumption | lra].
Qed.

Lemma generated_trajectory_envelope_witness :
  let point :=
    AlgorithmParser.generatedPoint (NUM := exact_number)
      (MATH := rational_math) spiral_preset 125 in
  let '(px, py, pz) := point.(tp_position) in
  (point.(timestamp) == inject_Z (Z.of_nat 125) / 10
   /\ point.(timestamp) < 50
   /\ 0 - 30 <= px <= 0 + 30
   /\ 0 - 30 <= pz <= 0 + 30
   /\ 0 <= py
   /\ (0 <= 0 + 40 -> py <= 0 + 40)
   /\ point.(velocity) <= 10
   /\ (0 <= 10 -> 0 <= point.(velocity)))%Q.
Proof.
  apply (proj2 (GeneratedTrajectoryFacts.generated_trajectory_envelope
                  Ideal.Qsqrt_floor rational_sin rational_cos exact_pi
                  rational_sin_range rational_cos_range spiral_preset)
           125%nat).
  reflexivity.
Defined.

Lemma first_version_rrtPlan_returns_witness :
  exists out,
    FirstVersion.rrtPlan (NUM := Ideal.Q_number IdealTree.Qsqrt_floor_red)
      (MATH := rational_math) exact_near_goal_config exact_striding_random 60
    = Some out
    /\ FirstVersion.rrtPlan (NUM := Ideal.Q_number IdealTree.Qsqrt_floor_red)
         (MATH := rational_math) exact_near_goal_config exact_striding_random
         (exact_near_goal_config.(maxIterations) + 2)
       = Some out.
Proof.
  apply (FirstVersionTreeFacts.first_version_rrtPlan_returns
           IdealTree.Qsqrt_floor_red IdealTreeFacts.Qsqrt_floor_red_proper
           rational_math exact_near_goal_config exact_striding_random 60).
  simpl. lia.
Defined.

End ExampleFacts.
